(** * mockably-predev: the IndexedDB engine and its query builder

    A shallow embedding of
      - [ColumnDefinitionBuilder.ts]  (the fluent column builders),
      - [QueryBuilder.ts]             (matches / applyQuery),
      - [idb.ts]                      (open, createObjectStore, the
                                       transaction gateway and the CRUD
                                       closures),
    followed by the properties of the specification that were checked
    against them.

    Conventions.  JavaScript objects used as dictionaries are [gmap string _];
    an object whose [Object.entries] order matters (the schema, the columns
    of a store) is an association list in that order.  The numbers that
    records and conditions hold are integers ([Z]): the keys, counters and
    time values the stores of this package keep; the number a string
    converts to in a comparison is a double.  Strings are byte strings
    (the ASCII part of JavaScript strings). *)

From Stdlib Require Import ZArith String Ascii List Bool Lia Permutation Sorted.
From stdpp Require Import base option gmap strings list.
Import ListNotations.

Open Scope Z_scope.
Open Scope string_scope.

(* ===================================================================== *)
(** * The language level: values, comparisons, promises *)
(* ===================================================================== *)

Module JS.

(** Values a record field or a condition can hold: the data a store keeps
    (no symbols, functions or other exotic objects, on which a comparison
    could throw).  Dates, arrays and plain objects are heap objects: [ref]
    is the identity of the object, and two object values denote the same
    object exactly when their [ref]s agree. *)
#[warnings="-register-all"]
Inductive value : Type :=
| VUndefined
| VNull
| VBool (b : bool)
| VNum (n : Z)
| VStr (s : string)
| VDate (ref : nat) (t : Z)
| VArr (ref : nat) (elems : list value)
| VObj (ref : nat) (fields : gmap string value).

(** [o[k]]: reading a property that is not there gives [undefined]. *)
Definition get (o : gmap string value) (k : string) : value :=
  default VUndefined (o !! k).

(** [k in o] *)
Definition has (k : string) (o : gmap string value) : bool :=
  bool_decide (is_Some (o !! k)).

Definition typeof (v : value) : string :=
  match v with
  | VUndefined => "undefined"
  | VNull => "object"
  | VBool _ => "boolean"
  | VNum _ => "number"
  | VStr _ => "string"
  | VDate _ _ | VArr _ _ | VObj _ _ => "object"
  end.

Definition isArray (v : value) : bool :=
  match v with VArr _ _ => true | _ => false end.

Definition instanceofDate (v : value) : bool :=
  match v with VDate _ _ => true | _ => false end.

Definition isNull (v : value) : bool :=
  match v with VNull => true | _ => false end.

Definition isUndefined (v : value) : bool :=
  match v with VUndefined => true | _ => false end.

(** [a === b]: primitives by value, objects by identity. *)
Definition strictEquals (a b : value) : bool :=
  match a, b with
  | VUndefined, VUndefined => true
  | VNull, VNull => true
  | VBool x, VBool y => Bool.eqb x y
  | VNum x, VNum y => (x =? y)%Z
  | VStr x, VStr y => String.eqb x y
  | VDate r _, VDate r' _ => (r =? r')%nat
  | VArr r _, VArr r' _ => (r =? r')%nat
  | VObj r _, VObj r' _ => (r =? r')%nat
  | _, _ => false
  end.

(** [arr.includes(x)] compares with SameValueZero, which differs from [===]
    on NaN only; there is no NaN among the integers. *)
Definition arrayIncludes (elems : list value) (x : value) : bool :=
  existsb (fun e => strictEquals e x) elems.

(** ** Strings *)

Definition lowerAscii (c : ascii) : ascii :=
  let n := nat_of_ascii c in
  if ((65 <=? n) && (n <=? 90))%nat then ascii_of_nat (n + 32) else c.

Fixpoint toLowerCase (s : string) : string :=
  match s with
  | EmptyString => EmptyString
  | String c rest => String (lowerAscii c) (toLowerCase rest)
  end.

(** [s.includes(sub)] *)
Fixpoint stringIncludes (s sub : string) : bool :=
  String.prefix sub s ||
  match s with
  | EmptyString => false
  | String _ rest => stringIncludes rest sub
  end.

Definition isWhiteSpace (c : ascii) : bool :=
  let n := nat_of_ascii c in
  ((n =? 32) || ((9 <=? n) && (n <=? 13)))%nat.

Fixpoint trimStart (s : string) : string :=
  match s with
  | String c rest => if isWhiteSpace c then trimStart rest else s
  | EmptyString => EmptyString
  end.

Fixpoint trimEnd (s : string) : string :=
  match s with
  | EmptyString => EmptyString
  | String c rest =>
      match trimEnd rest with
      | EmptyString => if isWhiteSpace c then EmptyString else String c EmptyString
      | rest' => String c rest'
      end
  end.

(** ** Numbers *)

(** What ToNumber gives: NaN, an infinity, or a finite double, which is a
    mantissa times a power of two.  The integers of [VNum] are the
    doubles with exponent 0. *)
Inductive number : Type :=
| NaN
| Infinite (negative : bool)
| Finite (mantissa exponent : Z).

Definition ofInteger (n : Z) : number := Finite n 0.

(** [x < y] on numbers; false when one of them is NaN. *)
Definition numberLt (x y : number) : bool :=
  match x, y with
  | NaN, _ | _, NaN => false
  | Infinite nx, Infinite ny => nx && negb ny
  | Infinite nx, Finite _ _ => nx
  | Finite _ _, Infinite ny => negb ny
  | Finite m e, Finite m' e' =>
      if (e =? e')%Z then (m <? m')%Z
      else
        let low := Z.min e e' in
        (m * 2 ^ (e - low) <? m' * 2 ^ (e' - low))%Z
  end.

(** The double nearest to the positive rational [num / den], ties to the
    even mantissa: 53 bits of mantissa, the exponent not below -1074, and
    infinity from 2^1024 on. *)
Definition scaled (num den k : Z) : Z * Z :=
  if (k <? 0)%Z then (num * 2 ^ (- k), den) else (num, den * 2 ^ k).

Definition roundToDouble (num den : Z) : number :=
  if (num =? 0)%Z then Finite 0 0
  else
    let k0 := Z.log2 num - Z.log2 den - 52 in
    let '(n0, d0) := scaled num den k0 in
    let k1 := if (2 ^ 52 <=? n0 / d0)%Z then k0 else k0 - 1 in
    let k := Z.max k1 (-1074) in
    let '(n, d) := scaled num den k in
    let t := n / d in
    let rest := n mod d in
    let mantissa :=
      if (2 * rest <? d)%Z then t
      else if (d <? 2 * rest)%Z then t + 1
      else if Z.even t then t else t + 1 in
    if (mantissa =? 0)%Z then Finite 0 0
    else if (1024 <=? Z.log2 mantissa + k)%Z then Infinite false
    else Finite mantissa k.

(** The comparison of two numbers: undefined ([None]) when one of them is
    NaN. *)
Definition numberLess (x y : number) : option bool :=
  match x, y with
  | NaN, _ | _, NaN => None
  | _, _ => Some (numberLt x y)
  end.

Definition negate (x : number) : number :=
  match x with
  | NaN => NaN
  | Infinite negative => Infinite (negb negative)
  | Finite m e => Finite (- m) e
  end.

(** Digits in a radix, most significant first, read onto an accumulator;
    [None] for a character that is no digit of the radix. *)
Definition digitValue (c : ascii) : option Z :=
  let n := nat_of_ascii c in
  if ((48 <=? n) && (n <=? 57))%nat then Some (Z.of_nat (n - 48))
  else if ((97 <=? n) && (n <=? 102))%nat then Some (Z.of_nat (n - 87))
  else if ((65 <=? n) && (n <=? 70))%nat then Some (Z.of_nat (n - 55))
  else None.

Fixpoint readDigits (radix : Z) (s : string) (acc : Z) : option Z :=
  match s with
  | EmptyString => Some acc
  | String c rest =>
      match digitValue c with
      | Some d =>
          if (d <? radix)%Z then readDigits radix rest (radix * acc + d)
          else None
      | None => None
      end
  end.

Definition readUnsigned (radix : Z) (s : string) : option Z :=
  match s with
  | EmptyString => None
  | _ => readDigits radix s 0
  end.

(** The text before the first character that [stop] takes, and the text
    after it when there is one. *)
Fixpoint splitAt (stop : ascii → bool) (s : string) : string * option string :=
  match s with
  | EmptyString => (EmptyString, None)
  | String c rest =>
      if stop c then (EmptyString, Some rest)
      else let '(before, after) := splitAt stop rest in
           (String c before, after)
  end.

(** SignedInteger of an ExponentPart *)
Definition readSigned (s : string) : option Z :=
  match s with
  | String "+" rest => readUnsigned 10 rest
  | String "-" rest => Z.opp <$> readUnsigned 10 rest
  | _ => readUnsigned 10 s
  end.

(** StrUnsignedDecimalLiteral, but for [Infinity]: digits with an optional
    fraction and an optional exponent part, as the exact rational
    [num / den]. *)
Definition readDecimal (s : string) : option (Z * Z) :=
  let '(significand, exponentPart) :=
    splitAt (fun c => Ascii.eqb c "e" || Ascii.eqb c "E") s in
  let '(whole, fraction) := splitAt (fun c => Ascii.eqb c ".") significand in
  let digits := whole ++ default EmptyString fraction in
  let places := Z.of_nat (String.length (default EmptyString fraction)) in
  match readUnsigned 10 digits, from_option readSigned (Some 0) exponentPart with
  | Some m, Some e =>
      if (places <=? e)%Z then Some (m * 10 ^ (e - places), 1)
      else Some (m, 10 ^ (places - e))
  | _, _ => None
  end.

Definition readUnsignedDecimal (s : string) : number :=
  if String.eqb s "Infinity" then Infinite false
  else
    match readDecimal s with
    | Some (num, den) => roundToDouble num den
    | None => NaN
    end.

(** StringToNumber: surrounding white space is dropped; the empty string
    is 0; then a hexadecimal, octal or binary integer literal (no sign),
    or a decimal literal with an optional sign.  The value is rounded to
    the nearest double. *)
Definition stringToNumber (s : string) : number :=
  match trimEnd (trimStart s) with
  | EmptyString => Finite 0 0
  | String "0" (String ("x" | "X") rest) =>
      from_option (fun n => roundToDouble n 1) NaN (readUnsigned 16 rest)
  | String "0" (String ("o" | "O") rest) =>
      from_option (fun n => roundToDouble n 1) NaN (readUnsigned 8 rest)
  | String "0" (String ("b" | "B") rest) =>
      from_option (fun n => roundToDouble n 1) NaN (readUnsigned 2 rest)
  | String "+" rest => readUnsignedDecimal rest
  | String "-" rest => negate (readUnsignedDecimal rest)
  | t => readUnsignedDecimal t
  end.

Fixpoint digitsOf (fuel : nat) (n : Z) (acc : string) : string :=
  match fuel with
  | O => acc
  | S fuel' =>
      let acc' := String (ascii_of_nat (48 + Z.to_nat (n mod 10))) acc in
      if (n <? 10)%Z then acc' else digitsOf fuel' (n / 10) acc'
  end.

(** Number::toString for an integer. *)
Definition numberToString (n : Z) : string :=
  if (n <? 0)%Z
  then String "-" (digitsOf (S (Z.to_nat (Z.log2 (- n)))) (- n) EmptyString)
  else digitsOf (S (Z.to_nat (Z.log2 n))) n EmptyString.

(** ToString.  An array joins its elements with commas, [undefined] and
    [null] elements printing as nothing.  The text of a Date depends on the
    host and its time zone; the model prints the time value between
    brackets, which like the real text never reads as a number. *)
Fixpoint toString (v : value) : string :=
  match v with
  | VUndefined => "undefined"
  | VNull => "null"
  | VBool true => "true"
  | VBool false => "false"
  | VNum n => numberToString n
  | VStr s => s
  | VDate _ t => "[Date " ++ numberToString t ++ "]"
  | VArr _ elems =>
      String.concat ","
        (List.map (fun e => match e with
                            | VUndefined | VNull => EmptyString
                            | _ => toString e
                            end) elems)
  | VObj _ _ => "[object Object]"
  end.

(** ToPrimitive with hint number: a Date gives its time value, arrays and
    plain objects their string. *)
Definition toPrimitive (v : value) : value :=
  match v with
  | VDate _ t => VNum t
  | VArr _ _ | VObj _ _ => VStr (toString v)
  | _ => v
  end.

(** ToNumber of a primitive *)
Definition toNumber (p : value) : number :=
  match p with
  | VUndefined => NaN
  | VNull => ofInteger 0
  | VBool b => ofInteger (if b then 1 else 0)
  | VNum n => ofInteger n
  | VStr s => stringToNumber s
  | _ => NaN
  end.

(** IsLessThan(x, y): [Some b] for a defined answer, [None] for
    undefined (a NaN took part). *)
Definition isLessThan (x y : value) : option bool :=
  match toPrimitive x, toPrimitive y with
  | VStr sx, VStr sy => Some (String.ltb sx sy)
  | px, py =>
      numberLess (toNumber px) (toNumber py)
  end.

(** [a < b], [a > b], [a <= b], [a >= b] as the language derives them from
    IsLessThan. *)
Definition lt (a b : value) : bool := default false (isLessThan a b).
Definition gt (a b : value) : bool := default false (isLessThan b a).
Definition le (a b : value) : bool :=
  match isLessThan b a with Some false => true | _ => false end.
Definition ge (a b : value) : bool :=
  match isLessThan a b with Some false => true | _ => false end.

(** ** Errors and promises *)

(** The error values of the package, by the place that makes them;
    [message] gives the text each one carries. *)
Inductive error : Type :=
| AutoIncrementBeforePrimaryKey
| AutoIncrementNonNumber
| MultiplePrimaryKeys (storeName : string)
| AutoIncrementKeyNotNumber (columnName storeName : string)
| NoPrimaryKey (storeName : string)
| DatabaseNotOpen
| PrimaryKeyNotFound (storeName during : string)
| AbortError
| TypeErrorOfUndefined (property : string)
| VersionTypeError
| BackendError (name : string)
| NullError.

Definition message (e : error) : string :=
  match e with
  | AutoIncrementBeforePrimaryKey =>
      "autoIncrement() must be called after primaryKey()."
  | AutoIncrementNonNumber =>
      "autoIncrement can only be applied to a NUMBER primary key."
  | MultiplePrimaryKeys storeName =>
      "Multiple primary keys defined for store '" ++ storeName
      ++ "'. Only one is allowed."
  | AutoIncrementKeyNotNumber columnName storeName =>
      "Auto-increment primary key '" ++ columnName ++ "' in store '"
      ++ storeName ++ "' must be of type NUMBER."
  | NoPrimaryKey storeName =>
      "No primary key defined for store '" ++ storeName
      ++ "'. Use .primaryKey() on a column definition."
  | DatabaseNotOpen => "Database is not open. Call open() first."
  | PrimaryKeyNotFound storeName during =>
      "Primary key not found for store " ++ storeName ++ " during "
      ++ during ++ "."
  | AbortError => "Transaction aborted by the user or system."
  | TypeErrorOfUndefined property =>
      "Cannot read properties of undefined (reading '" ++ property ++ "')"
  | VersionTypeError =>
      "Failed to execute 'open' on 'IDBFactory': The version provided must not be 0."
  | BackendError name => name
  | NullError => EmptyString
  end.

(** A promise settles once: [resolve] and [reject] act on a pending promise
    and are ignored afterwards. *)
Inductive promise (T : Type) : Type :=
| Pending
| Fulfilled (result : T)
| Rejected (reason : error).
Arguments Pending {T}.
Arguments Fulfilled {T} result.
Arguments Rejected {T} reason.

Definition resolve {T} (p : promise T) (result : T) : promise T :=
  match p with Pending => Fulfilled result | _ => p end.

Definition reject {T} (p : promise T) (reason : error) : promise T :=
  match p with Pending => Rejected reason | _ => p end.

Definition settled {T} (p : promise T) : bool :=
  match p with Pending => false | _ => true end.

End JS.

(* ===================================================================== *)
(** * ColumnDefinitionBuilder.ts *)
(* ===================================================================== *)

Module ColumnDefinitionBuilder.

Inductive BaseColumnType : Type :=
| STRING | NUMBER | BOOLEAN | DATE | OBJECT | ARRAY.

#[export] Instance BaseColumnType_eq_dec : EqDecision BaseColumnType.
Proof. solve_decision. Defined.

(** The optional flags are properties that may be absent ([None]). *)
Record ColumnDefinition : Type := mkColumnDefinition {
  _type : BaseColumnType;
  _isPrimaryKey : option bool;
  _isAutoIncrement : option bool;
  _isNullable : option bool;
  _isUnique : option bool
}.

#[export] Instance ColumnDefinition_eq_dec : EqDecision ColumnDefinition.
Proof. solve_decision. Defined.

(** Truthiness of an optional boolean property. *)
Definition truthy (flag : option bool) : bool := default false flag.

(** Definition objects live in a heap: a builder holds a reference to its
    definition, and [build] hands that reference out.  [console] collects
    the texts given to [console.warn]. *)
Record Heap : Type := mkHeap {
  objects : gmap nat ColumnDefinition;
  nextRef : nat;
  console : list string
}.

Definition emptyHeap : Heap :=
  {| objects := ∅; nextRef := O; console := [] |}.

Definition deref (h : Heap) (r : nat) : option ColumnDefinition :=
  objects h !! r.

Definition store (r : nat) (d : ColumnDefinition) (h : Heap) : Heap :=
  {| objects := <[r := d]> (objects h); nextRef := nextRef h;
     console := console h |}.

Definition warn (text : string) (h : Heap) : Heap :=
  {| objects := objects h; nextRef := nextRef h;
     console := console h ++ [text] |}.

(** [BaseColumnBuilder]: its one field, [definition], is a reference. *)
Record BaseColumnBuilder : Type := mkBuilder { definition : nat }.

(** [constructor(type)]: allocates [{ _type: type }]. *)
Definition newBuilder (type : BaseColumnType) (h : Heap)
  : BaseColumnBuilder * Heap :=
  ({| definition := nextRef h |},
   {| objects :=
        <[nextRef h := mkColumnDefinition type None None None None]> (objects h);
      nextRef := S (nextRef h);
      console := console h |}).

Definition newStringBuilder := newBuilder STRING.
Definition newNumberBuilder := newBuilder NUMBER.
Definition newBooleanBuilder := newBuilder BOOLEAN.
Definition newDateBuilder := newBuilder DATE.
Definition newObjectBuilder := newBuilder OBJECT.
Definition newArrayBuilder := newBuilder ARRAY.

Definition primaryKeyWarning : string :=
  "Primary keys are typically numbers or strings. Ensure type compatibility with IndexedDB.".

Definition uniqueWarning : string :=
  "Primary keys are inherently unique. .unique() is redundant if also a primaryKey().".

(** Every operation returns [this]; what is modelled is its effect on the
    heap.  A builder made by [newBuilder] always finds its definition; the
    [None] branches below are there for totality only. *)

Definition primaryKey (this : BaseColumnBuilder) (h : Heap) : Heap :=
  match deref h (definition this) with
  | None => h
  | Some d =>
      let d' := mkColumnDefinition (_type d) (Some true) (_isAutoIncrement d)
                  (_isNullable d) (_isUnique d) in
      let h' := store (definition this) d' h in
      if bool_decide (_type d' ≠ NUMBER) && bool_decide (_type d' ≠ STRING)
      then warn primaryKeyWarning h'
      else h'
  end.

Definition autoIncrement (this : BaseColumnBuilder) (h : Heap)
  : JS.error + Heap :=
  match deref h (definition this) with
  | None => inr h
  | Some d =>
      if negb (truthy (_isPrimaryKey d)) then inl JS.AutoIncrementBeforePrimaryKey
      else if bool_decide (_type d ≠ NUMBER) then inl JS.AutoIncrementNonNumber
      else inr (store (definition this)
                  (mkColumnDefinition (_type d) (_isPrimaryKey d) (Some true)
                     (_isNullable d) (_isUnique d)) h)
  end.

(** [nullable(isNullable = true)]: sets the flag, or deletes the property. *)
Definition nullable (isNullable : bool) (this : BaseColumnBuilder) (h : Heap)
  : Heap :=
  match deref h (definition this) with
  | None => h
  | Some d =>
      store (definition this)
        (mkColumnDefinition (_type d) (_isPrimaryKey d) (_isAutoIncrement d)
           (if isNullable then Some true else None) (_isUnique d)) h
  end.

(** [unique(isUnique = true)]: on a primary key asked to be unique only the
    warning happens (inside that branch the key test is true and [isUnique]
    is true, so neither inner assignment runs); otherwise the flag is
    written. *)
Definition unique (isUnique : bool) (this : BaseColumnBuilder) (h : Heap)
  : Heap :=
  match deref h (definition this) with
  | None => h
  | Some d =>
      if truthy (_isPrimaryKey d) && isUnique then
        let h' := warn uniqueWarning h in
        if negb (truthy (_isPrimaryKey d)) then
          store (definition this)
            (mkColumnDefinition (_type d) (_isPrimaryKey d)
               (_isAutoIncrement d) (_isNullable d) (Some isUnique)) h'
        else if negb isUnique then
          store (definition this)
            (mkColumnDefinition (_type d) (_isPrimaryKey d)
               (_isAutoIncrement d) (_isNullable d) None) h'
        else h'
      else
        store (definition this)
          (mkColumnDefinition (_type d) (_isPrimaryKey d) (_isAutoIncrement d)
             (_isNullable d) (Some isUnique)) h
  end.

(** [build()] returns [this.definition]: the reference itself. *)
Definition build (this : BaseColumnBuilder) : nat := definition this.

(** The four chainable operations, as data, so that a statement can range
    over "any builder operation". *)
Inductive operation : Type :=
| OpPrimaryKey
| OpAutoIncrement
| OpNullable (isNullable : bool)
| OpUnique (isUnique : bool).

(** The heap after the call; a call that throws leaves it as it was. *)
Definition perform (op : operation) (this : BaseColumnBuilder) (h : Heap)
  : Heap :=
  match op with
  | OpPrimaryKey => primaryKey this h
  | OpAutoIncrement =>
      match autoIncrement this h with inl _ => h | inr h' => h' end
  | OpNullable flag => nullable flag this h
  | OpUnique flag => unique flag this h
  end.

End ColumnDefinitionBuilder.

(* ===================================================================== *)
(** * QueryBuilder.ts *)
(* ===================================================================== *)

Module QueryBuilder.
Import JS.

Inductive direction : Type := asc | desc.

Record OrderByCondition : Type := mkOrderBy {
  field : string;
  dir : direction
}.

(** A record of a store, and a [WhereCondition]: objects keyed by column. *)
Record QueryBuilder : Type := mkQuery {
  conditions : gmap string value;
  limitValue : option Z;
  orderByConditions : list OrderByCondition
}.

(** [constructor()] *)
Definition new : QueryBuilder :=
  {| conditions := ∅; limitValue := None; orderByConditions := [] |}.

(** [where] ([where] is a keyword here, hence the underscore):
    [{ ...this.conditions, ...conditions }], later keys winning. *)
Definition where_ (conds : gmap string value) (this : QueryBuilder)
  : QueryBuilder :=
  {| conditions := conds ∪ conditions this;
     limitValue := limitValue this;
     orderByConditions := orderByConditions this |}.

Definition limit (count : Z) (this : QueryBuilder) : QueryBuilder :=
  {| conditions := conditions this;
     limitValue := Some count;
     orderByConditions := orderByConditions this |}.

(** [orderBy(field, direction = "asc")] *)
Definition orderBy (f : string) (d : option direction) (this : QueryBuilder)
  : QueryBuilder :=
  {| conditions := conditions this;
     limitValue := limitValue this;
     orderByConditions :=
       orderByConditions this ++ [mkOrderBy f (default asc d)] |}.

(** The body of the operator-object branch of [matches]: the chain of
    [if ("key" in condition)] tests, in the order of the source. *)
Definition matchOperators (itemValue : value) (condition : gmap string value)
  : bool :=
  if has "equals" condition then
    strictEquals itemValue (get condition "equals")
  else if has "notEquals" condition then
    negb (strictEquals itemValue (get condition "notEquals"))
  else if has "greaterThan" condition then
    negb (isNull itemValue)
    && negb (isNull (get condition "greaterThan"))
    && gt itemValue (get condition "greaterThan")
  else if has "greaterThanOrEqual" condition then
    negb (isNull itemValue)
    && negb (isNull (get condition "greaterThanOrEqual"))
    && ge itemValue (get condition "greaterThanOrEqual")
  else if has "lessThan" condition then
    negb (isNull itemValue)
    && negb (isNull (get condition "lessThan"))
    && lt itemValue (get condition "lessThan")
  else if has "lessThanOrEqual" condition then
    negb (isNull itemValue)
    && negb (isNull (get condition "lessThanOrEqual"))
    && le itemValue (get condition "lessThanOrEqual")
  else
    match (if has "inArray" condition then
             match get condition "inArray" with
             | VArr _ elems => Some (arrayIncludes elems itemValue)
             | _ => None
             end
           else None) with
    | Some answer => answer
    | None =>
    match (if has "isBetween" condition then
             match get condition "isBetween" with
             | VArr _ [min; max] =>
                 Some (negb (isNull itemValue)
                       && negb (isNull min)
                       && negb (isNull max)
                       && ge itemValue min
                       && le itemValue max)
             | _ => None
             end
           else None) with
    | Some answer => answer
    | None =>
    match (if has "contains" condition then
             match itemValue, get condition "contains" with
             | VStr s, VStr sub => Some (stringIncludes s sub)
             | _, _ => None
             end
           else None) with
    | Some answer => answer
    | None =>
    match (if has "looseContains" condition then
             match itemValue, get condition "looseContains" with
             | VStr s, VStr sub =>
                 Some (stringIncludes (toLowerCase s) (toLowerCase sub))
             | _, _ => None
             end
           else None) with
    | Some answer => answer
    | None => false
    end end end end.

(** One [[key, condition]] entry of [matches]. *)
Definition matchCondition (itemValue condition : value) : bool :=
  if String.eqb (typeof condition) "object"
     && negb (isNull condition)
     && negb (isArray condition)
     && negb (instanceofDate condition)
  then
    match condition with
    | VObj _ operators => matchOperators itemValue operators
    | _ => false
    end
  else strictEquals itemValue condition.

(** [matches(item)]: every entry of the conditions holds.  The test of an
    entry has no effect, so the order in which [every] visits the entries
    does not show. *)
Definition matches (this : QueryBuilder) (item : gmap string value) : bool :=
  forallb (fun entry => matchCondition (get item entry.1) entry.2)
    (map_to_list (conditions this)).

(** The body of the [for] loop of the sort callback for one ordering key:
    the value of [comparison] after the direction flip. *)
Definition compareField (o : OrderByCondition) (a b : gmap string value) : Z :=
  let valA := get a (field o) in
  let valB := get b (field o) in
  let comparison :=
    if isNull valA && negb (isNull valB) then -1
    else if negb (isNull valA) && isNull valB then 1
    else if negb (isNull valA) && negb (isNull valB) then
      if lt valA valB then -1
      else if gt valA valB then 1
      else 0
    else 0 in
  match dir o with
  | desc => comparison * -1
  | asc => comparison
  end.

(** The sort callback: the first ordering key with a non-zero comparison
    returns it; 0 when the loop runs out. *)
Fixpoint compareRecords (obs : list OrderByCondition)
    (a b : gmap string value) : Z :=
  match obs with
  | [] => 0
  | o :: rest =>
      let comparison := compareField o a b in
      if negb (comparison =? 0)%Z then comparison
      else compareRecords rest a b
  end.

(** [Array.prototype.sort(compare)] is a stable sort: an element moves in
    front of another only where the callback is positive.  Stable insertion
    realises it.  For a callback that is consistent (a total preorder on
    the elements, as [compareRecords] is on fields that hold numbers,
    Dates or null) every stable sort gives this array.  For any other
    callback the language leaves the order to the engine: the array below
    is then one permutation an engine may give, and an order of the
    result is stated only under a hypothesis that makes the callback
    consistent. *)
Fixpoint sortInsert {A} (compare : A → A → Z) (x : A) (sorted : list A)
  : list A :=
  match sorted with
  | [] => [x]
  | y :: rest =>
      if (0 <? compare x y)%Z then y :: sortInsert compare x rest
      else x :: sorted
  end.

Definition arraySort {A} (compare : A → A → Z) (l : list A) : list A :=
  foldr (sortInsert compare) [] l.

(** [arr.slice(0, n)] for [n >= 0] *)
Definition sliceTo {A} (n : Z) (l : list A) : list A :=
  firstn (Z.to_nat n) l.

Definition applyQuery (this : QueryBuilder) (data : list (gmap string value))
  : list (gmap string value) :=
  let result := List.filter (fun item => matches this item) data in
  let result :=
    if (0 <? length (orderByConditions this))%nat
    then arraySort (compareRecords (orderByConditions this)) result
    else result in
  match limitValue this with
  | Some n => if (0 <=? n)%Z then sliceTo n result else result
  | None => result
  end.

Definition getConditions (this : QueryBuilder) : gmap string value :=
  conditions this.

End QueryBuilder.

(* ===================================================================== *)
(** * The storage backend (IndexedDB), as far as the engine uses it *)
(* ===================================================================== *)

Module Backend.
Import JS.

Inductive IDBTransactionMode : Type := readonly | readwrite.

Record IDBIndex : Type := mkIndex {
  indexName : string;
  indexKeyPath : string;
  indexUnique : bool
}.

(** An object store: its key path, its key generator and its records, kept
    in key order (the order [getAll] returns them). *)
Record IDBObjectStore : Type := mkStore {
  keyPath : string;
  autoIncrement : bool;
  indexes : list IDBIndex;
  keyGenerator : Z;
  records : list (gmap string value)
}.

(** What becomes of a readwrite transaction once its request has
    succeeded: it commits, or the backend aborts it (the quota is exceeded,
    the disk fails) and nothing of it is kept. *)
Inductive fate : Type :=
| Commit
| Abort (err : error).

(** A database: its stores, and the fates of the readwrite transactions to
    come whose request succeeds, in order; when the list has run out they
    commit. *)
Record IDBDatabase : Type := mkDatabase {
  objectStores : gmap string IDBObjectStore;
  fates : list fate
}.

(** [db.objectStoreNames.contains(name)] *)
Definition containsStore (name : string) (db : IDBDatabase) : bool :=
  bool_decide (is_Some (objectStores db !! name)).

Definition putStore (name : string) (st : IDBObjectStore) (db : IDBDatabase)
  : IDBDatabase :=
  {| objectStores := <[name := st]> (objectStores db); fates := fates db |}.

Definition withFates (later : list fate) (db : IDBDatabase) : IDBDatabase :=
  {| objectStores := objectStores db; fates := later |}.

(** ** Key paths *)

Definition isIdentifierStart (c : ascii) : bool :=
  let n := nat_of_ascii c in
  ((65 <=? n) && (n <=? 90) || (97 <=? n) && (n <=? 122)
   || (n =? 36) || (n =? 95))%nat.

Definition isIdentifierPart (c : ascii) : bool :=
  let n := nat_of_ascii c in
  isIdentifierStart c || ((48 <=? n) && (n <=? 57))%nat.

Fixpoint allIdentifierPart (s : string) : bool :=
  match s with
  | EmptyString => true
  | String c rest => isIdentifierPart c && allIdentifierPart rest
  end.

(** An identifier of the language, for names of ASCII characters: a
    letter, [$] or [_], then letters, digits, [$] and [_]. *)
Definition isIdentifier (s : string) : bool :=
  match s with
  | EmptyString => false
  | String c rest => isIdentifierStart c && allIdentifierPart rest
  end.

(** The parts of a key path between its periods. *)
Fixpoint segments (s : string) : list string :=
  match s with
  | EmptyString => [EmptyString]
  | String c rest =>
      if Ascii.eqb c "."%char then EmptyString :: segments rest
      else
        match segments rest with
        | seg :: more => String c seg :: more
        | [] => [String c EmptyString]
        end
  end.

(** A valid key path (a string): empty, or identifiers joined by
    periods. *)
Definition validKeyPath (path : string) : bool :=
  String.eqb path EmptyString || forallb isIdentifier (segments path).

(** Evaluating a key path on a value, identifier by identifier: an own
    property of an object, the length of a string or an array;
    [VUndefined] stands for failure. *)
Fixpoint evaluatePath (ids : list string) (v : value) : value :=
  match ids with
  | [] => v
  | id :: rest =>
      match v with
      | VObj _ fields => evaluatePath rest (get fields id)
      | VStr text =>
          if String.eqb id "length"
          then evaluatePath rest (VNum (Z.of_nat (String.length text)))
          else VUndefined
      | VArr _ elems =>
          if String.eqb id "length"
          then evaluatePath rest (VNum (Z.of_nat (length elems)))
          else VUndefined
      | _ => VUndefined
      end
  end.

(** The value a key path gives on a record; the empty path gives the
    record itself. *)
Definition evaluateKeyPath (path : string) (record : gmap string value)
  : value :=
  if String.eqb path EmptyString then VObj O record
  else evaluatePath (segments path) (VObj O record).

(** Whether a generated key can be put into a value at a key path: every
    property on the way that is there is an object.  The arrays of the
    model have their elements only, so a path that would put a property on
    an array is answered as one that cannot take the key. *)
Fixpoint canInject (ids : list string) (fields : gmap string value) : bool :=
  match ids with
  | [] => false
  | [_] => true
  | id :: rest =>
      match fields !! id with
      | None => true
      | Some (VObj _ inner) => canInject rest inner
      | Some _ => false
      end
  end.

(** Putting the key there; objects missing on the way are made (with the
    reference [O]). *)
Fixpoint injectKey (ids : list string) (key : value)
    (fields : gmap string value) : gmap string value :=
  match ids with
  | [] => fields
  | [last] => <[last := key]> fields
  | id :: rest =>
      match fields !! id with
      | Some (VObj r inner) => <[id := VObj r (injectKey rest key inner)]> fields
      | Some _ => fields
      | None => <[id := VObj O (injectKey rest key ∅)]> fields
      end
  end.

(** [db.createObjectStore(name, { keyPath, autoIncrement })] inside an
    upgrade: it throws for a key path that is not valid, for a name the
    database has, and for generated keys with the empty key path;
    otherwise the new, empty store and the database that now has it. *)
Definition dbCreateObjectStore (name path : string) (autoInc : bool)
    (db : IDBDatabase) : error + IDBObjectStore * IDBDatabase :=
  if negb (validKeyPath path) then inl (BackendError "SyntaxError")
  else if containsStore name db then inl (BackendError "ConstraintError")
  else if autoInc && String.eqb path EmptyString
  then inl (BackendError "InvalidAccessError")
  else
    let st := mkStore path autoInc [] 1 [] in
    inr (st, putStore name st db).

(** [store.indexNames.contains(name)] *)
Definition containsIndex (name : string) (st : IDBObjectStore) : bool :=
  existsb (fun i => String.eqb (indexName i) name) (indexes st).

(** [store.createIndex(name, keyPath, { unique })] inside an upgrade: it
    throws for a name the store has and for a key path that is not
    valid. *)
Definition storeCreateIndex (name path : string) (uniq : bool)
    (st : IDBObjectStore) : error + IDBObjectStore :=
  if containsIndex name st then inl (BackendError "ConstraintError")
  else if negb (validKeyPath path) then inl (BackendError "SyntaxError")
  else
    inr (mkStore (keyPath st) (autoIncrement st)
           (indexes st ++ [mkIndex name path uniq]) (keyGenerator st)
           (records st)).

(** Keys: numbers, dates, strings and arrays of keys.  (Binary keys are
    not among the values of the model.) *)
Fixpoint validKey (k : value) : bool :=
  match k with
  | VNum _ | VStr _ | VDate _ _ => true
  | VArr _ elems => forallb validKey elems
  | _ => false
  end.

Definition keyRank (k : value) : nat :=
  match k with
  | VNum _ => 1
  | VDate _ _ => 2
  | VStr _ => 3
  | VArr _ _ => 5
  | _ => 0
  end.

(** The key order of the backend: numbers before dates before strings
    before arrays; arrays item by item, a prefix first. *)
Fixpoint compareKeys (a b : value) {struct a} : comparison :=
  match a, b with
  | VNum x, VNum y => (x ?= y)%Z
  | VDate _ x, VDate _ y => (x ?= y)%Z
  | VStr x, VStr y => String.compare x y
  | VArr _ xs, VArr _ ys =>
      (fix items (xs ys : list value) {struct xs} : comparison :=
         match xs, ys with
         | [], [] => Eq
         | [], _ :: _ => Lt
         | _ :: _, [] => Gt
         | x :: xs', y :: ys' =>
             match compareKeys x y with
             | Eq => items xs' ys'
             | c => c
             end
         end) xs ys
  | _, _ => Nat.compare (keyRank a) (keyRank b)
  end.

Definition sameKey (a b : value) : bool :=
  match compareKeys a b with Eq => true | _ => false end.

(** What becomes of a request a task issues on a store: the call itself
    throws, or the request is issued and later succeeds (the store changed)
    or fails. *)
Inductive issued (T : Type) : Type :=
| Throws (e : error)
| Succeeds (result : T) (after : IDBObjectStore)
| Fails (e : error).
Arguments Throws {T} e.
Arguments Succeeds {T} result after.
Arguments Fails {T} e.

Definition withRecords (st : IDBObjectStore) (gen : Z)
    (rs : list (gmap string value)) : IDBObjectStore :=
  mkStore (keyPath st) (autoIncrement st) (indexes st) gen rs.

(** [table.getAll()] *)
Definition storeGetAll (mode : IDBTransactionMode) (st : IDBObjectStore)
  : issued (list (gmap string value)) :=
  Succeeds (records st) st.

(** The key of a record of the store: its key path evaluated on the
    record. *)
Definition keyOf (st : IDBObjectStore) (record : gmap string value) : value :=
  evaluateKeyPath (keyPath st) record.

(** [table.delete(key)]: the records stored under [key] go. *)
Definition storeDelete (key : value) (mode : IDBTransactionMode)
    (st : IDBObjectStore) : issued unit :=
  match mode with
  | readonly => Throws (BackendError "ReadOnlyError")
  | readwrite =>
      if negb (validKey key) then Throws (BackendError "DataError")
      else
        Succeeds tt
          (withRecords st (keyGenerator st)
             (List.filter (fun r => negb (sameKey (keyOf st r) key))
                (records st)))
  end.

(** The largest key a key generator gives. *)
Definition maxGeneratedKey : Z := 2 ^ 53.

(** What the store makes of a record it is given to keep: the call is
    refused (the record has no key and none can be generated and put, or
    what stands at the key path is no key), the key generator has run out,
    or the record is taken with its key in place: the key it carries, or a
    generated one when the store generates keys and the record carries
    none. *)
Inductive keying : Type :=
| Refused
| Exhausted
| Keyed (key : value) (record : gmap string value) (generator : Z).

Definition keyed (st : IDBObjectStore) (record : gmap string value) : keying :=
  let key := keyOf st record in
  if isUndefined key then
    if autoIncrement st && canInject (segments (keyPath st)) record then
      if (maxGeneratedKey <? keyGenerator st)%Z then Exhausted
      else
        Keyed (VNum (keyGenerator st))
          (injectKey (segments (keyPath st)) (VNum (keyGenerator st)) record)
          (keyGenerator st + 1)
    else Refused
  else if validKey key then
    Keyed key record
      match key with
      | VNum n =>
          if autoIncrement st && (keyGenerator st <=? n)%Z then n + 1
          else keyGenerator st
      | _ => keyGenerator st
      end
  else Refused.

(** A unique index refuses a second record with the same index key. *)
Definition violatesUnique (st : IDBObjectStore) (key : value)
    (record : gmap string value) : bool :=
  existsb
    (fun i =>
       indexUnique i
       && validKey (evaluateKeyPath (indexKeyPath i) record)
       && existsb
            (fun r =>
               negb (sameKey (keyOf st r) key)
               && sameKey (evaluateKeyPath (indexKeyPath i) r)
                    (evaluateKeyPath (indexKeyPath i) record))
            (records st))
    (indexes st).

(** Putting a record at its place in the key order, over the record that
    has its key if there is one. *)
Fixpoint place (path : string) (key : value) (record : gmap string value)
    (rs : list (gmap string value)) : list (gmap string value) :=
  match rs with
  | [] => [record]
  | r :: rest =>
      match compareKeys key (evaluateKeyPath path r) with
      | Lt => record :: rs
      | Eq => record :: rest
      | Gt => r :: place path key record rest
      end
  end.

(** [table.put(record)] *)
Definition storePut (record : gmap string value) (mode : IDBTransactionMode)
    (st : IDBObjectStore) : issued value :=
  match mode with
  | readonly => Throws (BackendError "ReadOnlyError")
  | readwrite =>
      match keyed st record with
      | Refused => Throws (BackendError "DataError")
      | Exhausted => Fails (BackendError "ConstraintError")
      | Keyed key record' gen =>
          if violatesUnique st key record' then
            Fails (BackendError "ConstraintError")
          else
            Succeeds key
              (withRecords st gen (place (keyPath st) key record' (records st)))
      end
  end.

(** [table.add(record)]: as [storePut], but a key already in the store fails. *)
Definition storeAdd (record : gmap string value) (mode : IDBTransactionMode)
    (st : IDBObjectStore) : issued value :=
  match mode with
  | readonly => Throws (BackendError "ReadOnlyError")
  | readwrite =>
      match keyed st record with
      | Refused => Throws (BackendError "DataError")
      | Exhausted => Fails (BackendError "ConstraintError")
      | Keyed key record' gen =>
          if existsb (fun r => sameKey (keyOf st r) key) (records st)
             || violatesUnique st key record'
          then Fails (BackendError "ConstraintError")
          else
            Succeeds key
              (withRecords st gen (place (keyPath st) key record' (records st)))
      end
  end.

End Backend.

(* ===================================================================== *)
(** * idb.ts *)
(* ===================================================================== *)

Module IDB.
Import JS ColumnDefinitionBuilder Backend.

(** The columns of a store and the stores of a schema, in [Object.entries]
    order. *)
Definition StoreSchema : Type := list (string * ColumnDefinition).
Definition IDBSchema : Type := list (string * StoreSchema).
Definition FluentSchemaDefinition : Type :=
  list (string * list (string * BaseColumnBuilder)).

Record IDB : Type := mkIDB {
  _db : option IDBDatabase;
  dbName : string;
  version : Z;
  schemaDefinition : option IDBSchema;
  readyPromise : promise unit;
  (** [tables]: the stores that have their five closures; a closure set
      captures the store's name and its part of the schema. *)
  tables : gmap string StoreSchema;
  (** texts given to [console.warn] and [console.error] *)
  console : list string
}.

Definition setDb (db : IDBDatabase) (this : IDB) : IDB :=
  mkIDB (Some db) (dbName this) (version this) (schemaDefinition this)
    (readyPromise this) (tables this) (console this).

Definition setReady (p : promise unit) (this : IDB) : IDB :=
  mkIDB (_db this) (dbName this) (version this) (schemaDefinition this)
    p (tables this) (console this).

Definition resolveReady (this : IDB) : IDB :=
  setReady (resolve (readyPromise this) tt) this.

Definition rejectReady (reason : error) (this : IDB) : IDB :=
  setReady (reject (readyPromise this) reason) this.

Definition consoleLog (text : string) (this : IDB) : IDB :=
  mkIDB (_db this) (dbName this) (version this) (schemaDefinition this)
    (readyPromise this) (tables this) (console this ++ [text]).

(** [constructor(dbName, version)] *)
Definition new (name : string) (v : Z) : IDB :=
  {| _db := None; dbName := name; version := v; schemaDefinition := None;
     readyPromise := Pending; tables := ∅; console := [] |}.

(** ** The transaction gateway *)

(** What [task(table)] gives back. *)
Inductive taskResult (T : Type) : Type :=
| ReturnsRequest
| ReturnsPromise (p : promise T)
| TaskThrows (e : error).
Arguments ReturnsRequest {T}.
Arguments ReturnsPromise {T} p.
Arguments TaskThrows {T} e.

(** The notifications of the backend the gateway listens to, each with the
    value its handler reads ([request.result], [request.error],
    [transaction.error], which may be null). *)
Inductive event (T : Type) : Type :=
| RequestSuccess (result : T)
| RequestError (err : error)
| TransactionAbort (err : option error)
| TransactionError (err : option error).
Arguments RequestSuccess {T} result.
Arguments RequestError {T} err.
Arguments TransactionAbort {T} err.
Arguments TransactionError {T} err.

(** The four handlers the gateway installs. *)
Definition handle {T} (p : promise T) (ev : event T) : promise T :=
  match ev with
  | RequestSuccess result => resolve p result
  | RequestError err => reject p err
  | TransactionAbort err => reject p (default AbortError err)
  | TransactionError err => reject p (default NullError err)
  end.

(** The promise [transaction] returns, after the backend has delivered
    [events] in that order.  [connected] is [this._db] being set. *)
Definition transactionPromise {T} (connected : bool) (tr : taskResult T)
    (events : list (event T)) : promise T :=
  if negb connected then reject Pending DatabaseNotOpen
  else
    match tr with
    | TaskThrows e => reject Pending e
    | ReturnsPromise inner =>
        match inner with
        | Fulfilled result => resolve Pending result
        | Rejected reason => reject Pending reason
        | Pending => Pending
        end
    | ReturnsRequest => foldl handle Pending events
    end.

(** The notifications that follow a request: success, or the error that
    rises from the request to its transaction, which then aborts. *)
Definition eventsOf {T} (i : issued T) : list (event T) :=
  match i with
  | Succeeds result _ => [RequestSuccess result]
  | Fails e => [RequestError e; TransactionError None; TransactionAbort (Some e)]
  | Throws _ => []
  end.

(** The notifications of a request that succeeded in a transaction the
    backend aborted afterwards. *)
Definition eventsOfAborted {T} (result : T) (err : error) : list (event T) :=
  [RequestSuccess result; TransactionAbort (Some err)].

(** [transaction(storeName, mode, task)] against the backend above.
    [this._db.transaction] throws NotFoundError for a store the database
    does not have; thrown inside the promise's executor, it rejects the
    promise.  What a readwrite transaction wrote is kept when the
    transaction commits; when the backend aborts it after the request has
    succeeded the store is as it was, and the promise has the
    notifications of both. *)
Definition transaction {T} (storeName : string) (mode : IDBTransactionMode)
    (task : IDBTransactionMode → IDBObjectStore → issued T) (this : IDB)
  : promise T * IDB :=
  match _db this with
  | None => (transactionPromise false ReturnsRequest [], this)
  | Some db =>
      match objectStores db !! storeName with
      | None => (reject Pending (BackendError "NotFoundError"), this)
      | Some table =>
          match task mode table with
          | Throws e => (transactionPromise true (TaskThrows e) [], this)
          | Succeeds result table' =>
              match mode, fates db with
              | readwrite, Abort err :: later =>
                  (transactionPromise true ReturnsRequest
                     (eventsOfAborted result err),
                   setDb (withFates later db) this)
              | readwrite, Commit :: later =>
                  (transactionPromise true ReturnsRequest
                     (eventsOf (Succeeds result table')),
                   setDb (putStore storeName table' (withFates later db)) this)
              | _, _ =>
                  (transactionPromise true ReturnsRequest
                     (eventsOf (Succeeds result table')),
                   setDb (putStore storeName table' db) this)
              end
          | Fails e =>
              (transactionPromise true ReturnsRequest (eventsOf (@Fails T e)),
               this)
          end
      end
  end.

(** ** open and the creation of the stores *)

(** Truthiness of a [string | undefined]. *)
Definition truthyString (s : option string) : bool :=
  match s with
  | Some text => negb (String.eqb text EmptyString)
  | None => false
  end.

(** The first [forEach] of [createObjectStore]: the columns in order, with
    the two variables it assigns; [inl] is a throw. *)
Fixpoint scanPrimaryKey (storeName : string) (columns : StoreSchema)
    (primaryKeyPath : option string) (autoIncrementFlag : bool)
  : error + (option string * bool) :=
  match columns with
  | [] => inr (primaryKeyPath, autoIncrementFlag)
  | (columnName, definition) :: rest =>
      if truthy (_isPrimaryKey definition) then
        if truthyString primaryKeyPath then inl (MultiplePrimaryKeys storeName)
        else if truthy (_isAutoIncrement definition) then
          if bool_decide (_type definition ≠ NUMBER)
          then inl (AutoIncrementKeyNotNumber columnName storeName)
          else scanPrimaryKey storeName rest (Some columnName) true
        else scanPrimaryKey storeName rest (Some columnName) autoIncrementFlag
      else scanPrimaryKey storeName rest primaryKeyPath autoIncrementFlag
  end.

Definition uniqueIndexName (columnName : string) : string :=
  columnName ++ "_unique_idx".

(** The second [forEach]: unique indexes for the columns other than the
    key.  The warnings come back with the store, and the error
    [createIndex] threw, if it threw: the loop stops there. *)
Fixpoint createIndexes (storeName primaryKeyPath : string)
    (columns : StoreSchema) (st : IDBObjectStore) (warnings : list string)
  : IDBObjectStore * list string * option error :=
  match columns with
  | [] => (st, warnings, None)
  | (columnName, definition) :: rest =>
      if truthy (_isUnique definition)
         && negb (String.eqb columnName primaryKeyPath)
      then
        if containsIndex (uniqueIndexName columnName) st then
          createIndexes storeName primaryKeyPath rest st
            (warnings ++
               ["Index '" ++ uniqueIndexName columnName
                ++ "' already exists on store '" ++ storeName
                ++ "'. Skipping creation."])
        else
          match storeCreateIndex (uniqueIndexName columnName) columnName true st
          with
          | inl e => (st, warnings, Some e)
          | inr st' =>
              createIndexes storeName primaryKeyPath rest st' warnings
          end
      else createIndexes storeName primaryKeyPath rest st warnings
  end.

(** [createObjectStore(storeName, columns)] on the database [this._db]
    holds: the database it leaves, the warnings, and the error it throws,
    if any.  When [createIndex] throws the store has been created, with
    the indexes made until then. *)
Definition createObjectStore (storeName : string) (columns : StoreSchema)
    (db : IDBDatabase) : IDBDatabase * list string * option error :=
  if containsStore storeName db then
    (db, ["Object store '" ++ storeName ++ "' already exists. Skipping creation."],
     None)
  else
    match scanPrimaryKey storeName columns None false with
    | inl e => (db, [], Some e)
    | inr (primaryKeyPath, autoIncrementFlag) =>
        if negb (truthyString primaryKeyPath) then
          (db, [], Some (NoPrimaryKey storeName))
        else
          let path := default EmptyString primaryKeyPath in
          match dbCreateObjectStore storeName path autoIncrementFlag db with
          | inl e => (db, [], Some e)
          | inr (st, db') =>
              let '(st', warnings, thrown) :=
                createIndexes storeName path columns st [] in
              (putStore storeName st' db', warnings, thrown)
          end
    end.

(** The [forEach] over the stores inside the [try] of [onupgradeneeded]:
    it stops at the first throw. *)
Fixpoint createObjectStores (schema : IDBSchema) (db : IDBDatabase)
  : IDBDatabase * list string * option error :=
  match schema with
  | [] => (db, [], None)
  | (storeName, columns) :: rest =>
      match createObjectStore storeName columns db with
      | (db', warnings, Some e) => (db', warnings, Some e)
      | (db', warnings, None) =>
          let '(db'', warnings', thrown) := createObjectStores rest db' in
          (db'', (warnings ++ warnings')%list, thrown)
      end
  end.

(** Step 1 of [open]: [build()] on every builder.  The definitions are read
    here, once (the builders are not touched again before the upgrade
    runs). *)
Definition parseColumns (h : Heap) (columns : list (string * BaseColumnBuilder))
  : StoreSchema :=
  omap (fun col => (fun d => (col.1, d)) <$> deref h (build col.2)) columns.

Definition parseSchema (h : Heap) (fluent : FluentSchemaDefinition)
  : IDBSchema :=
  List.map (fun st => (st.1, parseColumns h st.2)) fluent.

(** [open(fluentSchema)] up to the point where it returns [readyPromise];
    the three handlers of the open request follow. *)
Definition openParsed (parsedSchema : IDBSchema) (this : IDB) : IDB :=
  mkIDB (_db this) (dbName this) (version this) (Some parsedSchema)
    (readyPromise this) (tables this) (console this).

Definition open (h : Heap) (fluentSchema : FluentSchemaDefinition)
    (this : IDB) : IDB :=
  openParsed (parseSchema h fluentSchema) this.

(** [request.onupgradeneeded]: the engine afterwards, and the error the
    handler rethrows. *)
Definition onupgradeneeded (db : IDBDatabase) (this : IDB)
  : IDB * option error :=
  let '(db', warnings, thrown) :=
    createObjectStores (default [] (schemaDefinition this)) db in
  let this' :=
    mkIDB (Some db') (dbName this) (version this) (schemaDefinition this)
      (readyPromise this) (tables this) (console this ++ warnings)%list in
  match thrown with
  | Some err => (rejectReady err this', Some err)
  | None => (this', None)
  end.

(** [initializeTableMethods(processedSchema)] *)
Definition initializeTableMethods (processedSchema : IDBSchema) (this : IDB)
  : IDB :=
  mkIDB (_db this) (dbName this) (version this) (schemaDefinition this)
    (readyPromise this)
    (foldl (fun t st => <[st.1 := st.2]> t) (tables this) processedSchema)
    (console this).

(** [request.onsuccess] *)
Definition onsuccess (db : IDBDatabase) (this : IDB) : IDB :=
  resolveReady
    (initializeTableMethods (default [] (schemaDefinition this))
       (setDb db this)).

(** [request.onerror] *)
Definition onerror (err : error) (this : IDB) : IDB :=
  rejectReady err (consoleLog ("Database error: " ++ message err) this).

(** [isReady()]: [readyPromise] is set by the constructor, so the test
    [!this._db && !this.readyPromise] never holds. *)
Definition isReady (this : IDB) : promise unit := readyPromise this.

(** The versions [window.indexedDB.open] takes: from 1 up to 2^53 - 1. *)
Definition validVersion (v : Z) : bool := (1 <=? v)%Z && (v <=? 2 ^ 53 - 1)%Z.

(** What [window.indexedDB.open(name, version)] does with the handlers: a
    database behind the requested version is upgraded first, and an upgrade
    whose handler throws is aborted, nothing of it being kept; a database
    ahead of the requested version is an error.  For a version it does not
    take the call itself throws a TypeError: no handler is installed, none
    ever runs, and the engine stays as [open] had left it. *)
Record Disk : Type := mkDisk {
  diskVersion : Z;
  diskDatabase : IDBDatabase
}.

Definition indexedDBOpen (disk : Disk) (this : IDB) : IDB * Disk :=
  if negb (validVersion (version this)) then (this, disk)
  else if (version this <? diskVersion disk)%Z then
    (onerror (BackendError "VersionError") this, disk)
  else if (diskVersion disk <? version this)%Z then
    match onupgradeneeded (diskDatabase disk) this with
    | (this', Some _) => (onerror (BackendError "AbortError") this', disk)
    | (this', None) =>
        let db := default (diskDatabase disk) (_db this') in
        (onsuccess db this', mkDisk (version this) db)
    end
  else (onsuccess (diskDatabase disk) this, disk).

(** The engine at each moment of an [open]: after the call, after the
    upgrade handler (when it runs), and after the last notification. *)
Definition openStates (disk : Disk) (this : IDB) : list IDB :=
  (this ::
   (if validVersion (version this) && (diskVersion disk <? version this)%Z
    then [(onupgradeneeded (diskDatabase disk) this).1] else [])
   ++ [(indexedDBOpen disk this).1])%list.

(** The promise the call [open(fluentSchema)] returns: [open] is an async
    function, so the TypeError of [window.indexedDB.open] rejects it;
    otherwise it follows [readyPromise]. *)
Definition openReturns (disk : Disk) (this : IDB) : promise unit :=
  if negb (validVersion (version this)) then Rejected VersionTypeError
  else readyPromise (indexedDBOpen disk this).1.

(** ** The CRUD closures *)

Definition promiseMap {A B} (f : A → B) (p : promise A) : promise B :=
  match p with
  | Pending => Pending
  | Fulfilled result => Fulfilled (f result)
  | Rejected reason => Rejected reason
  end.

(** [Promise.all(promises)], the promises listed in the order they settle:
    the first rejection rejects it; it fulfils when all have. *)
Fixpoint promiseAll {T} (promises : list (promise T)) : promise (list T) :=
  match promises with
  | [] => Fulfilled []
  | p :: rest =>
      match p with
      | Rejected reason => Rejected reason
      | Fulfilled result =>
          promiseMap (cons result) (promiseAll rest)
      | Pending =>
          match promiseAll rest with
          | Rejected reason => Rejected reason
          | _ => Pending
          end
      end
  end.

Definition getAllRecords (storeName : string) (this : IDB)
  : promise (list (gmap string value)) * IDB :=
  transaction storeName readonly storeGetAll this.

Definition insert (storeName : string) (args : gmap string value) (this : IDB)
  : promise value * IDB :=
  transaction storeName readwrite (storeAdd args) this.

Fixpoint isValidKey (key : value) : bool :=
  negb (isUndefined key)
  && (String.eqb (typeof key) "string"
      || String.eqb (typeof key) "number"
      || instanceofDate key
      || match key with
         | VArr _ elems => forallb isValidKey elems
         | _ => false
         end).

Definition getPrimaryKeyPath (storeSchema : StoreSchema) : option string :=
  fst <$> List.find (fun col => truthy (_isPrimaryKey col.2)) storeSchema.

(** The [map] of [executeDelete] over the matching records: one gateway
    call per record with a valid key.  The calls are made in order, and the
    backend runs the transactions on a store in the order they were
    made. *)
Fixpoint deleteEach (storeName primaryKeyPath : string)
    (matchingRecords : list (gmap string value)) (this : IDB)
  : list (promise unit) * IDB :=
  match matchingRecords with
  | [] => ([], this)
  | record :: rest =>
      let key := get record primaryKeyPath in
      let '(p, this') :=
        if isValidKey key
        then transaction storeName readwrite (storeDelete key) this
        else (Fulfilled tt, this) in
      let '(promises, this'') := deleteEach storeName primaryKeyPath rest this' in
      (p :: promises, this'')
  end.

Definition executeDelete (storeName : string) (storeSchema : StoreSchema)
    (builder : QueryBuilder.QueryBuilder) (this : IDB) : promise unit * IDB :=
  match getAllRecords storeName this with
  | (Fulfilled allRecords, this1) =>
      let matchingRecords := QueryBuilder.applyQuery builder allRecords in
      let primaryKeyPath := getPrimaryKeyPath storeSchema in
      if negb (truthyString primaryKeyPath) then
        (Rejected (PrimaryKeyNotFound storeName "delete"), this1)
      else
        let '(promises, this2) :=
          deleteEach storeName (default EmptyString primaryKeyPath)
            matchingRecords this1 in
        (promiseMap (fun _ => tt) (promiseAll promises), this2)
  | (Rejected reason, this1) => (Rejected reason, this1)
  | (Pending, this1) => (Pending, this1)
  end.

(** [createDeleteQuery]: the object it returns shares one builder between
    its [where] and its [then]. *)
Definition createDeleteQuery : QueryBuilder.QueryBuilder := QueryBuilder.new.

Definition deleteWhere (storeName : string) (storeSchema : StoreSchema)
    (conds : gmap string value) (builder : QueryBuilder.QueryBuilder)
    (this : IDB) : promise unit * IDB :=
  executeDelete storeName storeSchema (QueryBuilder.where_ conds builder) this.

Definition deleteThen (storeName : string) (storeSchema : StoreSchema)
    (builder : QueryBuilder.QueryBuilder) (this : IDB) : promise unit * IDB :=
  executeDelete storeName storeSchema builder this.

(** [createSelectQuery]: [where], [limit] and [orderBy] act on the builder;
    [then] (without callbacks) runs the query. *)
Definition selectThen (storeName : string)
    (builder : QueryBuilder.QueryBuilder) (this : IDB)
  : promise (list (gmap string value)) * IDB :=
  let '(p, this1) := getAllRecords storeName this in
  (promiseMap (QueryBuilder.applyQuery builder) p, this1).

(** The record [update] writes for one matching record; [now] is the Date
    [new Date()] makes. *)
Definition updatedRecord (primaryKeyPath : string)
    (dataToSet record : gmap string value) (now : value)
  : gmap string value :=
  let safeDataToSet := base.delete primaryKeyPath dataToSet in
  (if negb (has "updatedAt" dataToSet)
   then {[ "updatedAt" := now ]} else ∅)
  ∪ (safeDataToSet ∪ record).

(** The [map] of the update over the matching records; [clock i] is the
    Date made for the record at position [i]. *)
Fixpoint putEach (storeName primaryKeyPath : string)
    (dataToSet : gmap string value) (clock : nat → value) (i : nat)
    (matchingRecords : list (gmap string value)) (this : IDB)
  : list (promise value) * IDB :=
  match matchingRecords with
  | [] => ([], this)
  | record :: rest =>
      let '(p, this') :=
        transaction storeName readwrite
          (storePut (updatedRecord primaryKeyPath dataToSet record (clock i)))
          this in
      let '(promises, this'') :=
        putEach storeName primaryKeyPath dataToSet clock (S i) rest this' in
      (p :: promises, this'')
  end.

(** [createUpdateQuery(...).set(dataToSet).where(conditions)] *)
Definition updateWhere (storeName : string) (storeSchema : StoreSchema)
    (dataToSet conds : gmap string value) (clock : nat → value) (this : IDB)
  : promise unit * IDB :=
  let builder := QueryBuilder.where_ conds QueryBuilder.new in
  match getAllRecords storeName this with
  | (Fulfilled allRecords, this1) =>
      let matchingRecords := QueryBuilder.applyQuery builder allRecords in
      let primaryKeyPath := getPrimaryKeyPath storeSchema in
      if negb (truthyString primaryKeyPath) then
        (Rejected (PrimaryKeyNotFound storeName "update"), this1)
      else
        let '(promises, this2) :=
          putEach storeName (default EmptyString primaryKeyPath) dataToSet
            clock O matchingRecords this1 in
        (promiseMap (fun _ => tt) (promiseAll promises), this2)
  | (Rejected reason, this1) => (Rejected reason, this1)
  | (Pending, this1) => (Pending, this1)
  end.

(** ** Calls through [tables] *)

Inductive selectStep : Type :=
| StepWhere (conds : gmap string value)
| StepLimit (count : Z)
| StepOrderBy (f : string) (d : option QueryBuilder.direction).

Definition applyStep (b : QueryBuilder.QueryBuilder) (s : selectStep)
  : QueryBuilder.QueryBuilder :=
  match s with
  | StepWhere conds => QueryBuilder.where_ conds b
  | StepLimit count => QueryBuilder.limit count b
  | StepOrderBy f d => QueryBuilder.orderBy f d b
  end.

(** A use of one of the five operations of a store, run to its end:
    [tables.s.insert(args)], [tables.s.getAll()], an awaited
    [tables.s.select()...] chain, [tables.s.update().set(d).where(c)], and
    [tables.s.delete()] awaited directly or through [where(c)]. *)
Inductive crud : Type :=
| Insert (args : gmap string value)
| GetAll
| Select (steps : list selectStep)
| Update (dataToSet conds : gmap string value) (clock : nat → value)
| Delete (conds : option (gmap string value)).

Definition methodName (c : crud) : string :=
  match c with
  | Insert _ => "insert"
  | GetAll => "getAll"
  | Select _ => "select"
  | Update _ _ _ => "update"
  | Delete _ => "delete"
  end.

Inductive answer : Type :=
| Key (k : value)
| Rows (rs : list (gmap string value))
| Void.

(** [this.tables[storeName].method(...)]: reading the method off a store
    that [tables] does not have throws the TypeError of the language;
    otherwise the closure runs. *)
Definition call (storeName : string) (c : crud) (this : IDB)
  : (error + promise answer) * IDB :=
  match tables this !! storeName with
  | None => (inl (TypeErrorOfUndefined (methodName c)), this)
  | Some storeSchema =>
      match c with
      | Insert args =>
          let '(p, this') := insert storeName args this in
          (inr (promiseMap Key p), this')
      | GetAll =>
          let '(p, this') := getAllRecords storeName this in
          (inr (promiseMap Rows p), this')
      | Select steps =>
          let '(p, this') :=
            selectThen storeName (foldl applyStep QueryBuilder.new steps) this in
          (inr (promiseMap Rows p), this')
      | Update dataToSet conds clock =>
          let '(p, this') :=
            updateWhere storeName storeSchema dataToSet conds clock this in
          (inr (promiseMap (fun _ => Void) p), this')
      | Delete None =>
          let '(p, this') :=
            deleteThen storeName storeSchema createDeleteQuery this in
          (inr (promiseMap (fun _ => Void) p), this')
      | Delete (Some conds) =>
          let '(p, this') :=
            deleteWhere storeName storeSchema conds createDeleteQuery this in
          (inr (promiseMap (fun _ => Void) p), this')
      end
  end.

End IDB.

(* ===================================================================== *)
(** * The todo application: schema.ts and main.tsx *)
(* ===================================================================== *)

Module Todo.
Import JS ColumnDefinitionBuilder Backend IDB.

(** A builder with the chained calls applied, as in
    [IDB.number().primaryKey().autoIncrement()]. *)
Definition chained (type : BaseColumnType) (ops : list operation) (h : Heap)
  : BaseColumnBuilder * Heap :=
  let '(b, h') := newBuilder type h in
  (b, foldl (fun heap op => perform op b heap) h' ops).

(** [appSchema] *)
Definition appSchema : FluentSchemaDefinition * Heap :=
  let '(id, h) := chained NUMBER [OpPrimaryKey; OpAutoIncrement] emptyHeap in
  let '(title, h) := chained STRING [OpNullable false] h in
  let '(content, h) := chained STRING [OpNullable true] h in
  let '(completed, h) := chained BOOLEAN [OpNullable false; OpUnique false] h in
  let '(createdAt, h) := chained DATE [OpNullable false] h in
  let '(updatedAt, h) := chained DATE [OpNullable true] h in
  ([("todos",
     [("id", id); ("title", title); ("content", content);
      ("completed", completed); ("createdAt", createdAt);
      ("updatedAt", updatedAt)])],
   h).

(** [<IDBProvider name="todo" version={1} schema={appSchema}>]: the engine
    once [open] has been called. *)
Definition opening : IDB := open appSchema.2 appSchema.1 (new "todo" 1).

(** The first visit: no database yet. *)
Definition freshDisk : Disk := mkDisk 0 (mkDatabase ∅ []).

Definition ready : IDB := (indexedDBOpen freshDisk opening).1.

Definition todo (title : string) (completed : bool) (createdAt : Z)
  : gmap string value :=
  {[ "title" := VStr title; "content" := VStr EmptyString;
     "completed" := VBool completed; "createdAt" := VDate 0 createdAt;
     "updatedAt" := VNull ]}.

(** Three inserts on the ready engine. *)
Definition stocked : IDB :=
  let this := (call "todos" (Insert (todo "a" false 10)) ready).2 in
  let this := (call "todos" (Insert (todo "b" true 20)) this).2 in
  (call "todos" (Insert (todo "c" false 30)) this).2.

Definition rowsOf (outcome : (error + promise answer) * IDB)
  : list (gmap string value) :=
  match outcome.1 with
  | inr (Fulfilled (Rows rs)) => rs
  | _ => []
  end.

End Todo.

(* ===================================================================== *)
(** * The vocabulary of the properties *)
(* ===================================================================== *)

Module Spec.
Import JS ColumnDefinitionBuilder Backend IDB.

(** ** Gateway *)

Definition isRejected {T} (p : promise T) : bool :=
  match p with Rejected _ => true | _ => false end.

(** A notification of the transaction (its abort or its error), as against
    a notification of the request. *)
Definition transactionFailure {T} (ev : event T) : bool :=
  match ev with
  | TransactionAbort _ | TransactionError _ => true
  | _ => false
  end.

Definition requestSuccess {T} (ev : event T) : bool :=
  match ev with RequestSuccess _ => true | _ => false end.

(** ** Builders *)

(** What each operation does to the definition it is applied to, written
    on definitions rather than on the heap. *)
Definition effect (op : operation) (d : ColumnDefinition) : ColumnDefinition :=
  match op with
  | OpPrimaryKey =>
      mkColumnDefinition (_type d) (Some true) (_isAutoIncrement d)
        (_isNullable d) (_isUnique d)
  | OpAutoIncrement =>
      if truthy (_isPrimaryKey d) && bool_decide (_type d = NUMBER)
      then mkColumnDefinition (_type d) (_isPrimaryKey d) (Some true)
             (_isNullable d) (_isUnique d)
      else d
  | OpNullable flag =>
      mkColumnDefinition (_type d) (_isPrimaryKey d) (_isAutoIncrement d)
        (if flag then Some true else None) (_isUnique d)
  | OpUnique flag =>
      if truthy (_isPrimaryKey d) && flag then d
      else mkColumnDefinition (_type d) (_isPrimaryKey d) (_isAutoIncrement d)
             (_isNullable d) (Some flag)
  end.

(** ** Conditions, in the words of the specification *)

(** The ten operator keys, in the precedence the specification lists. *)
Inductive operatorKey : Type :=
| equals | notEquals
| greaterThan | greaterThanOrEqual | lessThan | lessThanOrEqual
| inArray | isBetween | contains | looseContains.

Definition keyName (k : operatorKey) : string :=
  match k with
  | equals => "equals"
  | notEquals => "notEquals"
  | greaterThan => "greaterThan"
  | greaterThanOrEqual => "greaterThanOrEqual"
  | lessThan => "lessThan"
  | lessThanOrEqual => "lessThanOrEqual"
  | inArray => "inArray"
  | isBetween => "isBetween"
  | contains => "contains"
  | looseContains => "looseContains"
  end.

Definition precedence : list operatorKey :=
  [equals; notEquals; greaterThan; greaterThanOrEqual; lessThan;
   lessThanOrEqual; inArray; isBetween; contains; looseContains].

(** The first key of the precedence that the operator object has. *)
Definition firstPresent (condition : gmap string value) : option operatorKey :=
  List.find (fun k => has (keyName k) condition) precedence.

(** When a key that is present takes the decision: always for the six
    comparisons; for the other four only on operands (and, for the two
    substring tests, a field value) of the right shape. *)
Definition applies (k : operatorKey) (itemValue operand : value) : bool :=
  match k with
  | inArray => isArray operand
  | isBetween => match operand with VArr _ [_; _] => true | _ => false end
  | contains | looseContains =>
      match itemValue, operand with VStr _, VStr _ => true | _, _ => false end
  | _ => true
  end.

(** The first key of the precedence that is present and applies. *)
Definition firstApplicable (itemValue : value) (condition : gmap string value)
  : option operatorKey :=
  List.find
    (fun k => has (keyName k) condition
              && applies k itemValue (get condition (keyName k)))
    precedence.

(** What a key decides. *)
Definition verdict (k : operatorKey) (itemValue operand : value) : bool :=
  match k with
  | equals => strictEquals itemValue operand
  | notEquals => negb (strictEquals itemValue operand)
  | greaterThan =>
      negb (isNull itemValue) && negb (isNull operand) && gt itemValue operand
  | greaterThanOrEqual =>
      negb (isNull itemValue) && negb (isNull operand) && ge itemValue operand
  | lessThan =>
      negb (isNull itemValue) && negb (isNull operand) && lt itemValue operand
  | lessThanOrEqual =>
      negb (isNull itemValue) && negb (isNull operand) && le itemValue operand
  | inArray =>
      match operand with
      | VArr _ elems => arrayIncludes elems itemValue
      | _ => false
      end
  | isBetween =>
      match operand with
      | VArr _ [min; max] =>
          negb (isNull itemValue) && negb (isNull min) && negb (isNull max)
          && ge itemValue min && le itemValue max
      | _ => false
      end
  | contains =>
      match itemValue, operand with
      | VStr s, VStr sub => stringIncludes s sub
      | _, _ => false
      end
  | looseContains =>
      match itemValue, operand with
      | VStr s, VStr sub => stringIncludes (toLowerCase s) (toLowerCase sub)
      | _, _ => false
      end
  end.

(** An operator object read as the specification reads it: the first key
    that is present and applies decides; with no such key the record is
    excluded. *)
Definition decided (itemValue : value) (condition : gmap string value) : bool :=
  match firstApplicable itemValue condition with
  | Some k => verdict k itemValue (get condition (keyName k))
  | None => false
  end.

(** Null or missing. *)
Definition nullish (v : value) : bool := isNull v || isUndefined v.

(** The five relational operators. *)
Definition relational (k : operatorKey) : bool :=
  match k with
  | greaterThan | greaterThanOrEqual | lessThan | lessThanOrEqual
  | isBetween => true
  | _ => false
  end.

(** The operand of a relational condition is null or missing: the operand
    itself, or for [isBetween] one of its two bounds. *)
Definition nullishOperand (k : operatorKey) (operand : value) : bool :=
  nullish operand
  || match k, operand with
     | isBetween, VArr _ [min; max] => nullish min || nullish max
     | _, _ => false
     end.

(** The operator object [{ key: operand }]. *)
Definition condition (ref : nat) (k : operatorKey) (operand : value) : value :=
  VObj ref {[ keyName k := operand ]}.

(** ** Ordering and limiting *)

(** Two neighbours of the sorted array are in the order of the callback. *)
Definition inOrder {A} (compare : A → A → Z) (x y : A) : Prop :=
  compare x y <= 0.

(** The query without its limit: what it gives is the whole filtered and
    sorted list. *)
Definition withoutLimit (q : QueryBuilder.QueryBuilder)
  : QueryBuilder.QueryBuilder :=
  QueryBuilder.mkQuery (QueryBuilder.conditions q) None
    (QueryBuilder.orderByConditions q).

(** What a record is sorted by under a field that holds a number, a Date
    or null: nothing for null, the number, the time value of the Date. *)
Definition sortKey (f : string) (r : gmap string value) : option (option Z) :=
  match get r f with
  | VNull => Some None
  | VNum n => Some (Some n)
  | VDate _ t => Some (Some t)
  | _ => None
  end.

(** Null before every number, numbers by their size. *)
Definition compareSortKeys (x y : option Z) : comparison :=
  match x, y with
  | None, None => Eq
  | None, Some _ => Lt
  | Some _, None => Gt
  | Some a, Some b => (a ?= b)%Z
  end.

(** The order of two records under one ordering key, and under a list of
    keys taken as successive tie-breaks. *)
Definition keyOrder (o : QueryBuilder.OrderByCondition)
    (a b : gmap string value) : comparison :=
  let c :=
    compareSortKeys (default None (sortKey (QueryBuilder.field o) a))
      (default None (sortKey (QueryBuilder.field o) b)) in
  match QueryBuilder.dir o with
  | QueryBuilder.asc => c
  | QueryBuilder.desc => CompOpp c
  end.

Fixpoint keysOrder (keys : list QueryBuilder.OrderByCondition)
    (a b : gmap string value) : comparison :=
  match keys with
  | [] => Eq
  | o :: rest =>
      match keyOrder o a b with
      | Eq => keysOrder rest a b
      | c => c
      end
  end.

Definition signOf (c : comparison) : Z :=
  match c with Lt => -1 | Eq => 0 | Gt => 1 end.

(** Every ordering key names a field that holds a number, a Date or null
    in every record. *)
Definition orderable (keys : list QueryBuilder.OrderByCondition)
    (data : list (gmap string value)) : Prop :=
  Forall (fun r =>
            Forall (fun o => is_Some (sortKey (QueryBuilder.field o) r)) keys)
    data.

(** How the comparisons of a total preorder compose. *)
Definition composes (c1 c2 c3 : comparison) : Prop :=
  match c1, c2 with
  | Eq, _ => c3 = c2
  | _, Eq => c3 = c1
  | Lt, Lt => c3 = Lt
  | Gt, Gt => c3 = Gt
  | _, _ => True
  end.

(** The filtered and sorted list, in the words of the specification: the
    records that match, ordered by the ordering keys when there are any. *)
Definition filteredAndSorted (q : QueryBuilder.QueryBuilder)
    (data : list (gmap string value)) : list (gmap string value) :=
  let kept := List.filter (QueryBuilder.matches q) data in
  match QueryBuilder.orderByConditions q with
  | [] => kept
  | keys => QueryBuilder.arraySort (QueryBuilder.compareRecords keys) kept
  end.



(** ** Opening *)

(** The errors the specification files under InvalidSchema. *)
Definition isInvalidSchema (e : error) : bool :=
  match e with
  | AutoIncrementBeforePrimaryKey | AutoIncrementNonNumber
  | MultiplePrimaryKeys _ | AutoIncrementKeyNotNumber _ _ | NoPrimaryKey _ =>
      true
  | _ => false
  end.

Definition isPrimaryKeyColumn (col : string * ColumnDefinition) : bool :=
  truthy (_isPrimaryKey col.2).

Definition primaryKeyCount (columns : StoreSchema) : nat :=
  length (List.filter isPrimaryKeyColumn columns).

(** The key columns that count: the creation of a store tests the key
    column it has found so far by truthiness, so key columns named by the
    empty string that stand ahead of every other key column are as good as
    not there. *)
Fixpoint dropEmptyNamed (keys : StoreSchema) : StoreSchema :=
  match keys with
  | (EmptyString, _) :: rest => dropEmptyNamed rest
  | _ => keys
  end.

Definition countedKeys (columns : StoreSchema) : StoreSchema :=
  dropEmptyNamed (List.filter isPrimaryKeyColumn columns).

(** No key column that counts, or two and more. *)
Definition offending (columns : StoreSchema) : Prop :=
  length (countedKeys columns) ≠ 1%nat.

(** The error of the backend for a column name that is no valid key
    path. *)
Definition isKeyPathRefusal (e : error) : bool :=
  match e with
  | BackendError name => String.eqb name "SyntaxError"
  | _ => false
  end.



(** ** Stores *)

(** The engine is connected and the database has the store [st] under the
    name [s]. *)
Definition holds (this : IDB) (s : string) (st : IDBObjectStore) : Prop :=
  ∃ db, _db this = Some db ∧ objectStores db !! s = Some st.

(** Every readwrite transaction to come commits. *)
Definition isCommit (f : fate) : bool :=
  match f with Commit => true | Abort _ => false end.

Definition durable (db : IDBDatabase) : bool := forallb isCommit (fates db).

(** [holds], on a database whose transactions to come commit. *)
Definition keeps (this : IDB) (s : string) (st : IDBObjectStore) : Prop :=
  ∃ db, _db this = Some db ∧ objectStores db !! s = Some st
        ∧ durable db = true.

(** A name with no period in it, and not the empty one: as a key path it
    names the property of that name. *)
Fixpoint hasPeriod (s : string) : bool :=
  match s with
  | EmptyString => false
  | String c rest => Ascii.eqb c "."%char || hasPeriod rest
  end.

Definition plainName (s : string) : bool :=
  negb (String.eqb s EmptyString) && negb (hasPeriod s).

(** The records left by deleting the keys of [gone], one after the
    other. *)
Definition survivors (path : string) (gone rs : list (gmap string value))
  : list (gmap string value) :=
  List.filter
    (fun r => forallb (fun m => negb (sameKey (get r path) (get m path))) gone)
    rs.

(** The records of a store after an update: each record that matches is
    replaced by its merge, the others stay; [i] counts the Dates made so
    far. *)
Fixpoint merged (q : QueryBuilder.QueryBuilder) (primaryKeyPath : string)
    (dataToSet : gmap string value) (clock : nat → value) (i : nat)
    (rs : list (gmap string value)) : list (gmap string value) :=
  match rs with
  | [] => []
  | r :: rest =>
      if QueryBuilder.matches q r
      then updatedRecord primaryKeyPath dataToSet r (clock i)
           :: merged q primaryKeyPath dataToSet clock (S i) rest
      else r :: merged q primaryKeyPath dataToSet clock i rest
  end.

(** The key order of a store: every record's key is above the keys of the
    records in front of it. *)
Definition keyOrdered (path : string) (rs : list (gmap string value)) : Prop :=
  StronglySorted (fun a b => compareKeys (get b path) (get a path) = Gt) rs.

End Spec.

(* ===================================================================== *)
(** * The vocabulary of the further properties *)
(* ===================================================================== *)

Module Laws.
Import JS ColumnDefinitionBuilder Backend IDB.

(** ** Builders *)

(** The auto-increment flag stands on number keys only. *)
Definition wellFormed (d : ColumnDefinition) : Prop :=
  truthy (_isAutoIncrement d) = true →
  truthy (_isPrimaryKey d) = true ∧ _type d = NUMBER.

Definition heapWellFormed (h : Heap) : Prop :=
  ∀ r d, deref h r = Some d → wellFormed d.

(** The definition a chain of calls leaves, computed on the definition. *)
Definition effects (ops : list operation) (d : ColumnDefinition)
  : ColumnDefinition :=
  foldl (fun def op => Spec.effect op def) d ops.

(** ** Queries *)

(** What a chain of [where], [limit] and [orderBy] calls comes to: the
    conditions laid over one another, the last limit, the ordering keys in
    the order given. *)
Definition chainConditions (steps : list selectStep) (start : gmap string value)
  : gmap string value :=
  foldl (fun acc s => match s with StepWhere conds => conds ∪ acc | _ => acc end)
    start steps.

Definition chainLimit (steps : list selectStep) (start : option Z) : option Z :=
  foldl (fun acc s => match s with StepLimit n => Some n | _ => acc end)
    start steps.

Definition chainOrder (steps : list selectStep)
  : list QueryBuilder.OrderByCondition :=
  omap (fun s => match s with
                 | StepOrderBy f d =>
                     Some (QueryBuilder.mkOrderBy f (default QueryBuilder.asc d))
                 | _ => None
                 end) steps.

(** The query without its ordering keys. *)
Definition withoutOrder (q : QueryBuilder.QueryBuilder)
  : QueryBuilder.QueryBuilder :=
  QueryBuilder.mkQuery (QueryBuilder.conditions q) (QueryBuilder.limitValue q) [].

(** The number a field holds: a number, or the time value of a Date. *)
Definition fieldNumber (f : string) (r : gmap string value) : option Z :=
  match get r f with
  | VNum n => Some n
  | VDate _ t => Some t
  | _ => None
  end.

Definition numberOf (f : string) (r : gmap string value) : Z :=
  default 0 (fieldNumber f r).

(** ** Stores *)

(** What an awaited select gives: the query applied to the records of the
    store, or the rejection of the gateway. *)
Definition selected (q : QueryBuilder.QueryBuilder) (storeName : string)
    (this : IDB) : promise (list (gmap string value)) :=
  match _db this with
  | None => Rejected DatabaseNotOpen
  | Some db =>
      match objectStores db !! storeName with
      | None => Rejected (BackendError "NotFoundError")
      | Some st => Fulfilled (QueryBuilder.applyQuery q (records st))
      end
  end.

(** No two records of the list have the same key. *)
Fixpoint distinctKeys (path : string) (rs : list (gmap string value)) : bool :=
  match rs with
  | [] => true
  | r :: rest =>
      forallb (fun m => negb (sameKey (get r path) (get m path))
                        && negb (sameKey (get m path) (get r path))) rest
      && distinctKeys path rest
  end.

(** The store of the database under a name. *)
Definition storeOf (this : IDB) (name : string) : option IDBObjectStore :=
  db ← _db this; objectStores db !! name.

(** The unique indexes the creation of a store asks for. *)
Definition uniqueIndexes (primaryKeyPath : string) (columns : StoreSchema)
  : list IDBIndex :=
  List.map (fun col => mkIndex (uniqueIndexName col.1) col.1 true)
    (List.filter
       (fun col => truthy (_isUnique col.2)
                   && negb (String.eqb col.1 primaryKeyPath))
       columns).

(** The notifications of the open request, in whatever order and number
    the environment delivers them. *)
Inductive notification : Type :=
| UpgradeNeeded (db : IDBDatabase)
| Success (db : IDBDatabase)
| Failure (err : error).

Definition deliver (this : IDB) (n : notification) : IDB :=
  match n with
  | UpgradeNeeded db => (onupgradeneeded db this).1
  | Success db => onsuccess db this
  | Failure err => onerror err this
  end.

(** The key generation the creation of a store asks for: that of its key
    column. *)
Definition generatesKeys (columns : StoreSchema) : bool :=
  existsb
    (fun col => truthy (_isPrimaryKey col.2) && truthy (_isAutoIncrement col.2))
    columns.

(** The store [createObjectStore] makes for a schema keyed by [path]. *)
Definition createdStore (path : string) (columns : StoreSchema)
  : IDBObjectStore :=
  mkStore path (generatesKeys columns) (uniqueIndexes path columns) 1 [].

(** ** What a call leaves alone *)

(** Two states of a store that differ in its records and its key
    generator at most. *)
Definition sameShape (a b : IDBObjectStore) : Prop :=
  keyPath a = keyPath b ∧ autoIncrement a = autoIncrement b
  ∧ indexes a = indexes b.

(** From [this] to [this'] nothing but the contents of the store [s] has
    changed. *)
Definition touchesOnly (s : string) (this this' : IDB) : Prop :=
  tables this' = tables this
  ∧ readyPromise this' = readyPromise this
  ∧ schemaDefinition this' = schemaDefinition this
  ∧ console this' = console this
  ∧ dbName this' = dbName this
  ∧ version this' = version this
  ∧ (_db this = None → _db this' = None)
  ∧ (∀ s', s' ≠ s → storeOf this' s' = storeOf this s')
  ∧ match storeOf this s, storeOf this' s with
    | Some a, Some b => sameShape a b
    | None, None => True
    | _, _ => False
    end.

(** A request that succeeds changes the records and the key generator of
    its store at most. *)
Definition keepsShape {T}
    (task : IDBTransactionMode → IDBObjectStore → issued T) : Prop :=
  ∀ mode st result st', task mode st = Succeeds result st' → sameShape st st'.

End Laws.

(* ===================================================================== *)
(** * Properties of the transaction gateway *)
(* ===================================================================== *)

Section Gateway.
Import JS IDB Spec.
Context {T : Type}.

Lemma handle_settled (p : promise T) (ev : event T) :
  settled p = true → handle p ev = p.
Proof. destruct p, ev; simpl; intros H; try discriminate; reflexivity. Qed.

Lemma foldl_handle_settled (events : list (event T)) (p : promise T) :
  settled p = true → foldl handle p events = p.
Proof.
  revert p. induction events as [|ev events IH]; intros p H; simpl.
  - reflexivity.
  - rewrite handle_settled by exact H. apply IH, H.
Qed.

Lemma handle_pending_settles (ev : event T) :
  settled (handle Pending ev) = true.
Proof. destruct ev; reflexivity. Qed.

(** The promise is the one the first notification makes. *)
Lemma first_notification_settles (ev : event T) (rest : list (event T)) :
  transactionPromise true ReturnsRequest (ev :: rest) = handle Pending ev.
Proof.
  unfold transactionPromise. simpl.
  apply foldl_handle_settled, handle_pending_settles.
Qed.

Lemma failures_only_reject (events : list (event T)) :
  forallb (fun ev => negb (requestSuccess ev)) events = true →
  events ≠ [] →
  isRejected (foldl handle Pending events) = true.
Proof.
  destruct events as [|ev rest]; [congruence|]. intros Hall _.
  simpl in Hall. apply andb_prop in Hall as [Hev _]. simpl.
  rewrite foldl_handle_settled by apply handle_pending_settles.
  destruct ev; simpl in *; try reflexivity; discriminate.
Qed.

End Gateway.

(** C1, the claim as written, at one trace: the request succeeds with 7 and
    the transaction aborts afterwards.  The awaitable is fulfilled with 7;
    it is not rejected. *)
Lemma abort_after_success_does_not_reject :
  IDB.transactionPromise true IDB.ReturnsRequest
    [IDB.RequestSuccess 7; IDB.TransactionAbort None]
  = JS.Fulfilled 7
  ∧ Spec.isRejected
      (IDB.transactionPromise true IDB.ReturnsRequest
         [IDB.RequestSuccess 7; IDB.TransactionAbort None]) = false.
Proof. split; reflexivity. Qed.

(** C1 (amended).  The awaitable of a gateway call is settled by the first
    notification the backend delivers.  If the transaction aborts or errors
    before the request has signalled success, the awaitable rejects, and
    later notifications do not change that; if the request has signalled
    success first, the awaitable stays fulfilled with the request's result
    whatever follows, an abort of the transaction included. *)
Theorem gateway_first_notification_wins {T : Type} :
  (∀ (before after : list (IDB.event T)) (ev : IDB.event T),
     forallb (fun e => negb (Spec.requestSuccess e)) before = true →
     Spec.transactionFailure ev = true →
     Spec.isRejected
       (IDB.transactionPromise true IDB.ReturnsRequest (before ++ ev :: after))
     = true)
  ∧ (∀ (result : T) (after : list (IDB.event T)),
       IDB.transactionPromise true IDB.ReturnsRequest
         (IDB.RequestSuccess result :: after)
       = JS.Fulfilled result)
  ∧ (∀ (ev : IDB.event T) (after : list (IDB.event T)),
       IDB.transactionPromise true IDB.ReturnsRequest (ev :: after)
       = IDB.handle JS.Pending ev).
Proof.
  split; [|split].
  - intros before after ev Hbefore Hev.
    unfold IDB.transactionPromise. simpl. rewrite foldl_app. simpl.
    destruct before as [|b before'].
    + simpl. rewrite foldl_handle_settled by apply handle_pending_settles.
      destruct ev; simpl in *; try discriminate; reflexivity.
    + assert (Hrej :
        Spec.isRejected (foldl IDB.handle JS.Pending (b :: before')) = true)
        by (apply failures_only_reject; [exact Hbefore | discriminate]).
      destruct (foldl IDB.handle JS.Pending (b :: before'))
        as [| |reason] eqn:E; try discriminate.
      rewrite handle_settled by reflexivity.
      rewrite foldl_handle_settled by reflexivity. reflexivity.
  - intros result after. rewrite first_notification_settles. reflexivity.
  - intros ev after. apply first_notification_settles.
Qed.

Lemma gateway_first_notification_wins_witness :
  Spec.isRejected
    (IDB.transactionPromise true IDB.ReturnsRequest
       ([IDB.RequestError (JS.BackendError "ConstraintError")]
        ++ IDB.TransactionAbort (T := Z) None :: [IDB.RequestSuccess 3]))
  = true.
Proof.
  apply (proj1 (gateway_first_notification_wins (T := Z))
           [IDB.RequestError (JS.BackendError "ConstraintError")]
           [IDB.RequestSuccess 3] (IDB.TransactionAbort None)).
  - reflexivity.
  - reflexivity.
Defined.

(* ===================================================================== *)
(** * Properties of the column builders *)
(* ===================================================================== *)

Section Builders.
Import JS ColumnDefinitionBuilder Spec.

Lemma deref_store_eq r d h : deref (store r d h) r = Some d.
Proof. unfold deref, store. simpl. apply lookup_insert_eq. Qed.

Lemma deref_store_ne r r' d h : r ≠ r' → deref (store r d h) r' = deref h r'.
Proof. intros Hne. unfold deref, store. simpl. by apply lookup_insert_ne. Qed.

Lemma deref_warn text h r : deref (warn text h) r = deref h r.
Proof. reflexivity. Qed.

Lemma perform_deref op this h d :
  deref h (definition this) = Some d →
  deref (perform op this h) (definition this) = Some (effect op d).
Proof.
  intros Hd. destruct op as [| |flag|flag]; simpl.
  - unfold primaryKey. rewrite Hd. simpl.
    destruct (bool_decide _ && bool_decide _);
      rewrite ?deref_warn, deref_store_eq; reflexivity.
  - unfold autoIncrement. rewrite Hd.
    destruct (truthy (_isPrimaryKey d)); simpl.
    + destruct (decide (_type d = NUMBER)) as [Heq|Hne].
      * rewrite (bool_decide_eq_false_2 (_type d ≠ NUMBER)) by tauto.
        rewrite (bool_decide_eq_true_2 _ Heq), deref_store_eq. reflexivity.
      * rewrite (bool_decide_eq_true_2 _ Hne).
        rewrite (bool_decide_eq_false_2 _ Hne). exact Hd.
    + exact Hd.
  - unfold nullable. rewrite Hd. apply deref_store_eq.
  - unfold unique. rewrite Hd.
    destruct (truthy (_isPrimaryKey d)), flag; simpl;
      rewrite ?deref_warn, ?deref_store_eq; try exact Hd; reflexivity.
Qed.

Lemma perform_frame op this h r :
  r ≠ definition this → deref (perform op this h) r = deref h r.
Proof.
  intros Hne.
  assert (Hs : ∀ d h', deref (store (definition this) d h') r = deref h' r)
    by (intros; apply deref_store_ne; congruence).
  destruct op as [| |flag|flag]; simpl.
  - unfold primaryKey. destruct (deref h (definition this)); [|reflexivity].
    simpl. destruct (bool_decide _ && bool_decide _);
      rewrite ?deref_warn, Hs; reflexivity.
  - unfold autoIncrement. destruct (deref h (definition this)); [|reflexivity].
    destruct (negb _); [reflexivity|].
    destruct (bool_decide _); [reflexivity|]. apply Hs.
  - unfold nullable. destruct (deref h (definition this)); [|reflexivity].
    apply Hs.
  - unfold unique. destruct (deref h (definition this)) as [d|]; [|reflexivity].
    destruct (truthy (_isPrimaryKey d)), flag; simpl;
      rewrite ?deref_warn, ?Hs; reflexivity.
Qed.

End Builders.

(** C3, the claim as written, at one builder: a fresh string builder whose
    definition is taken with [build()] and which is then told
    [nullable()].  The definition taken earlier now carries the flag. *)
Lemma build_result_changes_after_nullable :
  let '(b, h) := ColumnDefinitionBuilder.newStringBuilder
                   ColumnDefinitionBuilder.emptyHeap in
  let d := ColumnDefinitionBuilder.build b in
  let h' := ColumnDefinitionBuilder.nullable true b h in
  ColumnDefinitionBuilder.deref h d
  = Some (ColumnDefinitionBuilder.mkColumnDefinition
            ColumnDefinitionBuilder.STRING None None None None)
  ∧ ColumnDefinitionBuilder.deref h' d
    = Some (ColumnDefinitionBuilder.mkColumnDefinition
              ColumnDefinitionBuilder.STRING None None (Some true) None)
  ∧ ColumnDefinitionBuilder.deref h' d ≠ ColumnDefinitionBuilder.deref h d.
Proof. vm_compute. repeat split; congruence. Qed.

(** C3 (amended).  [build()] returns the builder's own definition object,
    the one reference the builder holds, not a copy.  Calling it again
    returns that same object (so repeated calls yield equal definitions),
    and a builder operation invoked after [build()] acts on that very
    object: the definition returned earlier then reads as the operation
    left it, while the definitions of other builders are untouched. *)
Theorem build_returns_the_live_definition
    (this : ColumnDefinitionBuilder.BaseColumnBuilder)
    (h : ColumnDefinitionBuilder.Heap)
    (d : ColumnDefinitionBuilder.ColumnDefinition)
    (op : ColumnDefinitionBuilder.operation) :
  ColumnDefinitionBuilder.deref h (ColumnDefinitionBuilder.build this) = Some d →
  ColumnDefinitionBuilder.build this = ColumnDefinitionBuilder.definition this
  ∧ ColumnDefinitionBuilder.deref
      (ColumnDefinitionBuilder.perform op this h)
      (ColumnDefinitionBuilder.build this)
    = Some (Spec.effect op d)
  ∧ (∀ other, other ≠ ColumnDefinitionBuilder.build this →
       ColumnDefinitionBuilder.deref
         (ColumnDefinitionBuilder.perform op this h) other
       = ColumnDefinitionBuilder.deref h other).
Proof.
  intros Hd. unfold ColumnDefinitionBuilder.build in *.
  split; [reflexivity|]. split.
  - apply perform_deref, Hd.
  - intros other Hne. apply perform_frame, Hne.
Qed.

Lemma build_returns_the_live_definition_witness :
  let '(b, h) := ColumnDefinitionBuilder.newNumberBuilder
                   ColumnDefinitionBuilder.emptyHeap in
  ColumnDefinitionBuilder.deref
    (ColumnDefinitionBuilder.perform ColumnDefinitionBuilder.OpPrimaryKey b h)
    (ColumnDefinitionBuilder.build b)
  = Some (ColumnDefinitionBuilder.mkColumnDefinition
            ColumnDefinitionBuilder.NUMBER (Some true) None None None).
Proof.
  simpl.
  apply (proj1 (proj2 (build_returns_the_live_definition
           (ColumnDefinitionBuilder.mkBuilder 0)
           (ColumnDefinitionBuilder.newNumberBuilder
              ColumnDefinitionBuilder.emptyHeap).2
           (ColumnDefinitionBuilder.mkColumnDefinition
              ColumnDefinitionBuilder.NUMBER None None None None)
           ColumnDefinitionBuilder.OpPrimaryKey eq_refl))).
Defined.

Section Conditions.
Import JS QueryBuilder Spec.

(** Each of the four guarded tests of [matchOperators], as "present and
    applicable gives the verdict". *)
Lemma inArray_piece (itemValue : value) (c : gmap string value) :
  (if has "inArray" c then
     match get c "inArray" with
     | VArr _ elems => Some (arrayIncludes elems itemValue)
     | _ => None
     end
   else None)
  = if has "inArray" c && applies inArray itemValue (get c "inArray")
    then Some (verdict inArray itemValue (get c "inArray")) else None.
Proof. destruct (has "inArray" c), (get c "inArray"); reflexivity. Qed.

Lemma isBetween_piece (itemValue : value) (c : gmap string value) :
  (if has "isBetween" c then
     match get c "isBetween" with
     | VArr _ [min; max] =>
         Some (negb (isNull itemValue) && negb (isNull min)
               && negb (isNull max) && ge itemValue min && le itemValue max)
     | _ => None
     end
   else None)
  = if has "isBetween" c && applies isBetween itemValue (get c "isBetween")
    then Some (verdict isBetween itemValue (get c "isBetween")) else None.
Proof.
  destruct (has "isBetween" c),
    (get c "isBetween") as [| | | | | |r [|x [|y [|z l]]]|]; reflexivity.
Qed.

Lemma contains_piece (itemValue : value) (c : gmap string value) :
  (if has "contains" c then
     match itemValue, get c "contains" with
     | VStr s, VStr sub => Some (stringIncludes s sub)
     | _, _ => None
     end
   else None)
  = if has "contains" c && applies contains itemValue (get c "contains")
    then Some (verdict contains itemValue (get c "contains")) else None.
Proof.
  destruct (has "contains" c), itemValue, (get c "contains"); reflexivity.
Qed.

Lemma looseContains_piece (itemValue : value) (c : gmap string value) :
  (if has "looseContains" c then
     match itemValue, get c "looseContains" with
     | VStr s, VStr sub =>
         Some (stringIncludes (toLowerCase s) (toLowerCase sub))
     | _, _ => None
     end
   else None)
  = if has "looseContains" c
       && applies looseContains itemValue (get c "looseContains")
    then Some (verdict looseContains itemValue (get c "looseContains"))
    else None.
Proof.
  destruct (has "looseContains" c), itemValue, (get c "looseContains");
    reflexivity.
Qed.

(** [matchOperators] is the reading of the specification. *)
Lemma matchOperators_decided (itemValue : value) (c : gmap string value) :
  matchOperators itemValue c = decided itemValue c.
Proof.
  unfold matchOperators.
  rewrite inArray_piece, isBetween_piece, contains_piece, looseContains_piece.
  unfold decided, firstApplicable, precedence.
  cbn [List.find keyName].
  change (applies equals itemValue (get c "equals")) with true.
  change (applies notEquals itemValue (get c "notEquals")) with true.
  change (applies greaterThan itemValue (get c "greaterThan")) with true.
  change (applies greaterThanOrEqual itemValue (get c "greaterThanOrEqual"))
    with true.
  change (applies lessThan itemValue (get c "lessThan")) with true.
  change (applies lessThanOrEqual itemValue (get c "lessThanOrEqual"))
    with true.
  rewrite !andb_true_r.
  destruct (has "equals" c); [reflexivity|].
  destruct (has "notEquals" c); [reflexivity|].
  destruct (has "greaterThan" c); [reflexivity|].
  destruct (has "greaterThanOrEqual" c); [reflexivity|].
  destruct (has "lessThan" c); [reflexivity|].
  destruct (has "lessThanOrEqual" c); [reflexivity|].
  destruct (has "inArray" c && _); [reflexivity|].
  destruct (has "isBetween" c && _); [reflexivity|].
  destruct (has "contains" c && _); [reflexivity|].
  destruct (has "looseContains" c && _); reflexivity.
Qed.

End Conditions.

Section ConditionProperties.
Import JS QueryBuilder Spec.

Lemma matchCondition_operators (itemValue : value) (ref : nat)
    (c : gmap string value) :
  matchCondition itemValue (VObj ref c) = decided itemValue c.
Proof. unfold matchCondition. simpl. apply matchOperators_decided. Qed.

Lemma find_conj {A} (p q : A → bool) (l : list A) (x : A) :
  List.find p l = Some x → q x = true →
  List.find (fun y => p y && q y) l = Some x.
Proof.
  induction l as [|y l IH]; simpl; [discriminate|].
  destruct (p y) eqn:Hp; simpl.
  - intros [= ->] Hq. rewrite Hq. reflexivity.
  - intros Hfind Hq. apply IH; assumption.
Qed.

Lemma find_conj_none {A} (p q : A → bool) (l : list A) :
  List.find p l = None → List.find (fun y => p y && q y) l = None.
Proof.
  induction l as [|y l IH]; simpl; [reflexivity|].
  destruct (p y); simpl; [discriminate|]. exact IH.
Qed.

Lemma firstPresent_applies (itemValue : value) (c : gmap string value)
    (k : operatorKey) :
  firstPresent c = Some k →
  applies k itemValue (get c (keyName k)) = true →
  decided itemValue c = verdict k itemValue (get c (keyName k)).
Proof.
  intros Hfirst Happ. unfold decided, firstApplicable.
  rewrite (find_conj _ (fun k => applies k itemValue (get c (keyName k)))
             _ k Hfirst Happ).
  reflexivity.
Qed.

Lemma has_singleton (k' k : string) (v : value) :
  has k' {[ k := v ]} = bool_decide (k = k').
Proof.
  unfold has. destruct (decide (k = k')) as [->|Hne].
  - rewrite lookup_singleton_eq, bool_decide_eq_true_2 by eauto.
    symmetry. by apply bool_decide_eq_true_2.
  - rewrite lookup_singleton_ne by done.
    rewrite (bool_decide_eq_false_2 (k = k')) by done.
    apply bool_decide_eq_false_2. by intros [? ?].
Qed.

Lemma get_singleton (k : string) (v : value) : get {[ k := v ]} k = v.
Proof. unfold get. by rewrite lookup_singleton_eq. Qed.

(** An operator object with one key: the key decides if it applies,
    otherwise the record is excluded. *)
Lemma decided_singleton (k : operatorKey) (itemValue operand : value) :
  decided itemValue {[ keyName k := operand ]}
  = applies k itemValue operand && verdict k itemValue operand.
Proof.
  unfold decided, firstApplicable, precedence.
  cbn [List.find]. rewrite !has_singleton.
  destruct k; cbn [keyName]; rewrite ?get_singleton;
    repeat match goal with
    | |- context [bool_decide (?a = ?b)] =>
        let v := eval vm_compute in (bool_decide (a = b)) in
        change (bool_decide (a = b)) with v
    end; cbn [andb];
    try reflexivity;
    match goal with
    | |- context [applies ?k ?i ?o] =>
        destruct (applies k i o); rewrite ?get_singleton; reflexivity
    end.
Qed.

Lemma isLessThan_undefined_r (x : value) : isLessThan x VUndefined = None.
Proof.
  unfold isLessThan. simpl.
  destruct (toPrimitive x); simpl; try reflexivity.
  by destruct (stringToNumber s).
Qed.

Lemma numberLt_asym (x y : number) :
  numberLt x y = true → numberLt y x = false.
Proof.
  destruct x as [|nx|m e], y as [|ny|m' e']; simpl; try done.
  - by destruct nx, ny.
  - by intros ->.
  - by intros ->%negb_true_iff.
  - rewrite (Z.eqb_sym e' e), (Z.min_comm e' e).
    destruct (e =? e')%Z; intros H; lia.
Qed.

Lemma isLessThan_undefined_l (y : value) : isLessThan VUndefined y = None.
Proof. unfold isLessThan. simpl. destruct (toPrimitive y); reflexivity. Qed.

Lemma comparisons_undefined (x : value) :
  gt x VUndefined = false ∧ gt VUndefined x = false
  ∧ lt x VUndefined = false ∧ lt VUndefined x = false
  ∧ ge x VUndefined = false ∧ ge VUndefined x = false
  ∧ le x VUndefined = false ∧ le VUndefined x = false.
Proof.
  unfold gt, lt, ge, le.
  rewrite isLessThan_undefined_l, isLessThan_undefined_r. repeat split.
Qed.

Lemma nullish_cases (v : value) :
  nullish v = true → v = VNull ∨ v = VUndefined.
Proof. destruct v; simpl; try discriminate; auto. Qed.

Lemma relational_verdict_nullish (k : operatorKey) (itemValue operand : value) :
  relational k = true →
  nullish itemValue || nullishOperand k operand = true →
  applies k itemValue operand && verdict k itemValue operand = false.
Proof.
  intros Hrel Hnull.
  destruct (comparisons_undefined operand)
    as (G1 & G2 & L1 & L2 & GE1 & GE2 & LE1 & LE2).
  destruct (comparisons_undefined itemValue)
    as (G1' & G2' & L1' & L2' & GE1' & GE2' & LE1' & LE2').
  apply orb_true_iff in Hnull as [Hitem|Hop].
  - apply nullish_cases in Hitem as [->| ->].
    + destruct k; try discriminate; simpl; try reflexivity.
      destruct operand as [| | | | | |r [|x [|y [|z l]]]|]; reflexivity.
    + destruct k; try discriminate; simpl;
        rewrite ?G2, ?L2, ?GE2, ?LE2, ?andb_false_r; try reflexivity.
      destruct operand as [| | | | | |r [|x [|y [|z l]]]|]; try reflexivity.
      simpl. destruct (comparisons_undefined x) as (_ & _ & _ & _ & _ & E & _).
      rewrite E, ?andb_false_r. reflexivity.
  - unfold nullishOperand in Hop. apply orb_true_iff in Hop as [Hop|Hop].
    + apply nullish_cases in Hop as [->| ->];
        destruct k; try discriminate; simpl;
        rewrite ?G1', ?L1', ?GE1', ?LE1', ?andb_false_r; reflexivity.
    + destruct k; try discriminate.
      destruct operand as [| | | | | |r [|x [|y [|z l]]]|]; try discriminate.
      apply orb_true_iff in Hop as [Hx|Hy]. 
      * apply nullish_cases in Hx as [->| ->]; simpl;
          rewrite ?GE1', ?andb_false_r; reflexivity.
      * apply nullish_cases in Hy as [->| ->]; simpl;
          rewrite ?LE1', ?andb_false_r; reflexivity.
Qed.

(** An operator object that a relational key decides. *)
Lemma relational_decides_nullish (k : operatorKey) (itemValue : value)
    (c : gmap string value) :
  firstPresent c = Some k →
  relational k = true →
  applies k itemValue (get c (keyName k)) = true →
  nullish itemValue || nullishOperand k (get c (keyName k)) = true →
  decided itemValue c = false.
Proof.
  intros Hfirst Hrel Happ Hnull.
  rewrite (firstPresent_applies itemValue c k Hfirst Happ).
  pose proof (relational_verdict_nullish k itemValue _ Hrel Hnull) as H.
  by rewrite Happ in H.
Qed.

Lemma matches_false_at (q : QueryBuilder) (item : gmap string value)
    (fieldName : string) (c : value) :
  conditions q !! fieldName = Some c →
  matchCondition (get item fieldName) c = false →
  matches q item = false.
Proof.
  intros Hc Hm. unfold matches.
  destruct (forallb _ _) eqn:Hall; [|reflexivity].
  rewrite forallb_forall in Hall.
  specialize (Hall (fieldName, c)). simpl in Hall.
  rewrite Hm in Hall. symmetry. apply Hall.
  apply list_elem_of_In, elem_of_map_to_list, Hc.
Qed.

End ConditionProperties.

(** C6, the claim as written, at two operator objects that have the same
    first present key, [inArray], with the same operand: on the field value
    ["abc"] the one that also has [contains] lets the record through, the
    other excludes it.  The outcome is not decided by the first present
    key. *)
Lemma first_present_key_does_not_decide :
  let itemValue := JS.VStr "abc" in
  let c1 : gmap string JS.value :=
    {[ "inArray" := JS.VUndefined; "contains" := JS.VStr "a" ]} in
  let c2 : gmap string JS.value := {[ "inArray" := JS.VUndefined ]} in
  Spec.firstPresent c1 = Some Spec.inArray
  ∧ Spec.firstPresent c2 = Some Spec.inArray
  ∧ JS.get c1 "inArray" = JS.get c2 "inArray"
  ∧ QueryBuilder.matchCondition itemValue (JS.VObj 0 c1) = true
  ∧ QueryBuilder.matchCondition itemValue (JS.VObj 0 c2) = false.
Proof. vm_compute. repeat split. Qed.

(** C6 (amended).  An operator object is read in the fixed precedence
    equals, notEquals, greaterThan, greaterThanOrEqual, lessThan,
    lessThanOrEqual, inArray, isBetween, contains, looseContains, and the
    first key that is present and applies decides the outcome.  The six
    comparison keys apply whenever present, so there the first present key
    decides; inArray applies when its operand is an array, isBetween when
    its operand is an array of two, contains and looseContains when the
    field value and the operand are both strings, and a present key that
    does not apply is passed over for the next one.  An operator object in
    which no key is present and applies - one with none of the ten keys in
    particular - excludes the record, without an error. *)
Theorem operator_keys_first_applicable_decides
    (itemValue : JS.value) (ref : nat) (c : gmap string JS.value) :
  QueryBuilder.matchCondition itemValue (JS.VObj ref c)
  = Spec.decided itemValue c
  ∧ (∀ k, Spec.firstPresent c = Some k →
          Spec.applies k itemValue (JS.get c (Spec.keyName k)) = true →
          QueryBuilder.matchCondition itemValue (JS.VObj ref c)
          = Spec.verdict k itemValue (JS.get c (Spec.keyName k)))
  ∧ (∀ k, Spec.firstPresent c = Some k →
          In k [Spec.equals; Spec.notEquals; Spec.greaterThan;
                Spec.greaterThanOrEqual; Spec.lessThan; Spec.lessThanOrEqual] →
          QueryBuilder.matchCondition itemValue (JS.VObj ref c)
          = Spec.verdict k itemValue (JS.get c (Spec.keyName k)))
  ∧ (Spec.firstApplicable itemValue c = None →
     QueryBuilder.matchCondition itemValue (JS.VObj ref c) = false)
  ∧ (Spec.firstPresent c = None →
     QueryBuilder.matchCondition itemValue (JS.VObj ref c) = false).
Proof.
  rewrite matchCondition_operators. repeat split.
  - intros k Hfirst Happ. by apply firstPresent_applies.
  - intros k Hfirst Hin. apply firstPresent_applies; [exact Hfirst|].
    simpl in Hin. destruct Hin as [<-|[<-|[<-|[<-|[<-|[<-|[]]]]]]];
      reflexivity.
  - intros Hnone. unfold Spec.decided. by rewrite Hnone.
  - intros Hnone. unfold Spec.decided, Spec.firstApplicable.
    unfold Spec.firstPresent in Hnone.
    by rewrite (find_conj_none _ _ _ Hnone).
Qed.

Lemma operator_keys_first_applicable_decides_witness :
  QueryBuilder.matchCondition (JS.VNum 5)
    (JS.VObj 0 {[ "lessThan" := JS.VNum 9; "contains" := JS.VStr "5" ]})
  = Spec.verdict Spec.lessThan (JS.VNum 5)
      (JS.get {[ "lessThan" := JS.VNum 9; "contains" := JS.VStr "5" ]}
         (Spec.keyName Spec.lessThan)).
Proof.
  apply (proj1 (proj2 (operator_keys_first_applicable_decides (JS.VNum 5) 0
           {[ "lessThan" := JS.VNum 9; "contains" := JS.VStr "5" ]}))
           Spec.lessThan).
  - vm_compute. reflexivity.
  - reflexivity.
Defined.

(** C7, the claim as written, at the operator object
    [{ isBetween: null, contains: "a" }]: it is a relational condition
    whose operand is null, and on the field value ["abc"] the record
    matches, because [isBetween] with an operand that is no array of two is
    passed over and [contains] decides.  Likewise [{ equals: 5,
    greaterThan: null }] on the field value 5: [equals] decides first. *)
Lemma relational_key_passed_over_matches :
  let c1 : gmap string JS.value :=
    {[ "isBetween" := JS.VNull; "contains" := JS.VStr "a" ]} in
  let c2 : gmap string JS.value :=
    {[ "equals" := JS.VNum 5; "greaterThan" := JS.VNull ]} in
  JS.has (Spec.keyName Spec.isBetween) c1 = true
  ∧ Spec.nullishOperand Spec.isBetween (JS.get c1 "isBetween") = true
  ∧ QueryBuilder.matches
      (QueryBuilder.where_ {[ "title" := JS.VObj 0 c1 ]} QueryBuilder.new)
      {[ "title" := JS.VStr "abc" ]} = true
  ∧ JS.has (Spec.keyName Spec.greaterThan) c2 = true
  ∧ Spec.nullishOperand Spec.greaterThan (JS.get c2 "greaterThan") = true
  ∧ QueryBuilder.matches
      (QueryBuilder.where_ {[ "n" := JS.VObj 0 c2 ]} QueryBuilder.new)
      {[ "n" := JS.VNum 5 ]} = true.
Proof. vm_compute. repeat split. Qed.

(** C7 (amended).  An operator object in which a relational key
    (greaterThan, greaterThanOrEqual, lessThan, lessThanOrEqual, isBetween)
    is present does not match a record when the record's value for the
    field is null or missing, or when the operand of that key (for
    isBetween also one of its two bounds) is null or missing, provided no
    other key of the object decides the outcome: none that is present and
    applies stands ahead of the relational key in the precedence, and, when
    the relational key itself does not apply (isBetween with an operand
    that is no array of two), none behind it.  This covers every object
    with the relational key alone.  When another key decides, the outcome
    is that key's.  [matches] is a total function: it answers false, it
    raises nothing. *)
Theorem relational_condition_null_safe
    (q : QueryBuilder.QueryBuilder) (item : gmap string JS.value)
    (fieldName : string) (ref : nat) (c : gmap string JS.value)
    (k : Spec.operatorKey) :
  QueryBuilder.conditions q !! fieldName = Some (JS.VObj ref c) →
  Spec.relational k = true →
  JS.has (Spec.keyName k) c = true →
  Spec.nullish (JS.get item fieldName)
  || Spec.nullishOperand k (JS.get c (Spec.keyName k)) = true →
  (∀ k', Spec.firstApplicable (JS.get item fieldName) c = Some k' → k' = k) →
  QueryBuilder.matchCondition (JS.get item fieldName) (JS.VObj ref c) = false
  ∧ QueryBuilder.matches q item = false
  ∧ (∀ operand,
       c = {[ Spec.keyName k := operand ]} →
       ∀ k', Spec.firstApplicable (JS.get item fieldName) c = Some k' → k' = k).
Proof.
  intros Hcond Hrel Hhas Hnull Honly.
  assert (Hm : QueryBuilder.matchCondition (JS.get item fieldName)
                 (JS.VObj ref c) = false).
  { rewrite matchCondition_operators. unfold Spec.decided.
    destruct (Spec.firstApplicable (JS.get item fieldName) c) as [k'|] eqn:Hk';
      [|reflexivity].
    rewrite (Honly k' eq_refl) in *.
    unfold Spec.firstApplicable in Hk'. apply find_some in Hk' as [_ Hk'].
    apply andb_prop in Hk' as [_ Happ].
    pose proof (relational_verdict_nullish k (JS.get item fieldName) _ Hrel
                  Hnull) as H.
    by rewrite Happ in H. }
  split; [exact Hm|]. split; [eapply matches_false_at; eassumption|].
  intros operand -> k' Hk'. unfold Spec.firstApplicable in Hk'.
  apply find_some in Hk' as [_ Hk']. apply andb_prop in Hk' as [Hpresent _].
  unfold JS.has in Hpresent.
  destruct (decide (Spec.keyName k' = Spec.keyName k)) as [Heq|Hne].
  - by destruct k, k'.
  - by rewrite lookup_singleton_ne in Hpresent.
Qed.

Lemma relational_condition_null_safe_witness :
  QueryBuilder.matches
    (QueryBuilder.where_
       {[ "updatedAt" := Spec.condition 0 Spec.greaterThan (JS.VDate 1 1000) ]}
       QueryBuilder.new)
    {[ "id" := JS.VNum 1; "updatedAt" := JS.VNull ]}
  = false.
Proof.
  refine (proj1 (proj2 (relational_condition_null_safe
           (QueryBuilder.where_
              {[ "updatedAt" := Spec.condition 0 Spec.greaterThan (JS.VDate 1 1000) ]}
              QueryBuilder.new)
           {[ "id" := JS.VNum 1; "updatedAt" := JS.VNull ]}
           "updatedAt" 0 {[ "greaterThan" := JS.VDate 1 1000 ]}
           Spec.greaterThan _ _ _ _ _))).
  - vm_compute. reflexivity.
  - reflexivity.
  - vm_compute. reflexivity.
  - vm_compute. reflexivity.
  - vm_compute. intros k' [= <-]. reflexivity.
Defined.

Section Ordering.
Import JS QueryBuilder Spec.

Lemma isLessThan_asym (a b : value) :
  isLessThan a b = Some true → isLessThan b a ≠ Some true.
Proof.
  assert (Hnum : ∀ x y : number,
            numberLess x y = Some true → numberLess y x ≠ Some true).
  { intros x y H H'.
    assert (Hxy : numberLt x y = true)
      by (destruct x, y; try discriminate; by injection H).
    assert (Hyx : numberLt y x = true)
      by (destruct x, y; try discriminate; by injection H').
    rewrite (numberLt_asym x y Hxy) in Hyx. discriminate. }
  unfold isLessThan.
  destruct (toPrimitive a) as [| | | |sa| | |],
           (toPrimitive b) as [| | | |sb| | |];
    try apply Hnum.
  unfold String.ltb. rewrite (String.compare_antisym sa sb).
  destruct (String.compare sb sa); simpl; congruence.
Qed.

Lemma lt_gt_exclusive (a b : value) : lt a b = true → gt a b = false.
Proof.
  unfold lt, gt. intros H.
  destruct (isLessThan a b) as [[|]|] eqn:Hab; try discriminate.
  pose proof (isLessThan_asym a b Hab) as Hne.
  destruct (isLessThan b a) as [[|]|]; simpl; congruence.
Qed.

(** Swapping the two records flips the sign of the callback. *)
Lemma compareField_antisym (o : OrderByCondition) (a b : gmap string value) :
  compareField o b a = - compareField o a b.
Proof.
  unfold compareField.
  destruct (isNull (get a (field o))) eqn:Na,
           (isNull (get b (field o))) eqn:Nb; simpl;
    try (destruct (dir o); reflexivity).
  change (gt (get b (field o)) (get a (field o)))
    with (lt (get a (field o)) (get b (field o))).
  change (lt (get b (field o)) (get a (field o)))
    with (gt (get a (field o)) (get b (field o))).
  destruct (lt (get a (field o)) (get b (field o))) eqn:Hlt.
  - rewrite (lt_gt_exclusive _ _ Hlt). destruct (dir o); reflexivity.
  - destruct (gt _ _); destruct (dir o); reflexivity.
Qed.

Lemma compareRecords_antisym (obs : list OrderByCondition)
    (a b : gmap string value) :
  compareRecords obs b a = - compareRecords obs a b.
Proof.
  induction obs as [|o obs IH]; simpl; [reflexivity|].
  rewrite (compareField_antisym o a b).
  destruct (Z.eqb_spec (compareField o a b) 0) as [H0|Hn].
  - rewrite H0. simpl. exact IH.
  - destruct (Z.eqb_spec (- compareField o a b) 0); [lia|]. reflexivity.
Qed.


Lemma compareRecords_all_equal (obs : list OrderByCondition)
    (a b : gmap string value) :
  Forall (fun o => compareField o a b = 0) obs → compareRecords obs a b = 0.
Proof. induction 1 as [|o obs H0 _ IH]; simpl; [|rewrite H0]; done. Qed.


(** ** The sort *)

Lemma sortInsert_perm {A} (compare : A → A → Z) (x : A) (l : list A) :
  Permutation (x :: l) (sortInsert compare x l).
Proof.
  induction l as [|y l IH]; simpl; [reflexivity|].
  destruct (0 <? compare x y)%Z; [|reflexivity].
  rewrite perm_swap. by constructor.
Qed.

Lemma arraySort_perm {A} (compare : A → A → Z) (l : list A) :
  Permutation l (arraySort compare l).
Proof.
  induction l as [|x l IH]; simpl; [reflexivity|].
  etransitivity; [|apply sortInsert_perm]. by constructor.
Qed.

Lemma sortInsert_sorted {A} (compare : A → A → Z) (x : A) (l : list A) :
  (∀ a b, compare b a = - compare a b) →
  Sorted (inOrder compare) l →
  Sorted (inOrder compare) (sortInsert compare x l).
Proof.
  intros Hanti. induction l as [|y l IH]; intros Hs; simpl.
  - repeat constructor.
  - destruct (Z.ltb_spec 0 (compare x y)) as [Hgt|Hle].
    + apply Sorted_inv in Hs as [Hs Hhd]. constructor; [by apply IH|].
      destruct l as [|z l]; simpl.
      * constructor. unfold inOrder. rewrite Hanti. lia.
      * destruct (0 <? compare x z)%Z.
        -- constructor. by inversion Hhd.
        -- constructor. unfold inOrder. rewrite Hanti. lia.
    + constructor; [exact Hs|]. constructor. exact Hle.
Qed.

Lemma arraySort_sorted {A} (compare : A → A → Z) (l : list A) :
  (∀ a b, compare b a = - compare a b) →
  Sorted (inOrder compare) (arraySort compare l).
Proof.
  intros Hanti. induction l as [|x l IH]; simpl; [constructor|].
  by apply sortInsert_sorted.
Qed.

Lemma Sorted_firstn {A} (R : A → A → Prop) (n : nat) (l : list A) :
  Sorted R l → Sorted R (firstn n l).
Proof.
  revert l. induction n as [|n IH]; intros l Hs; simpl; [constructor|].
  destruct l as [|x l]; [constructor|].
  apply Sorted_inv in Hs as [Hs Hhd]. constructor; [by apply IH|].
  destruct n, l; simpl; constructor. by inversion Hhd.
Qed.

Lemma applyQuery_withoutLimit_perm (q : QueryBuilder)
    (data : list (gmap string value)) :
  Permutation (List.filter (matches q) data) (applyQuery (withoutLimit q) data).
Proof.
  unfold applyQuery, withoutLimit. simpl.
  change (List.filter (λ item, matches
            {| conditions := conditions q; limitValue := None;
               orderByConditions := orderByConditions q |} item) data)
    with (List.filter (matches q) data).
  destruct (0 <? length (orderByConditions q))%nat;
    [apply arraySort_perm | reflexivity].
Qed.

Lemma applyQuery_sorted (q : QueryBuilder) (data : list (gmap string value)) :
  Sorted (inOrder (compareRecords (orderByConditions q))) (applyQuery q data).
Proof.
  assert (Hlist : ∀ l : list (gmap string value),
            orderByConditions q = [] →
            Sorted (inOrder (compareRecords (orderByConditions q))) l).
  { intros l ->. induction l as [|x l IH]; constructor; [exact IH|].
    destruct l; constructor. unfold inOrder. simpl. lia. }
  assert (Hmid : Sorted (inOrder (compareRecords (orderByConditions q)))
            (if (0 <? length (orderByConditions q))%nat
             then arraySort (compareRecords (orderByConditions q))
                    (List.filter (λ item, matches q item) data)
             else List.filter (λ item, matches q item) data)).
  { destruct (0 <? length (orderByConditions q))%nat eqn:Hlen.
    - apply arraySort_sorted. intros a b. apply compareRecords_antisym.
    - apply Hlist. destruct (orderByConditions q); [reflexivity|discriminate]. }
  unfold applyQuery. destruct (limitValue q) as [n|]; [|exact Hmid].
  destruct (0 <=? n)%Z; [|exact Hmid]. by apply Sorted_firstn.
Qed.



End Ordering.

Section KeyOrder.
Import JS QueryBuilder Spec.
Local Open Scope list_scope.

Lemma compareSortKeys_composes (x y z : option Z) :
  composes (compareSortKeys x y) (compareSortKeys y z) (compareSortKeys x z).
Proof.
  destruct x as [a|], y as [b|], z as [c|]; simpl;
    try reflexivity; try exact I.
  - unfold composes.
    destruct (Z.compare_spec a b), (Z.compare_spec b c), (Z.compare_spec a c);
      try reflexivity; try exact I; lia.
  - unfold composes. by destruct (a ?= b)%Z.
  - unfold composes. by destruct (b ?= c)%Z.
Qed.

Lemma composes_opp (c1 c2 c3 : comparison) :
  composes c1 c2 c3 → composes (CompOpp c1) (CompOpp c2) (CompOpp c3).
Proof. destruct c1, c2; simpl; try done; by intros ->. Qed.

Lemma keyOrder_composes (o : OrderByCondition) (a b c : gmap string value) :
  composes (keyOrder o a b) (keyOrder o b c) (keyOrder o a c).
Proof.
  unfold keyOrder. destruct (dir o); [|apply composes_opp];
    apply compareSortKeys_composes.
Qed.

Lemma keysOrder_composes (keys : list OrderByCondition)
    (a b c : gmap string value) :
  composes (keysOrder keys a b) (keysOrder keys b c) (keysOrder keys a c).
Proof.
  induction keys as [|o keys IH]; simpl; [reflexivity|].
  pose proof (keyOrder_composes o a b c) as Ho.
  destruct (keyOrder o a b), (keyOrder o b c); simpl in Ho;
    try rewrite Ho; simpl; try exact I; try reflexivity; try exact IH;
    try (destruct (keysOrder keys a b); simpl; (reflexivity || exact I));
    try (destruct (keysOrder keys b c); simpl; (reflexivity || exact I)).
Qed.

Lemma keysOrder_trans (keys : list OrderByCondition)
    (a b c : gmap string value) :
  keysOrder keys a b ≠ Gt → keysOrder keys b c ≠ Gt → keysOrder keys a c ≠ Gt.
Proof.
  intros Hab Hbc. pose proof (keysOrder_composes keys a b c) as H.
  destruct (keysOrder keys a b), (keysOrder keys b c); simpl in H;
    try congruence.
Qed.

(** The callback under one key, on fields that hold numbers, Dates or
    null, is the order of the sort keys. *)
Lemma compareField_keyOrder (o : OrderByCondition) (a b : gmap string value) :
  is_Some (sortKey (field o) a) → is_Some (sortKey (field o) b) →
  compareField o a b = signOf (keyOrder o a b).
Proof.
  unfold compareField, keyOrder, sortKey, lt, gt, isLessThan.
  intros [ka Ha] [kb Hb].
  destruct (get a (field o)) as [| | |x| |r x| |]; try discriminate;
    destruct (get b (field o)) as [| | |y| |r' y| |]; try discriminate;
    simpl; try (by destruct (dir o));
    destruct (Z.compare_spec x y) as [->|Hlt|Hgt];
    rewrite ?Z.ltb_irrefl;
    try rewrite (proj2 (Z.ltb_lt x y)) by lia;
    try rewrite (proj2 (Z.ltb_ge x y)) by lia;
    try rewrite (proj2 (Z.ltb_lt y x)) by lia;
    try rewrite (proj2 (Z.ltb_ge y x)) by lia;
    by destruct (dir o).
Qed.

Lemma signOf_zero (c : comparison) : signOf c = 0 ↔ c = Eq.
Proof. destruct c; simpl; split; intros; try done; lia. Qed.

Lemma compareRecords_keysOrder (keys : list OrderByCondition)
    (a b : gmap string value) :
  Forall (fun o => is_Some (sortKey (field o) a)) keys →
  Forall (fun o => is_Some (sortKey (field o) b)) keys →
  compareRecords keys a b = signOf (keysOrder keys a b).
Proof.
  induction keys as [|o keys IH]; intros Ha Hb; simpl; [reflexivity|].
  apply Forall_cons in Ha as [Hoa Ha]. apply Forall_cons in Hb as [Hob Hb].
  rewrite (compareField_keyOrder o a b Hoa Hob).
  destruct (keyOrder o a b); simpl; try reflexivity. by apply IH.
Qed.

Lemma orderable_applyQuery (q : QueryBuilder)
    (data : list (gmap string value)) :
  orderable (orderByConditions q) data →
  orderable (orderByConditions q) (applyQuery q data).
Proof.
  unfold orderable. intros Hdata. apply Forall_forall. intros r Hr.
  rewrite Forall_forall in Hdata. apply Hdata.
  apply list_elem_of_In in Hr. apply list_elem_of_In.
  unfold applyQuery in Hr.
  assert (Hmid : ∀ l, In r (if (0 <? length (orderByConditions q))%nat
                            then arraySort (compareRecords (orderByConditions q)) l
                            else l) → In r l).
  { intros l. destruct (0 <? length (orderByConditions q))%nat; [|done].
    apply Permutation_in. symmetry. apply arraySort_perm. }
  assert (Hin : In r (List.filter (λ item, matches q item) data) → In r data)
    by (intros H; by apply filter_In in H as [H _]).
  destruct (limitValue q) as [n|]; [destruct (0 <=? n)%Z|];
    try (by apply Hin, Hmid).
  apply Hin, Hmid. unfold sliceTo in Hr.
  rewrite <- (firstn_skipn (Z.to_nat n)). apply in_or_app. by left.
Qed.

(** On such data the result is in the order of the keys. *)
Lemma applyQuery_keysOrder (q : QueryBuilder)
    (data : list (gmap string value)) :
  orderable (orderByConditions q) data →
  StronglySorted (fun x y => keysOrder (orderByConditions q) x y ≠ Gt)
    (applyQuery q data).
Proof.
  intros Hdata. apply Sorted_StronglySorted.
  { intros a b c. apply keysOrder_trans. }
  pose proof (orderable_applyQuery q data Hdata) as Hres.
  pose proof (applyQuery_sorted q data) as Hsorted.
  induction Hsorted as [|x l Hs IH Hhd]; [constructor|].
  apply Forall_cons in Hres as [Hx Hres]. constructor; [by apply IH|].
  destruct Hhd as [|y l Hxy]; constructor.
  apply Forall_cons in Hres as [Hy _].
  unfold inOrder in Hxy. rewrite (compareRecords_keysOrder _ x y Hx Hy) in Hxy.
  destruct (keysOrder (orderByConditions q) x y); simpl in Hxy;
    [done|done|lia].
Qed.

End KeyOrder.



Section Limit.
Import JS QueryBuilder Spec.

Lemma applyQuery_limit (n : Z) (q : QueryBuilder)
    (data : list (gmap string value)) :
  applyQuery (limit n q) data
  = if (0 <=? n)%Z then sliceTo n (applyQuery (withoutLimit q) data)
    else applyQuery (withoutLimit q) data.
Proof. reflexivity. Qed.

End Limit.

(** C10.  A negative count given to [limit] leaves the result uncapped:
    [applyQuery] returns the whole filtered and sorted list, that is every
    record of the data that matches and no other, each as often as the data
    has it, in the order of the data when there are no ordering keys and
    sorted by them otherwise (in the order of the keys, where every
    ordering key names a field that holds a number, a Date or null in
    every record).  [limit(0)] gives the empty list, and a
    positive count [n] gives the first [n] records of the filtered and
    sorted list, hence no more than [n]. *)
Theorem limit_caps_only_from_zero_up
    (q : QueryBuilder.QueryBuilder) (data : list (gmap string JS.value))
    (n : Z) :
  let full := Spec.filteredAndSorted q data in
  Permutation (List.filter (QueryBuilder.matches q) data) full
  ∧ (∀ r, In r full ↔ In r data ∧ QueryBuilder.matches q r = true)
  ∧ (QueryBuilder.orderByConditions q = [] →
     full = List.filter (QueryBuilder.matches q) data)
  ∧ (Spec.orderable (QueryBuilder.orderByConditions q) data →
     StronglySorted
       (fun x y => Spec.keysOrder (QueryBuilder.orderByConditions q) x y ≠ Gt)
       full)
  ∧ (n < 0 → QueryBuilder.applyQuery (QueryBuilder.limit n q) data = full)
  ∧ QueryBuilder.applyQuery (QueryBuilder.limit 0 q) data = []
  ∧ (0 < n →
     QueryBuilder.applyQuery (QueryBuilder.limit n q) data
     = firstn (Z.to_nat n) full
     ∧ (length (QueryBuilder.applyQuery (QueryBuilder.limit n q) data)
        ≤ Z.to_nat n)%nat).
Proof.
  intros full.
  assert (Hfull : QueryBuilder.applyQuery (Spec.withoutLimit q) data = full).
  { unfold full, Spec.filteredAndSorted, QueryBuilder.applyQuery,
      Spec.withoutLimit. simpl.
    by destruct (QueryBuilder.orderByConditions q). }
  assert (Hperm : Permutation (List.filter (QueryBuilder.matches q) data) full).
  { rewrite <- Hfull. apply applyQuery_withoutLimit_perm. }
  rewrite !applyQuery_limit, Hfull.
  split; [exact Hperm|]. split; [|split; [|split; [|split; [|split]]]].
  - intros r. rewrite <- (filter_In (QueryBuilder.matches q)).
    split; apply Permutation_in; [symmetry|]; exact Hperm.
  - intros Hnone. unfold full, Spec.filteredAndSorted. by rewrite Hnone.
  - intros Hdata. rewrite <- Hfull.
    exact (applyQuery_keysOrder (Spec.withoutLimit q) data Hdata).
  - intros Hneg. destruct (Z.leb_spec 0 n); [lia|reflexivity].
  - reflexivity.
  - intros Hpos. destruct (Z.leb_spec 0 n); [|lia]. split; [reflexivity|].
    unfold QueryBuilder.sliceTo. apply firstn_le_length.
Qed.

Lemma limit_caps_only_from_zero_up_witness :
  let data : list (gmap string JS.value) :=
    [{[ "id" := JS.VNum 1 ]}; {[ "id" := JS.VNum 2 ]}; {[ "id" := JS.VNum 3 ]}] in
  QueryBuilder.applyQuery (QueryBuilder.limit (-1) QueryBuilder.new) data
  = Spec.filteredAndSorted QueryBuilder.new data
  ∧ QueryBuilder.applyQuery (QueryBuilder.limit 2 QueryBuilder.new) data
    = firstn (Z.to_nat 2) (Spec.filteredAndSorted QueryBuilder.new data).
Proof.
  intros data. split.
  - apply (proj1 (proj2 (proj2 (proj2 (proj2
             (limit_caps_only_from_zero_up QueryBuilder.new data (-1))))))).
    lia.
  - apply (proj2 (proj2 (proj2 (proj2 (proj2 (proj2
             (limit_caps_only_from_zero_up QueryBuilder.new data 2))))))).
    lia.
Defined.

Section UpdateMerge.
Import JS IDB.

Lemma has_true (k : string) (o : gmap string value) :
  has k o = true ↔ is_Some (o !! k).
Proof. unfold has. apply bool_decide_eq_true. Qed.

Lemma has_false (k : string) (o : gmap string value) :
  has k o = false ↔ o !! k = None.
Proof.
  unfold has. rewrite bool_decide_eq_false, eq_None_not_Some. reflexivity.
Qed.

(** The key is ignored and the other keys of [dataToSet] are laid over the
    record. *)
Lemma updatedRecord_lookup (primaryKeyPath k : string)
    (dataToSet record : gmap string value) (now : value) :
  updatedRecord primaryKeyPath dataToSet record now !! k
  = if bool_decide (k = "updatedAt") && negb (has "updatedAt" dataToSet)
    then Some now
    else if bool_decide (k = primaryKeyPath) then record !! k
    else match dataToSet !! k with
         | Some v => Some v
         | None => record !! k
         end.
Proof.
  unfold updatedRecord.
  destruct (has "updatedAt" dataToSet) eqn:Hhas; simpl.
  - rewrite andb_false_r, (left_id_L ∅ (∪)).
    rewrite lookup_union. case_bool_decide as Hk.
    + subst k. rewrite lookup_delete_eq. by destruct (record !! primaryKeyPath).
    + rewrite lookup_delete_ne by done.
      destruct (dataToSet !! k), (record !! k); reflexivity.
  - rewrite andb_true_r. case_bool_decide as Hu.
    + subst k. apply lookup_union_Some_l, lookup_singleton_eq.
    + rewrite lookup_union_r by (by apply lookup_singleton_ne).
      rewrite lookup_union. case_bool_decide as Hk.
      * subst k. rewrite lookup_delete_eq. by destruct (record !! primaryKeyPath).
      * rewrite lookup_delete_ne by done.
        destruct (dataToSet !! k), (record !! k); reflexivity.
Qed.

End UpdateMerge.

Section Keys.
Import JS Backend IDB.

(** Induction on values that reaches into arrays. *)
Lemma value_array_ind (P : value → Prop) :
  P VUndefined → P VNull → (∀ b, P (VBool b)) → (∀ n, P (VNum n)) →
  (∀ s, P (VStr s)) → (∀ r t, P (VDate r t)) →
  (∀ r elems, Forall P elems → P (VArr r elems)) →
  (∀ r fields, P (VObj r fields)) →
  ∀ v, P v.
Proof.
  intros HU HN HB HZ HS HD HA HO. fix IH 1.
  intros [| |b|n|s|r t|r elems|r fields];
    [exact HU | exact HN | apply HB | apply HZ | apply HS | apply HD
    | | apply HO].
  apply HA. induction elems as [|e elems IHelems]; constructor.
  - apply IH.
  - exact IHelems.
Qed.

Lemma compareKeys_refl (k : value) : compareKeys k k = Eq.
Proof.
  induction k as [| |b|n|s|r t|r elems IH|r fields] using value_array_ind;
    simpl; try reflexivity.
  - apply Z.compare_refl.
  - pose proof (String.compare_antisym s s) as H.
    destruct (String.compare s s); simpl in H; congruence.
  - apply Z.compare_refl.
  - induction IH as [|e elems He _ IHelems]; [reflexivity|].
    rewrite He. exact IHelems.
Qed.

Lemma sameKey_refl (k : value) : sameKey k k = true.
Proof. unfold sameKey. by rewrite compareKeys_refl. Qed.

(** The engine's test for a key and the backend's agree. *)
Lemma isValidKey_validKey (k : value) : isValidKey k = validKey k.
Proof.
  induction k as [| |b|n|s|r t|r elems IH|r fields] using value_array_ind;
    try reflexivity.
  simpl. induction IH as [|e elems He _ IHelems]; [reflexivity|].
  simpl in *. rewrite He. f_equal. exact IHelems.
Qed.

End Keys.

Section DeleteAll.
Import JS Backend IDB Spec.

Lemma filter_all_true {A} (p : A → bool) (l : list A) :
  (∀ x, p x = true) → List.filter p l = l.
Proof.
  intros Hp. induction l as [|x l IH]; simpl; [reflexivity|].
  by rewrite Hp, IH.
Qed.

Lemma filter_none {A} (p : A → bool) (l : list A) :
  Forall (fun x => p x = false) l → List.filter p l = [].
Proof. induction 1 as [|x l Hx _ IH]; simpl; [|rewrite Hx]; done. Qed.

Lemma filter_twice {A} (p q : A → bool) (l : list A) :
  List.filter p (List.filter q l) = List.filter (fun x => q x && p x) l.
Proof.
  induction l as [|x l IH]; simpl; [reflexivity|].
  destruct (q x); simpl; [destruct (p x)|]; by rewrite IH.
Qed.

(** A builder nothing was asked of matches every record and passes the
    records on as they are. *)
Lemma matches_new (item : gmap string value) :
  QueryBuilder.matches QueryBuilder.new item = true.
Proof. unfold QueryBuilder.matches. simpl. by rewrite map_to_list_empty. Qed.

Lemma applyQuery_new (data : list (gmap string value)) :
  QueryBuilder.applyQuery QueryBuilder.new data = data.
Proof.
  unfold QueryBuilder.applyQuery. simpl.
  apply filter_all_true, matches_new.
Qed.

Lemma segments_plain (p : string) :
  hasPeriod p = false → segments p = [p].
Proof.
  induction p as [|c p IH]; simpl; [reflexivity|].
  intros Hno. apply orb_false_elim in Hno as [Hc Hp].
  rewrite Hc, (IH Hp). reflexivity.
Qed.

(** On a plain name the backend reads the key where the engine reads
    it. *)
Lemma evaluateKeyPath_plain (p : string) (r : gmap string value) :
  plainName p = true → evaluateKeyPath p r = get r p.
Proof.
  unfold plainName, evaluateKeyPath. intros Hp.
  apply andb_prop in Hp as [Hne Hno].
  apply negb_true_iff in Hne, Hno. rewrite Hne, (segments_plain p Hno).
  reflexivity.
Qed.

Lemma keeps_holds (this : IDB) (s : string) (st : IDBObjectStore) :
  keeps this s st → holds this s st.
Proof. intros (db & Hdb & Hst & _). by exists db. Qed.

Lemma getAllRecords_open (this : IDB) (s : string) (st : IDBObjectStore) :
  holds this s st →
  ∃ this', getAllRecords s this = (Fulfilled (records st), this')
           ∧ holds this' s st ∧ tables this' = tables this
           ∧ (keeps this s st → keeps this' s st).
Proof.
  intros (db & Hdb & Hst). unfold getAllRecords, transaction.
  rewrite Hdb, Hst. simpl. eexists. split; [reflexivity|]. split; [|split].
  - exists (putStore s st db). split; [reflexivity|].
    simpl. apply lookup_insert_eq.
  - reflexivity.
  - intros (db' & Hdb' & _ & Hdur). rewrite Hdb in Hdb'. injection Hdb' as <-.
    exists (putStore s st db). split; [reflexivity|].
    split; [apply lookup_insert_eq|exact Hdur].
Qed.

(** A readwrite request that succeeds on a database whose transactions
    commit: the promise is fulfilled and the store is as the request left
    it. *)
Lemma transaction_commits {T} (this : IDB) (s : string)
    (st st' : IDBObjectStore)
    (task : IDBTransactionMode → IDBObjectStore → issued T) (result : T) :
  keeps this s st →
  task readwrite st = Succeeds result st' →
  ∃ this',
    transaction s readwrite task this = (Fulfilled result, this')
    ∧ keeps this' s st'.
Proof.
  intros (db & Hdb & Hst & Hdur) Htask. unfold transaction.
  rewrite Hdb, Hst, Htask. unfold durable in Hdur.
  destruct (fates db) as [|[|err] later] eqn:Hfates; simpl in Hdur;
    [| |discriminate].
  - eexists. split; [reflexivity|].
    eexists. split; [reflexivity|]. split; [apply lookup_insert_eq|].
    unfold durable. simpl. by rewrite Hfates.
  - eexists. split; [reflexivity|].
    eexists. split; [reflexivity|]. split; [apply lookup_insert_eq|].
    exact Hdur.
Qed.

Lemma delete_open (this : IDB) (s : string) (st : IDBObjectStore)
    (key : value) :
  keeps this s st → validKey key = true →
  ∃ this',
    transaction s readwrite (storeDelete key) this = (Fulfilled tt, this')
    ∧ keeps this' s
        (withRecords st (keyGenerator st)
           (List.filter (fun r => negb (sameKey (keyOf st r) key))
              (records st))).
Proof.
  intros Hkeeps Hkey. apply (transaction_commits this s st _ _ tt Hkeeps).
  simpl. by rewrite Hkey.
Qed.

Lemma deleteEach_open (gone : list (gmap string value)) (this : IDB)
    (s : string) (st : IDBObjectStore) :
  keeps this s st →
  plainName (keyPath st) = true →
  Forall (fun m => validKey (get m (keyPath st)) = true) gone →
  ∃ this',
    deleteEach s (keyPath st) gone this
    = (List.map (fun _ => Fulfilled tt) gone, this')
    ∧ keeps this' s
        (withRecords st (keyGenerator st)
           (survivors (keyPath st) gone (records st))).
Proof.
  intros Hkeeps Hplain. revert this st Hkeeps Hplain.
  induction gone as [|m gone IH]; intros this st Hkeeps Hplain Hvalid.
  - simpl. exists this. split; [reflexivity|].
    unfold survivors. simpl. rewrite filter_all_true by done.
    destruct st. exact Hkeeps.
  - apply Forall_cons in Hvalid as [Hm Hgone]. simpl.
    rewrite isValidKey_validKey, Hm.
    destruct (delete_open this s st _ Hkeeps Hm) as (this1 & Hdel & Hkeeps1).
    rewrite Hdel.
    rewrite (List.filter_ext _
               (fun r => negb (sameKey (get r (keyPath st))
                                 (get m (keyPath st))))) in Hkeeps1
      by (intros r; unfold keyOf; by rewrite evaluateKeyPath_plain).
    destruct (IH this1
                (withRecords st (keyGenerator st)
                   (List.filter
                      (fun r => negb (sameKey (get r (keyPath st))
                                        (get m (keyPath st))))
                      (records st)))
                Hkeeps1 Hplain Hgone) as (this2 & Hrest & Hkeeps2).
    simpl in Hrest. rewrite Hrest. exists this2. split; [reflexivity|].
    simpl in Hkeeps2. unfold survivors in *. rewrite filter_twice in Hkeeps2.
    exact Hkeeps2.
Qed.

Lemma promiseAll_fulfilled {A} (l : list A) :
  promiseAll (List.map (fun _ => Fulfilled tt) l)
  = Fulfilled (List.map (fun _ => tt) l).
Proof. induction l as [|x l IH]; simpl; [|rewrite IH]; reflexivity. Qed.

Lemma survivors_self (path : string) (rs : list (gmap string value)) :
  survivors path rs rs = [].
Proof.
  unfold survivors. apply filter_none, Forall_forall. intros r Hr.
  apply not_true_is_false. intros Hall.
  rewrite forallb_forall in Hall.
  specialize (Hall r (proj1 (list_elem_of_In _ _) Hr)).
  by rewrite sameKey_refl in Hall.
Qed.

End DeleteAll.

(** C9, the claim as written, at a store [todos] that the database had
    before, kept under the key [id], opened at a higher version with a
    schema whose key column is [slug]: [open] passes the store over and is
    fulfilled, and awaiting [delete()] is fulfilled as well, but the
    deletes it issues are for the values of [slug], which are keys of no
    record.  Every record is still there. *)
Lemma delete_on_a_store_kept_under_another_key :
  let '(slug, h) :=
    Todo.chained ColumnDefinitionBuilder.STRING
      [ColumnDefinitionBuilder.OpPrimaryKey] ColumnDefinitionBuilder.emptyHeap in
  let rows : list (gmap string JS.value) :=
    [ {[ "id" := JS.VNum 1; "slug" := JS.VStr "a" ]};
      {[ "id" := JS.VNum 2; "slug" := JS.VStr "b" ]} ] in
  let disk :=
    IDB.mkDisk 1
      (Backend.mkDatabase {[ "todos" := Backend.mkStore "id" true [] 3 rows ]}
         []) in
  let this :=
    (IDB.indexedDBOpen disk
       (IDB.open h [("todos", [("slug", slug)])] (IDB.new "todo" 2))).1 in
  IDB.isReady this = JS.Fulfilled tt
  ∧ (IDB.call "todos" (IDB.Delete None) this).1 = inr (JS.Fulfilled IDB.Void)
  ∧ Todo.rowsOf
      (IDB.call "todos" IDB.GetAll (IDB.call "todos" (IDB.Delete None) this).2)
    = rows.
Proof. vm_compute. repeat split. Qed.

(** C9 (amended).  On an open engine whose transactions commit, for a
    store kept under the schema's key column, that column having a plain
    name (not empty, no period in it, so that the engine reads the key
    where the backend keeps it), awaiting the object [delete()] returns
    without calling [where()] runs the delete with no conditions: every
    record of the store matches, a delete is issued for each, and the store
    is left with no records.  (The records carry valid keys, as the backend
    sees to: numbers, strings, Dates and arrays of these, the keys the
    engine takes for keys.)  A store that [open] passed over because the
    database had it may be kept under another key; there the deletes are
    for the values of the schema's key column and remove the records
    stored under those values only. *)
Theorem delete_without_where_deletes_every_record
    (this : IDB.IDB) (storeName primaryKeyPath : string)
    (storeSchema : IDB.StoreSchema) (st : Backend.IDBObjectStore) :
  Spec.keeps this storeName st →
  IDB.tables this !! storeName = Some storeSchema →
  IDB.getPrimaryKeyPath storeSchema = Some primaryKeyPath →
  Spec.plainName primaryKeyPath = true →
  Backend.keyPath st = primaryKeyPath →
  Forall (fun r => Backend.validKey (Backend.keyOf st r) = true)
    (Backend.records st) →
  QueryBuilder.applyQuery IDB.createDeleteQuery (Backend.records st)
  = Backend.records st
  ∧ ∃ this' st',
      IDB.call storeName (IDB.Delete None) this
      = (inr (JS.Fulfilled IDB.Void), this')
      ∧ Spec.keeps this' storeName st'
      ∧ Backend.records st' = []
      ∧ Backend.keyPath st' = Backend.keyPath st.
Proof.
  intros Hkeeps Htable Hpk Hplain Hpath Hvalid.
  split; [apply applyQuery_new|].
  unfold IDB.call. rewrite Htable.
  unfold IDB.deleteThen, IDB.executeDelete, IDB.createDeleteQuery.
  destruct (getAllRecords_open this storeName st (keeps_holds _ _ _ Hkeeps))
    as (this1 & Hall & _ & _ & Hkeeps1).
  specialize (Hkeeps1 Hkeeps).
  rewrite Hall, applyQuery_new, Hpk. simpl.
  assert (Hne : primaryKeyPath ≠ EmptyString).
  { intros ->. discriminate Hplain. }
  destruct (String.eqb_spec primaryKeyPath EmptyString) as [|_]; [done|].
  simpl. subst primaryKeyPath.
  assert (Hflat : Forall (fun r => Backend.validKey
                                     (JS.get r (Backend.keyPath st)) = true)
                    (Backend.records st)).
  { eapply Forall_impl; [exact Hvalid|]. intros r. unfold Backend.keyOf.
    by rewrite (evaluateKeyPath_plain _ r Hplain). }
  destruct (deleteEach_open (Backend.records st) this1 storeName st
              Hkeeps1 Hplain Hflat) as (this2 & Heach & Hkeeps2).
  rewrite Heach, promiseAll_fulfilled. simpl.
  eexists this2, _. split; [reflexivity|]. split; [exact Hkeeps2|].
  simpl. split; [apply survivors_self|reflexivity].
Qed.

Section UpdateStore.
Import JS ColumnDefinitionBuilder Backend IDB Spec.
Local Open Scope list_scope.

Lemma place_over (path : string) (key : value)
    (front back : list (gmap string value)) (r w : gmap string value) :
  Forall (fun a => compareKeys key (evaluateKeyPath path a) = Gt) front →
  compareKeys key (evaluateKeyPath path r) = Eq →
  place path key w (front ++ r :: back) = front ++ w :: back.
Proof.
  intros Hfront Heq. induction Hfront as [|a front Ha _ IH]; simpl.
  - by rewrite Heq.
  - by rewrite Ha, IH.
Qed.

Lemma updatedRecord_key (path : string) (dataToSet r : gmap string value)
    (now : value) :
  path ≠ "updatedAt" ∨ has "updatedAt" dataToSet = true →
  get (updatedRecord path dataToSet r now) path = get r path.
Proof.
  intros Hcase. unfold get. rewrite updatedRecord_lookup.
  rewrite (bool_decide_eq_true_2 (path = path)) by done.
  destruct Hcase as [Hne|Hhas].
  - by rewrite bool_decide_eq_false_2.
  - by rewrite Hhas, andb_false_r.
Qed.

Lemma put_open (this : IDB) (s : string) (st : IDBObjectStore)
    (front back : list (gmap string value)) (r w : gmap string value) :
  keeps this s st →
  plainName (keyPath st) = true →
  indexes st = [] →
  records st = front ++ r :: back →
  get w (keyPath st) = get r (keyPath st) →
  validKey (get r (keyPath st)) = true →
  Forall (fun a => compareKeys (get r (keyPath st)) (get a (keyPath st)) = Gt)
    front →
  ∃ this' gen,
    transaction s readwrite (storePut w) this
    = (Fulfilled (get r (keyPath st)), this')
    ∧ keeps this' s (withRecords st gen (front ++ w :: back)).
Proof.
  intros Hkeeps Hplain Hindexes Hrecords Hkey Hvalid Hfront.
  assert (Hdefined : isUndefined (get r (keyPath st)) = false)
    by (destruct (get r (keyPath st)); simpl in *; congruence).
  assert (Hput : ∃ gen, storePut w readwrite st
                        = Succeeds (get r (keyPath st))
                            (withRecords st gen (front ++ w :: back))).
  { unfold storePut, keyed, keyOf.
    rewrite (evaluateKeyPath_plain _ w Hplain), Hkey, Hdefined, Hvalid.
    unfold violatesUnique. rewrite Hindexes. simpl.
    rewrite Hrecords, (place_over _ _ front back r w).
    - by eexists.
    - eapply Forall_impl; [exact Hfront|]. intros a.
      by rewrite (evaluateKeyPath_plain _ a Hplain).
    - rewrite (evaluateKeyPath_plain _ r Hplain). apply compareKeys_refl. }
  destruct Hput as [gen Hput].
  destruct (transaction_commits this s st _ _ _ Hkeeps Hput)
    as (this' & Hrun & Hkeeps').
  by exists this', gen.
Qed.

Lemma putEach_open (q : QueryBuilder.QueryBuilder)
    (dataToSet : gmap string value) (clock : nat → value)
    (rs : list (gmap string value)) :
  ∀ (i : nat) (this : IDB) (s : string) (st : IDBObjectStore)
    (front : list (gmap string value)),
    keeps this s st →
    plainName (keyPath st) = true →
    indexes st = [] →
    keyPath st ≠ "updatedAt" ∨ has "updatedAt" dataToSet = true →
    records st = front ++ rs →
    keyOrdered (keyPath st) (front ++ rs) →
    Forall (fun r => validKey (get r (keyPath st)) = true) rs →
    ∃ this' gen keys,
      putEach s (keyPath st) dataToSet clock i
        (List.filter (QueryBuilder.matches q) rs) this
      = (List.map Fulfilled keys, this')
      ∧ keeps this' s
          (withRecords st gen
             (front ++ merged q (keyPath st) dataToSet clock i rs)).
Proof.
  induction rs as [|r rs IH];
    intros i this s st front Hholds Hplain Hindexes Hcase Hrecords Hordered
      Hvalid.
  - simpl. exists this, (keyGenerator st), []. split; [reflexivity|].
    rewrite <- Hrecords. by destruct st.
  - apply Forall_cons in Hvalid as [Hr Hvalid]. simpl.
    assert (Hnext : ∀ w, get w (keyPath st) = get r (keyPath st) →
              keyOrdered (keyPath st) ((front ++ [w]) ++ rs)).
    { intros w Hw. unfold keyOrdered in *. rewrite <- app_assoc. simpl.
      clear -Hordered Hw. induction front as [|a front IHf]; simpl in *.
      - apply StronglySorted_inv in Hordered as [Hs Hall].
        constructor; [exact Hs|]. by rewrite Hw.
      - apply StronglySorted_inv in Hordered as [Hs Hall].
        constructor; [by apply IHf|].
        rewrite Forall_app in Hall |- *. destruct Hall as [Hfront Hback].
        split; [exact Hfront|].
        apply Forall_cons in Hback as [Hhead Hback].
        constructor; [by rewrite Hw|exact Hback]. }
    destruct (QueryBuilder.matches q r) eqn:Hmatch.
    + simpl.
      assert (Hkey : get (updatedRecord (keyPath st) dataToSet r (clock i))
                       (keyPath st) = get r (keyPath st))
        by (by apply updatedRecord_key).
      assert (Hfront : Forall (fun a => compareKeys (get r (keyPath st))
                                          (get a (keyPath st)) = Gt) front).
      { clear -Hordered. unfold keyOrdered in Hordered.
        induction front as [|a front IHf]; [constructor|]. simpl in Hordered.
        apply StronglySorted_inv in Hordered as [Hs Hall].
        constructor; [|by apply IHf].
        rewrite Forall_app in Hall. destruct Hall as [_ Hback].
        by apply Forall_cons in Hback as [Hhead _]. }
      destruct (put_open this s st front rs r _ Hholds Hplain Hindexes
                  Hrecords Hkey Hr Hfront) as (this1 & gen1 & Hput & Hholds1).
      rewrite Hput.
      destruct (IH (S i) this1 s _
                  (front ++ [updatedRecord (keyPath st) dataToSet r (clock i)])
                  Hholds1 Hplain Hindexes Hcase)
        as (this2 & gen2 & keys & Hrest & Hholds2).
      * simpl. by rewrite <- app_assoc.
      * simpl. by apply Hnext.
      * exact Hvalid.
      * simpl in Hrest. rewrite Hrest.
        exists this2, gen2, (get r (keyPath st) :: keys).
        split; [reflexivity|]. simpl in Hholds2.
        by rewrite <- app_assoc in Hholds2.
    + destruct (IH i this s st (front ++ [r]) Hholds Hplain Hindexes Hcase)
        as (this2 & gen2 & keys & Hrest & Hholds2).
      * rewrite Hrecords. by rewrite <- app_assoc.
      * by apply Hnext.
      * exact Hvalid.
      * exists this2, gen2, keys. split; [exact Hrest|].
        by rewrite <- app_assoc in Hholds2.
Qed.

Lemma promiseAll_keys {A} (keys : list A) :
  promiseAll (List.map Fulfilled keys) = Fulfilled keys.
Proof. induction keys as [|k keys IH]; simpl; [|rewrite IH]; reflexivity. Qed.

Lemma applyQuery_where (conds : gmap string value)
    (data : list (gmap string value)) :
  QueryBuilder.applyQuery (QueryBuilder.where_ conds QueryBuilder.new) data
  = List.filter
      (QueryBuilder.matches (QueryBuilder.where_ conds QueryBuilder.new)) data.
Proof. reflexivity. Qed.

(** An update on an open engine whose transactions commit, on a store
    without unique indexes kept under the schema's key column, a plain
    name: every matching record is replaced by its merge, in place, and the
    other records are as they were. *)
Lemma updateWhere_open (this : IDB) (s : string) (storeSchema : StoreSchema)
    (st : IDBObjectStore) (dataToSet conds : gmap string value)
    (clock : nat → value) :
  keeps this s st →
  getPrimaryKeyPath storeSchema = Some (keyPath st) →
  plainName (keyPath st) = true →
  keyPath st ≠ "updatedAt" ∨ has "updatedAt" dataToSet = true →
  indexes st = [] →
  keyOrdered (keyPath st) (records st) →
  Forall (fun r => validKey (get r (keyPath st)) = true) (records st) →
  ∃ this' gen,
    updateWhere s storeSchema dataToSet conds clock this
    = (Fulfilled tt, this')
    ∧ keeps this' s
        (withRecords st gen
           (merged (QueryBuilder.where_ conds QueryBuilder.new) (keyPath st)
              dataToSet clock O (records st))).
Proof.
  intros Hkeeps Hpk Hplain Hcase Hindexes Hordered Hvalid.
  unfold updateWhere.
  destruct (getAllRecords_open this s st (keeps_holds _ _ _ Hkeeps))
    as (this1 & Hall & _ & _ & Hkeeps1).
  specialize (Hkeeps1 Hkeeps).
  rewrite Hall, Hpk, applyQuery_where. simpl.
  assert (Hne : keyPath st ≠ EmptyString).
  { intros Heq. rewrite Heq in Hplain. discriminate Hplain. }
  destruct (String.eqb_spec (keyPath st) EmptyString) as [|_]; [done|].
  simpl.
  destruct (putEach_open (QueryBuilder.where_ conds QueryBuilder.new)
              dataToSet clock (records st) O this1 s st [] Hkeeps1 Hplain
              Hindexes Hcase eq_refl Hordered Hvalid)
    as (this2 & gen & keys & Heach & Hkeeps2).
  rewrite Heach, promiseAll_keys. simpl.
  exists this2, gen. split; [reflexivity|exact Hkeeps2].
Qed.

End UpdateStore.

(** C5, the claim as written, at a store whose key column is the column
    named [updatedAt]: the record [{ updatedAt: 5 }] updated with
    [set({})] is written back with the time of the update, 9, in its key
    field.  The key did not keep its value. *)
Lemma stamp_overwrites_key_named_updatedAt :
  let record : gmap string JS.value := {[ "updatedAt" := JS.VNum 5 ]} in
  IDB.getPrimaryKeyPath
    [("updatedAt",
      ColumnDefinitionBuilder.mkColumnDefinition ColumnDefinitionBuilder.NUMBER
        (Some true) None None None)]
  = Some "updatedAt"
  ∧ IDB.updatedRecord "updatedAt" ∅ record (JS.VDate 1 9) !! "updatedAt"
    = Some (JS.VDate 1 9)
  ∧ IDB.updatedRecord "updatedAt" ∅ record (JS.VDate 1 9) !! "updatedAt"
    ≠ record !! "updatedAt".
Proof. vm_compute. repeat split; congruence. Qed.

(** C5 (amended).  The record written for a matched record is the shallow
    merge of [partial] onto it in which: the [updatedAt] field is stamped
    with the current time exactly when [partial] has no [updatedAt] key;
    the primary-key field keeps its original value even if [partial] has a
    value for it, unless the key column is itself the column named
    [updatedAt] and is being stamped; every other field named in [partial]
    takes the value [partial] gives; and every field not named in
    [partial], other than [updatedAt], is unchanged.  On an open engine
    whose transactions commit, for a store kept under the schema's key
    column (a plain name, so that the backend reads the key where the
    engine reads it), the update puts that record in the place of each
    record that matches and leaves the other records of the store as they
    were. *)
Theorem update_merges_partial_onto_record
    (primaryKeyPath : string) (partial record : gmap string JS.value)
    (now : JS.value) :
  let written := IDB.updatedRecord primaryKeyPath partial record now in
  (JS.has "updatedAt" partial = false → written !! "updatedAt" = Some now)
  ∧ (JS.has "updatedAt" partial = true → primaryKeyPath ≠ "updatedAt" →
     written !! "updatedAt" = partial !! "updatedAt")
  ∧ (primaryKeyPath ≠ "updatedAt" ∨ JS.has "updatedAt" partial = true →
     written !! primaryKeyPath = record !! primaryKeyPath)
  ∧ (∀ k, k ≠ primaryKeyPath → k ≠ "updatedAt" → JS.has k partial = true →
          written !! k = partial !! k)
  ∧ (∀ k, k ≠ "updatedAt" → JS.has k partial = false →
          written !! k = record !! k)
  ∧ (∀ (this : IDB.IDB) (s : string) (storeSchema : IDB.StoreSchema)
       (st : Backend.IDBObjectStore) (conds : gmap string JS.value)
       (clock : nat → JS.value),
       Spec.keeps this s st →
       Backend.keyPath st = primaryKeyPath →
       IDB.getPrimaryKeyPath storeSchema = Some primaryKeyPath →
       Spec.plainName primaryKeyPath = true →
       primaryKeyPath ≠ "updatedAt" ∨ JS.has "updatedAt" partial = true →
       Backend.indexes st = [] →
       Spec.keyOrdered primaryKeyPath (Backend.records st) →
       Forall (fun r => Backend.validKey (JS.get r primaryKeyPath) = true)
         (Backend.records st) →
       ∃ this' gen,
         IDB.updateWhere s storeSchema partial conds clock this
         = (JS.Fulfilled tt, this')
         ∧ Spec.keeps this' s
             (Backend.withRecords st gen
                (Spec.merged (QueryBuilder.where_ conds QueryBuilder.new)
                   primaryKeyPath partial clock O (Backend.records st)))).
Proof.
  intros written. subst written. split; [|split; [|split; [|split; [|split]]]].
  - intros Hno. rewrite updatedRecord_lookup, Hno.
    by rewrite bool_decide_eq_true_2.
  - intros Hhas Hpk. rewrite updatedRecord_lookup, Hhas, andb_false_r.
    rewrite bool_decide_eq_false_2 by done.
    apply has_true in Hhas as [v Hv]. by rewrite Hv.
  - intros Hcase. rewrite updatedRecord_lookup.
    rewrite (bool_decide_eq_true_2 (primaryKeyPath = primaryKeyPath)) by done.
    destruct Hcase as [Hne|Hhas].
    + by rewrite bool_decide_eq_false_2.
    + by rewrite Hhas, andb_false_r.
  - intros k Hpk Hu Hhas. rewrite updatedRecord_lookup.
    rewrite !bool_decide_eq_false_2 by done. simpl.
    apply has_true in Hhas as [v Hv]. by rewrite Hv.
  - intros k Hu Hno. rewrite updatedRecord_lookup.
    rewrite (bool_decide_eq_false_2 (k = "updatedAt")) by done. simpl.
    apply has_false in Hno. rewrite Hno. by case_bool_decide.
  - intros this s storeSchema st conds clock Hholds <- Hpk Hne Hcase Hindexes
      Hordered Hvalid.
    by apply updateWhere_open.
Qed.

Lemma update_merges_partial_onto_record_witness :
  let partial : gmap string JS.value :=
    {[ "completed" := JS.VBool true; "id" := JS.VNum 77 ]} in
  let record : gmap string JS.value :=
    {[ "id" := JS.VNum 1; "completed" := JS.VBool false;
       "updatedAt" := JS.VNull ]} in
  IDB.updatedRecord "id" partial record (JS.VDate 0 1000) !! "id"
  = record !! "id".
Proof.
  intros partial record.
  apply (proj1 (proj2 (proj2
           (update_merges_partial_onto_record "id" partial record
              (JS.VDate 0 1000))))).
  left. discriminate.
Defined.

Section Open.
Import JS ColumnDefinitionBuilder Backend IDB Spec.

Lemma scan_without_key (s : string) (columns : StoreSchema)
    (p : option string) (a : bool) :
  primaryKeyCount columns = O → scanPrimaryKey s columns p a = inr (p, a).
Proof.
  unfold primaryKeyCount. revert p a.
  induction columns as [|[c d] columns IH]; intros p a Hcount; simpl in *;
    [reflexivity|].
  unfold isPrimaryKeyColumn in Hcount at 1. simpl in Hcount.
  destruct (truthy (_isPrimaryKey d)); [discriminate|]. by apply IH.
Qed.

Lemma scan_second_key (s : string) (columns : StoreSchema)
    (p : option string) (a : bool) :
  truthyString p = true → (1 ≤ primaryKeyCount columns)%nat →
  scanPrimaryKey s columns p a = inl (MultiplePrimaryKeys s).
Proof.
  unfold primaryKeyCount. intros Hp. revert a.
  induction columns as [|[c d] columns IH]; intros a Hcount; simpl in *;
    [lia|].
  unfold isPrimaryKeyColumn in Hcount at 1. simpl in Hcount.
  destruct (truthy (_isPrimaryKey d)).
  - by rewrite Hp.
  - by apply IH.
Qed.

Lemma scan_invalid (s : string) (columns : StoreSchema)
    (p : option string) (a : bool) (e : error) :
  scanPrimaryKey s columns p a = inl e → isInvalidSchema e = true.
Proof.
  revert p a. induction columns as [|[c d] columns IH]; intros p a; simpl;
    [discriminate|].
  repeat match goal with
         | |- context [if ?b then _ else _] => destruct b
         end; try apply IH; by intros [= <-].
Qed.

(** The scan over columns whose key columns that count are none, or two
    and more: it throws, or it ends with no key column found. *)
Lemma scan_offending (s : string) (columns : StoreSchema) :
  ∀ (p : option string) (a : bool),
    truthyString p = false →
    offending columns →
    (∃ e, scanPrimaryKey s columns p a = inl e)
    ∨ (∃ p' a', scanPrimaryKey s columns p a = inr (p', a')
                ∧ truthyString p' = false).
Proof.
  unfold offending, countedKeys.
  induction columns as [|[c d] columns IH]; intros p a Hp Hoff; simpl in *.
  { right. by exists p, a. }
  unfold isPrimaryKeyColumn in Hoff at 1. simpl in Hoff.
  destruct (truthy (_isPrimaryKey d)) eqn:Hkey; [|by apply IH].
  rewrite Hp.
  destruct (String.eqb_spec c EmptyString) as [->|Hc].
  - simpl in Hoff.
    destruct (truthy (_isAutoIncrement d)); [destruct (bool_decide _)|];
      try (left; by eexists); by apply IH.
  - assert (Hrest : (1 ≤ primaryKeyCount columns)%nat).
    { unfold primaryKeyCount. destruct c; [done|]. simpl in Hoff.
      destruct (List.filter isPrimaryKeyColumn columns); simpl in *; [done|lia]. }
    assert (Htruthy : truthyString (Some c) = true).
    { simpl. by destruct (String.eqb_spec c EmptyString). }
    left. destruct (truthy (_isAutoIncrement d)); [destruct (bool_decide _)|];
      try (by eexists);
      rewrite scan_second_key by assumption; by eexists.
Qed.

(** The key column the scan ends with is a column. *)
Lemma scan_found (s : string) (columns : StoreSchema) :
  ∀ (p0 p : option string) (a0 a : bool),
    scanPrimaryKey s columns p0 a0 = inr (p, a) →
    p = p0 ∨ ∃ c, p = Some c ∧ In c (List.map fst columns).
Proof.
  induction columns as [|[c d] columns IH]; intros p0 p a0 a; simpl.
  { intros [= <- _]. by left. }
  assert (Hstep : ∀ a1, scanPrimaryKey s columns (Some c) a1 = inr (p, a) →
            p = p0 ∨ ∃ c', p = Some c' ∧ (c = c' ∨ In c' (List.map fst columns))).
  { intros a1 H. right. destruct (IH _ _ _ _ H) as [->|(c' & -> & Hin)];
      eauto. }
  destruct (truthy (_isPrimaryKey d)).
  - destruct (truthyString p0); [discriminate|].
    destruct (truthy (_isAutoIncrement d)); [destruct (bool_decide _)|];
      try discriminate; apply Hstep.
  - intros H. destruct (IH _ _ _ _ H) as [->|(c' & -> & Hin)]; eauto.
Qed.

Lemma storeCreateIndex_thrown (name path : string) (uniq : bool)
    (st : IDBObjectStore) (e : error) :
  containsIndex name st = false →
  storeCreateIndex name path uniq st = inl e →
  isKeyPathRefusal e = true ∧ validKeyPath path = false.
Proof.
  unfold storeCreateIndex. intros ->.
  destruct (validKeyPath path); simpl; [discriminate|].
  by intros [= <-].
Qed.

(** The loop over the unique columns throws for a column name that is no
    valid key path, and for nothing else. *)
Lemma createIndexes_thrown (s path : string) (columns : StoreSchema) :
  ∀ (st st' : IDBObjectStore) (w w' : list string) (e : error),
    createIndexes s path columns st w = (st', w', Some e) →
    isKeyPathRefusal e = true
    ∧ ¬ Forall (fun col => validKeyPath col.1 = true) columns.
Proof.
  induction columns as [|[c d] columns IH]; intros st st' w w' e; simpl;
    [discriminate|].
  assert (Hrest : ∀ x y, createIndexes s path columns x y = (st', w', Some e) →
            isKeyPathRefusal e = true
            ∧ ¬ Forall (fun col => validKeyPath col.1 = true)
                  ((c, d) :: columns)).
  { intros x y H. destruct (IH _ _ _ _ _ H) as [He Hnot]. split; [exact He|].
    intros Hall. apply Forall_cons in Hall as [_ Hall]. by apply Hnot. }
  destruct (truthy (_isUnique d) && negb (c =? path)%string); [|apply Hrest].
  destruct (containsIndex (uniqueIndexName c) st) eqn:Hin; [apply Hrest|].
  destruct (storeCreateIndex (uniqueIndexName c) c true st) as [e'|st1]
    eqn:Hcreate; [|apply Hrest].
  intros [= _ _ <-].
  destruct (storeCreateIndex_thrown _ _ _ _ _ Hin Hcreate) as [He Hpath].
  split; [exact He|]. intros Hall. apply Forall_cons in Hall as [Hc _].
  simpl in Hc. congruence.
Qed.

(** What [createObjectStore] can do.  It adds at most the one store; what
    it throws is an InvalidSchema error, the database being as it was, or
    the error of the backend for a column name that is no valid key path;
    and for columns that offend, on a database without the store, it is
    the former. *)
Lemma createObjectStore_cases (s : string) (columns : StoreSchema)
    (db : IDBDatabase) :
  ∃ db' warnings thrown,
    createObjectStore s columns db = (db', warnings, thrown)
    ∧ (∀ name, containsStore name db' = true →
               containsStore name db = true ∨ name = s)
    ∧ (∀ e, thrown = Some e →
            (isInvalidSchema e = true ∧ db' = db)
            ∨ (isKeyPathRefusal e = true
               ∧ ¬ Forall (fun col => validKeyPath col.1 = true) columns
               ∧ ¬ offending columns))
    ∧ (containsStore s db = false → offending columns →
       db' = db ∧ ∃ e, thrown = Some e ∧ isInvalidSchema e = true).
Proof.
  unfold createObjectStore.
  destruct (containsStore s db) eqn:Hin.
  { do 3 eexists. split; [reflexivity|]. split; [auto|]. split; done. }
  destruct (scanPrimaryKey s columns None false) as [e|[p a]] eqn:Hscan.
  { do 3 eexists. split; [reflexivity|]. split; [auto|]. split.
    - intros e' [= <-]. left. split; [eapply scan_invalid, Hscan|reflexivity].
    - intros _ _. split; [reflexivity|]. exists e.
      split; [reflexivity|eapply scan_invalid, Hscan]. }
  assert (Hoff : truthyString p = true → ¬ offending columns).
  { intros Hp Hoff.
    destruct (scan_offending s columns None false eq_refl Hoff)
      as [[e He]|(p' & a' & Hp' & Hfalsy)]; congruence. }
  destruct (truthyString p) eqn:Hp; simpl.
  2:{ do 3 eexists. split; [reflexivity|]. split; [auto|]. split.
      - intros e' [= <-]. by left.
      - intros _ _. split; [reflexivity|]. by eexists. }
  specialize (Hoff eq_refl).
  unfold dbCreateObjectStore. rewrite Hin.
  assert (Hne : (default EmptyString p =? EmptyString)%string = false).
  { destruct p as [text|]; [|discriminate]. simpl in *.
    by apply negb_true_iff in Hp. }
  rewrite Hne, andb_false_r.
  destruct (validKeyPath (default EmptyString p)) eqn:Hvalid; simpl.
  2:{ do 3 eexists. split; [reflexivity|]. split; [auto|]. split; [|done].
      intros e' [= <-]. right. split; [reflexivity|]. split; [|exact Hoff].
      intros Hall.
      destruct (scan_found _ _ _ _ _ _ Hscan) as [->|(c & -> & Hc)];
        [discriminate|].
      apply in_map_iff in Hc as ([c' d] & <- & Hcol).
      rewrite Forall_forall in Hall.
      specialize (Hall _ (proj2 (list_elem_of_In _ _) Hcol)). simpl in *.
      congruence. }
  destruct (createIndexes s (default EmptyString p) columns
              (mkStore (default EmptyString p) a [] 1 []) [])
    as [[st' w] thrown] eqn:Hidx.
  do 3 eexists. split; [reflexivity|]. split; [|split; [|done]].
  - intros name. unfold containsStore, putStore. simpl.
    rewrite !bool_decide_eq_true. intros Hsome.
    destruct (decide (s = name)) as [->|Hname]; [by right|left].
    by rewrite !lookup_insert_ne in Hsome.
  - intros e ->. right.
    destruct (createIndexes_thrown _ _ _ _ _ _ _ _ Hidx) as [He Hnot].
    by repeat split.
Qed.


End Open.

Section OpenProperties.
Import JS ColumnDefinitionBuilder Backend IDB Spec.

Lemma rejectReady_pending (e : error) (this : IDB) :
  readyPromise this = Pending → readyPromise (rejectReady e this) = Rejected e.
Proof. intros H. unfold rejectReady. simpl. by rewrite H. Qed.

Lemma onerror_rejected (e e' : error) (this : IDB) :
  readyPromise this = Rejected e →
  readyPromise (onerror e' this) = Rejected e.
Proof. intros H. unfold onerror, rejectReady. simpl. by rewrite H. Qed.

Lemma onerror_tables (e : error) (this : IDB) :
  tables (onerror e this) = tables this.
Proof. reflexivity. Qed.

Lemma onupgradeneeded_tables (db : IDBDatabase) (this : IDB) :
  tables (onupgradeneeded db this).1 = tables this.
Proof.
  unfold onupgradeneeded.
  destruct (createObjectStores _ db) as [[db' w] [e|]]; reflexivity.
Qed.

Lemma onupgradeneeded_ready (db : IDBDatabase) (this : IDB) :
  readyPromise this = Pending →
  match (onupgradeneeded db this).2 with
  | Some e => readyPromise (onupgradeneeded db this).1 = Rejected e
  | None => readyPromise (onupgradeneeded db this).1 = Pending
  end.
Proof.
  intros Hpending. unfold onupgradeneeded.
  destruct (createObjectStores _ db) as [[db' w] [e|]]; simpl;
    [by rewrite Hpending | exact Hpending].
Qed.

Lemma onsuccess_ready (db : IDBDatabase) (this : IDB) :
  readyPromise this = Pending →
  readyPromise (onsuccess db this) = Fulfilled tt.
Proof. intros H. unfold onsuccess, resolveReady. simpl. by rewrite H. Qed.

(** While the promise of [open] is not fulfilled, [tables] is as the
    constructor left it. *)
Lemma tables_empty_until_ready (disk : Disk) (this0 this : IDB) :
  readyPromise this0 = Pending → tables this0 = ∅ →
  In this (openStates disk this0) →
  readyPromise this ≠ Fulfilled tt →
  tables this = ∅.
Proof.
  intros Hpending Hempty Hin Hnot. unfold openStates in Hin.
  destruct Hin as [<-|Hin]; [exact Hempty|].
  apply in_app_or in Hin as [Hin|[<-|[]]].
  - destruct (validVersion (version this0)
              && (diskVersion disk <? version this0)%Z); [|destruct Hin].
    destruct Hin as [<-|[]].
    by rewrite (onupgradeneeded_tables (diskDatabase disk) this0).
  - unfold indexedDBOpen in *.
    destruct (negb (validVersion (version this0))); [exact Hempty|].
    destruct (version this0 <? diskVersion disk)%Z; [exact Hempty|].
    destruct (diskVersion disk <? version this0)%Z.
    + pose proof (onupgradeneeded_ready (diskDatabase disk) this0 Hpending)
        as Hready.
      pose proof (onupgradeneeded_tables (diskDatabase disk) this0) as Htab.
      destruct (onupgradeneeded (diskDatabase disk) this0) as [this1 [e|]].
      * simpl in Htab |- *. congruence.
      * destruct Hnot. simpl in Hready.
        exact (onsuccess_ready _ this1 Hready).
    + destruct Hnot. by apply onsuccess_ready.
Qed.

End OpenProperties.




(** The backend's refusal at work: the store [a] is keyed by a column
    named [my-id], which is no valid key path, and the store [b] behind it
    has no key column.  The upgrade stops at [a] with the SyntaxError of
    the backend, before [b] is looked at; the promise of [open] is
    rejected with that error and the database stays as it was. *)
Example backend_refuses_key_column_name :
  let schema : IDB.IDBSchema :=
    [("a", [("my-id",
        ColumnDefinitionBuilder.mkColumnDefinition
          ColumnDefinitionBuilder.NUMBER (Some true) None None None)]);
     ("b", [("title",
        ColumnDefinitionBuilder.mkColumnDefinition
          ColumnDefinitionBuilder.STRING None None None None)])] in
  let this := IDB.openParsed schema (IDB.new "MyDatabase" 1) in
  let disk := IDB.mkDisk 0 (Backend.mkDatabase ∅ []) in
  (IDB.onupgradeneeded (IDB.diskDatabase disk) this).2
  = Some (JS.BackendError "SyntaxError")
  ∧ IDB.openReturns disk this = JS.Rejected (JS.BackendError "SyntaxError")
  ∧ (IDB.indexedDBOpen disk this).2 = disk
  ∧ IDB.tables (IDB.indexedDBOpen disk this).1 = ∅.
Proof. vm_compute. repeat split. Qed.

(** A version the backend does not take: [window.indexedDB.open] throws,
    the promise of [open] is rejected with its TypeError, and the
    readiness promise stays pending for good. *)
Example open_at_version_zero :
  let this := IDB.open Todo.appSchema.2 Todo.appSchema.1 (IDB.new "todo" 0) in
  IDB.openReturns Todo.freshDisk this = JS.Rejected JS.VersionTypeError
  ∧ IDB.isReady (IDB.indexedDBOpen Todo.freshDisk this).1 = JS.Pending
  ∧ (IDB.indexedDBOpen Todo.freshDisk this).2 = Todo.freshDisk.
Proof. vm_compute. repeat split. Qed.

(** During a first [open] on a fresh engine, while the readiness promise
    has not been fulfilled, [tables] has no store: every CRUD operation
    throws the TypeError of reading the method off a missing store, and
    nothing else happens.  The guard of the transaction gateway, which
    rejects with the NotOpen error while no backend connection exists, is
    behind [tables] and is not reached. *)
Lemma first_open_calls_throw
    (disk : IDB.Disk) (this0 this : IDB.IDB) (storeName : string)
    (c : IDB.crud) :
  IDB.readyPromise this0 = JS.Pending →
  IDB.tables this0 = ∅ →
  In this (IDB.openStates disk this0) →
  IDB.readyPromise this ≠ JS.Fulfilled tt →
  IDB.call storeName c this
  = (inl (JS.TypeErrorOfUndefined (IDB.methodName c)), this)
  ∧ (∀ (T : Type) mode
       (task : Backend.IDBTransactionMode → Backend.IDBObjectStore
               → Backend.issued T)
       (engine : IDB.IDB),
       IDB._db engine = None →
       IDB.transaction storeName mode task engine
       = (JS.Rejected JS.DatabaseNotOpen, engine)).
Proof.
  intros Hpending Hempty Hin Hnot. split.
  - unfold IDB.call.
    rewrite (tables_empty_until_ready disk this0 this Hpending Hempty Hin Hnot).
    by rewrite lookup_empty.
  - intros T mode task engine Hdb. unfold IDB.transaction. by rewrite Hdb.
Qed.

(** C4.  The code at two inputs on which it does not do what the claim
    says, and what its own NotOpen guard in the transaction gateway is
    there for.  First, an engine just after [open] has been called, before
    any notification of the backend: [tables.todos.getAll()] throws the
    TypeError of reading a property of undefined; that is neither a
    rejection nor the NotOpen error.  Second, an engine whose first [open]
    was rejected (the schema had a store with no key column) and on which
    [open] is called again with a schema that is in order: the readiness
    promise stays rejected, yet [tables] is filled, and an insert is not
    refused at all: it is fulfilled with the key 1 and the record is in
    the store. *)
Lemma call_before_ready_is_a_type_error :
  let this :=
    IDB.open ColumnDefinitionBuilder.emptyHeap [("todos", [])]
      (IDB.new "MyDatabase" 1) in
  let '(id, h) :=
    Todo.chained ColumnDefinitionBuilder.NUMBER
      [ColumnDefinitionBuilder.OpPrimaryKey;
       ColumnDefinitionBuilder.OpAutoIncrement]
      ColumnDefinitionBuilder.emptyHeap in
  let '(title, h) := Todo.chained ColumnDefinitionBuilder.STRING [] h in
  let rejected :=
    (IDB.indexedDBOpen Todo.freshDisk
       (IDB.open h [("todos", [("title", title)])] (IDB.new "todo" 1))).1 in
  let reopened :=
    (IDB.indexedDBOpen Todo.freshDisk
       (IDB.open h [("todos", [("id", id); ("title", title)])] rejected)).1 in
  let inserted := IDB.call "todos" (IDB.Insert {[ "title" := JS.VStr "a" ]}) reopened in
  IDB.isReady this = JS.Pending
  ∧ (IDB.call "todos" IDB.GetAll this).1
    = inl (JS.TypeErrorOfUndefined "getAll")
  ∧ (IDB.call "todos" IDB.GetAll this).1
    ≠ inr (JS.Rejected JS.DatabaseNotOpen)
  ∧ IDB.isReady rejected = JS.Rejected (JS.NoPrimaryKey "todos")
  ∧ IDB.isReady reopened = JS.Rejected (JS.NoPrimaryKey "todos")
  ∧ inserted.1 = inr (JS.Fulfilled (IDB.Key (JS.VNum 1)))
  ∧ Todo.rowsOf (IDB.call "todos" IDB.GetAll inserted.2)
    = [ {[ "id" := JS.VNum 1; "title" := JS.VStr "a" ]} ].
Proof. vm_compute. repeat split. discriminate. Qed.

Lemma delete_without_where_deletes_every_record_witness :
  let st :=
    Backend.mkStore "id" true [] 3
      [ {[ "id" := JS.VNum 1; "title" := JS.VStr "a" ]};
        {[ "id" := JS.VNum 2; "title" := JS.VStr "b" ]} ] in
  let columns : IDB.StoreSchema :=
    [("id", ColumnDefinitionBuilder.mkColumnDefinition
              ColumnDefinitionBuilder.NUMBER (Some true) (Some true) None None);
     ("title", ColumnDefinitionBuilder.mkColumnDefinition
                 ColumnDefinitionBuilder.STRING None None None None)] in
  let this :=
    IDB.mkIDB (Some (Backend.mkDatabase {[ "todos" := st ]} [])) "todo" 1
      (Some [("todos", columns)]) (JS.Fulfilled tt) {[ "todos" := columns ]} [] in
  QueryBuilder.applyQuery IDB.createDeleteQuery (Backend.records st)
  = Backend.records st
  ∧ ∃ this' st',
      IDB.call "todos" (IDB.Delete None) this
      = (inr (JS.Fulfilled IDB.Void), this')
      ∧ Spec.keeps this' "todos" st'
      ∧ Backend.records st' = []
      ∧ Backend.keyPath st' = Backend.keyPath st.
Proof.
  intros st columns this.
  apply (delete_without_where_deletes_every_record this "todos" "id"
           columns st).
  - eexists. split; [reflexivity|]. split; reflexivity.
  - reflexivity.
  - reflexivity.
  - reflexivity.
  - reflexivity.
  - repeat constructor.
Defined.

(* ===================================================================== *)
(** * The todo application, run *)
(* ===================================================================== *)

Section TodoRuns.
Import JS Backend IDB Todo.

(** The first [open] creates the store [todos] keyed by [id], with
    generated keys, and fulfils the readiness promise. *)
Example todo_opens :
  readyPromise ready = Fulfilled tt
  ∧ (objectStores <$> _db ready)
    = Some {[ "todos" := mkStore "id" true [] 1 [] ]}.
Proof. vm_compute. split; reflexivity. Qed.

(** [select().orderBy("createdAt", "desc")] lists the newest first. *)
Example todo_newest_first :
  List.map (fun r => get r "title")
    (rowsOf (call "todos"
               (Select [StepOrderBy "createdAt" (Some QueryBuilder.desc)])
               stocked))
  = [VStr "c"; VStr "b"; VStr "a"].
Proof. vm_compute. reflexivity. Qed.

(** [select().where({ completed: false }).limit(1)] *)
Example todo_filter_and_limit :
  List.map (fun r => get r "id")
    (rowsOf (call "todos"
               (Select [StepWhere {[ "completed" := VBool false ]}; StepLimit 1])
               stocked))
  = [VNum 1].
Proof. vm_compute. reflexivity. Qed.

(** [update().set({ completed: true, id: 77 }).where({ id: 1 })]: record 1
    keeps its key, is completed and stamped; the others are as before. *)
Example todo_update_merge :
  let this :=
    (call "todos"
       (Update {[ "completed" := VBool true; "id" := VNum 77 ]}
               {[ "id" := VNum 1 ]} (fun _ => VDate 1 99))
       stocked).2 in
  List.map (fun r => (get r "id", get r "completed", get r "updatedAt"))
    (rowsOf (call "todos" GetAll this))
  = [(VNum 1, VBool true, VDate 1 99);
     (VNum 2, VBool true, VNull);
     (VNum 3, VBool false, VNull)].
Proof. vm_compute. reflexivity. Qed.

(** [delete().where({ id: 2 })], then [delete()] awaited as it is. *)
Example todo_delete :
  let this := (call "todos" (Delete (Some {[ "id" := VNum 2 ]})) stocked).2 in
  List.map (fun r => get r "id") (rowsOf (call "todos" GetAll this))
  = [VNum 1; VNum 3]
  ∧ rowsOf (call "todos" GetAll (call "todos" (Delete None) this).2) = [].
Proof. vm_compute. split; reflexivity. Qed.

End TodoRuns.

(* ===================================================================== *)
(** * Further properties of the column builders *)
(* ===================================================================== *)

Section BuilderLaws.
Import JS ColumnDefinitionBuilder Spec Laws.

Lemma perform_unallocated op this h :
  deref h (definition this) = None → perform op this h = h.
Proof.
  intros Hnone. destruct op; simpl;
    unfold primaryKey, autoIncrement, nullable, unique; by rewrite Hnone.
Qed.

Lemma effect_wellFormed op d : wellFormed d → wellFormed (effect op d).
Proof.
  unfold wellFormed. intros Hd. destruct op as [| |flag|flag]; simpl.
  - intros Ha. destruct (Hd Ha) as [_ Ht]. by split.
  - destruct (truthy (_isPrimaryKey d) && bool_decide (_type d = NUMBER))
      eqn:Hboth; [|exact Hd].
    apply andb_prop in Hboth as [Hpk Ht]. apply bool_decide_eq_true in Ht.
    intros _. by split.
  - exact Hd.
  - destruct (truthy (_isPrimaryKey d) && flag); simpl; exact Hd.
Qed.

Lemma effect_type op d : _type (effect op d) = _type d.
Proof.
  destruct op as [| |flag|flag]; simpl; try reflexivity.
  - by destruct (truthy (_isPrimaryKey d) && bool_decide (_type d = NUMBER)).
  - by destruct (truthy (_isPrimaryKey d) && flag).
Qed.

Lemma effect_primaryKey op d :
  truthy (_isPrimaryKey (effect op d)) = true
  ↔ truthy (_isPrimaryKey d) = true ∨ op = OpPrimaryKey.
Proof.
  destruct op as [| |flag|flag]; simpl.
  - split; auto.
  - destruct (truthy (_isPrimaryKey d) && bool_decide (_type d = NUMBER));
      simpl; split; auto; intros [?|?]; done.
  - split; auto; intros [?|?]; done.
  - destruct (truthy (_isPrimaryKey d) && flag); simpl; split; auto;
      intros [?|?]; done.
Qed.

Lemma effects_type ops d : _type (effects ops d) = _type d.
Proof.
  unfold effects. revert d. induction ops as [|op ops IH]; intros d; simpl;
    [reflexivity|]. by rewrite IH, effect_type.
Qed.

Lemma effects_primaryKey ops d :
  truthy (_isPrimaryKey (effects ops d)) = true
  ↔ truthy (_isPrimaryKey d) = true ∨ In OpPrimaryKey ops.
Proof.
  unfold effects. revert d. induction ops as [|op ops IH]; intros d; simpl.
  - split; [auto|]. by intros [?|[]].
  - rewrite IH, effect_primaryKey. split.
    + intros [[?|?]|?]; auto.
    + intros [?|[?|?]]; auto.
Qed.

Lemma effects_wellFormed ops d : wellFormed d → wellFormed (effects ops d).
Proof.
  unfold effects. revert d. induction ops as [|op ops IH]; intros d Hd; simpl;
    [exact Hd|]. by apply IH, effect_wellFormed.
Qed.

Lemma chained_deref type ops h :
  let '(b, h') := Todo.chained type ops h in
  definition b = nextRef h
  ∧ deref h' (build b)
    = Some (effects ops (mkColumnDefinition type None None None None)).
Proof.
  unfold Todo.chained, newBuilder. simpl. split; [reflexivity|].
  set (b := {| definition := nextRef h |}).
  set (h1 := mkHeap _ _ _).
  assert (H1 : deref h1 (definition b)
               = Some (mkColumnDefinition type None None None None))
    by apply lookup_insert_eq.
  clearbody h1. revert h1 H1.
  generalize (mkColumnDefinition type None None None None).
  unfold effects. induction ops as [|op ops IH]; intros d h1 H1; simpl;
    [exact H1|].
  apply IH. by apply perform_deref.
Qed.

Lemma effect_idempotent op d : effect op (effect op d) = effect op d.
Proof.
  destruct op as [| |flag|flag]; simpl; try reflexivity.
  - destruct (truthy (_isPrimaryKey d) && bool_decide (_type d = NUMBER))
      eqn:Hboth; simpl; rewrite Hboth; reflexivity.
  - destruct (truthy (_isPrimaryKey d) && flag) eqn:Hboth; simpl;
      rewrite Hboth; reflexivity.
Qed.

Lemma emptyHeap_wellFormed : heapWellFormed emptyHeap.
Proof.
  intros r d H. unfold deref in H. simpl in H. by rewrite lookup_empty in H.
Qed.

Lemma newBuilder_wellFormed type h :
  heapWellFormed h → heapWellFormed (newBuilder type h).2.
Proof.
  intros Hh r d. unfold newBuilder, deref. simpl.
  destruct (decide (nextRef h = r)) as [->|Hne].
  - rewrite lookup_insert_eq. intros [= <-]. intros Ha. discriminate.
  - rewrite lookup_insert_ne by done. apply Hh.
Qed.

Lemma perform_wellFormed op this h :
  heapWellFormed h → heapWellFormed (perform op this h).
Proof.
  intros Hh r d. destruct (decide (r = definition this)) as [->|Hne].
  - destruct (deref h (definition this)) as [d0|] eqn:Hd0.
    + rewrite (perform_deref op this h d0 Hd0). intros [= <-].
      apply effect_wellFormed, (Hh _ _ Hd0).
    + rewrite perform_unallocated by exact Hd0. by rewrite Hd0.
  - rewrite perform_frame by exact Hne. apply Hh.
Qed.

Lemma chained_wellFormed type ops h :
  heapWellFormed h → heapWellFormed (Todo.chained type ops h).2.
Proof.
  intros Hh. unfold Todo.chained.
  pose proof (newBuilder_wellFormed type h Hh) as H1.
  destruct (newBuilder type h) as [b h1]. simpl in *.
  revert h1 H1. induction ops as [|op ops IH]; intros h1 H1; simpl;
    [exact H1|]. by apply IH, perform_wellFormed.
Qed.

End BuilderLaws.

(** X1.  Every definition on the heap carries the auto-increment flag only
    together with the primary-key flag and the type NUMBER, and keeps its
    type: the constructor and every builder operation, on whichever
    builder, preserve this. *)
Theorem builders_keep_definitions_well_formed :
  Laws.heapWellFormed ColumnDefinitionBuilder.emptyHeap
  ∧ (∀ type h,
       Laws.heapWellFormed h →
       Laws.heapWellFormed (ColumnDefinitionBuilder.newBuilder type h).2)
  ∧ (∀ op this h,
       Laws.heapWellFormed h →
       Laws.heapWellFormed (ColumnDefinitionBuilder.perform op this h))
  ∧ (∀ op this h d,
       ColumnDefinitionBuilder.deref h (ColumnDefinitionBuilder.build this)
       = Some d →
       ∃ d',
         ColumnDefinitionBuilder.deref
           (ColumnDefinitionBuilder.perform op this h)
           (ColumnDefinitionBuilder.build this) = Some d'
         ∧ ColumnDefinitionBuilder._type d' = ColumnDefinitionBuilder._type d).
Proof.
  split; [|split; [|split]].
  - apply emptyHeap_wellFormed.
  - apply newBuilder_wellFormed.
  - apply perform_wellFormed.
  - intros op this h d Hd. exists (Spec.effect op d). split.
    + by apply perform_deref.
    + apply effect_type.
Qed.

Lemma builders_keep_definitions_well_formed_witness :
  Laws.heapWellFormed
    (ColumnDefinitionBuilder.perform ColumnDefinitionBuilder.OpAutoIncrement
       (ColumnDefinitionBuilder.mkBuilder 0)
       (ColumnDefinitionBuilder.newBuilder ColumnDefinitionBuilder.STRING
          ColumnDefinitionBuilder.emptyHeap).2).
Proof.
  apply (proj1 (proj2 (proj2 builders_keep_definitions_well_formed))).
  apply (proj1 (proj2 builders_keep_definitions_well_formed)).
  apply (proj1 builders_keep_definitions_well_formed).
Defined.

(** X2.  After any chain of calls on a fresh builder, the definition has
    the type of the builder, is a primary key exactly when [primaryKey()]
    was among the calls, and a further [autoIncrement()] succeeds exactly
    when the builder is a number builder and [primaryKey()] was among the
    calls; otherwise it throws and leaves the definition as it is. *)
Theorem autoIncrement_needs_number_primary_key
    (type : ColumnDefinitionBuilder.BaseColumnType)
    (ops : list ColumnDefinitionBuilder.operation)
    (h : ColumnDefinitionBuilder.Heap) :
  let b := (Todo.chained type ops h).1 in
  let h' := (Todo.chained type ops h).2 in
  ∃ d,
    ColumnDefinitionBuilder.deref h' (ColumnDefinitionBuilder.build b) = Some d
    ∧ ColumnDefinitionBuilder._type d = type
    ∧ (ColumnDefinitionBuilder.truthy (ColumnDefinitionBuilder._isPrimaryKey d)
       = true ↔ In ColumnDefinitionBuilder.OpPrimaryKey ops)
    ∧ ((∃ h'', ColumnDefinitionBuilder.autoIncrement b h' = inr h'')
       ↔ type = ColumnDefinitionBuilder.NUMBER
         ∧ In ColumnDefinitionBuilder.OpPrimaryKey ops)
    ∧ (¬ In ColumnDefinitionBuilder.OpPrimaryKey ops →
       ColumnDefinitionBuilder.autoIncrement b h'
       = inl JS.AutoIncrementBeforePrimaryKey)
    ∧ (In ColumnDefinitionBuilder.OpPrimaryKey ops →
       type ≠ ColumnDefinitionBuilder.NUMBER →
       ColumnDefinitionBuilder.autoIncrement b h'
       = inl JS.AutoIncrementNonNumber).
Proof.
  intros b h'. subst b h'.
  pose proof (chained_deref type ops h) as Hc.
  destruct (Todo.chained type ops h) as [b h'] eqn:E. simpl.
  destruct Hc as [_ Hd].
  set (d := Laws.effects ops _) in Hd.
  assert (Htype : ColumnDefinitionBuilder._type d = type)
    by (unfold d; by rewrite effects_type).
  assert (Hpk : ColumnDefinitionBuilder.truthy
                  (ColumnDefinitionBuilder._isPrimaryKey d) = true
                ↔ In ColumnDefinitionBuilder.OpPrimaryKey ops).
  { unfold d. rewrite effects_primaryKey. simpl. split; [|auto].
    by intros [?|?]. }
  exists d. split; [exact Hd|]. split; [exact Htype|]. split; [exact Hpk|].
  unfold ColumnDefinitionBuilder.build in Hd.
  unfold ColumnDefinitionBuilder.autoIncrement. rewrite Hd, Htype.
  destruct (ColumnDefinitionBuilder.truthy
              (ColumnDefinitionBuilder._isPrimaryKey d)) eqn:Hk; simpl.
  - assert (Hin : In ColumnDefinitionBuilder.OpPrimaryKey ops)
      by (by apply Hpk).
    destruct (ColumnDefinitionBuilder.BaseColumnType_eq_dec type
                ColumnDefinitionBuilder.NUMBER) as [Heq|Hne].
    + rewrite bool_decide_eq_false_2 by tauto.
      split; [|split].
      * split; [auto|]. intros _. eauto.
      * intros Hnin. by destruct Hnin.
      * intros _ Hne. by destruct Hne.
    + rewrite bool_decide_eq_true_2 by exact Hne.
      split; [|split].
      * split; [intros [? ?]; discriminate|]. intros [? _]. done.
      * intros Hnin. by destruct Hnin.
      * reflexivity.
  - assert (Hnin : ¬ In ColumnDefinitionBuilder.OpPrimaryKey ops)
      by (intros Hin; apply Hpk in Hin; discriminate).
    split; [|split].
    + split; [intros [? ?]; discriminate|]. intros [_ ?]. done.
    + reflexivity.
    + intros Hin. done.
Qed.

Lemma autoIncrement_needs_number_primary_key_witness :
  ∃ h'',
    ColumnDefinitionBuilder.autoIncrement
      (Todo.chained ColumnDefinitionBuilder.NUMBER
         [ColumnDefinitionBuilder.OpPrimaryKey]
         ColumnDefinitionBuilder.emptyHeap).1
      (Todo.chained ColumnDefinitionBuilder.NUMBER
         [ColumnDefinitionBuilder.OpPrimaryKey]
         ColumnDefinitionBuilder.emptyHeap).2
    = inr h''.
Proof.
  destruct (autoIncrement_needs_number_primary_key
              ColumnDefinitionBuilder.NUMBER
              [ColumnDefinitionBuilder.OpPrimaryKey]
              ColumnDefinitionBuilder.emptyHeap)
    as (d & _ & _ & _ & Hiff & _).
  apply Hiff. split; [reflexivity|]. left. reflexivity.
Defined.

(** X24.  Repeating a builder call changes nothing: the definition after
    the same call twice is the definition after the call once, for every
    operation and on every other definition of the heap as well (a second
    warning may be printed). *)
Theorem builder_calls_are_idempotent
    (op : ColumnDefinitionBuilder.operation)
    (this : ColumnDefinitionBuilder.BaseColumnBuilder)
    (h : ColumnDefinitionBuilder.Heap) (r : nat) :
  ColumnDefinitionBuilder.deref
    (ColumnDefinitionBuilder.perform op this
       (ColumnDefinitionBuilder.perform op this h)) r
  = ColumnDefinitionBuilder.deref (ColumnDefinitionBuilder.perform op this h) r.
Proof.
  destruct (decide (r = ColumnDefinitionBuilder.definition this)) as [->|Hne].
  - destruct (ColumnDefinitionBuilder.deref h
                (ColumnDefinitionBuilder.definition this)) as [d|] eqn:Hd.
    + rewrite (perform_deref op this _ (Spec.effect op d))
        by (by apply perform_deref).
      rewrite (perform_deref op this h d Hd). f_equal.
      apply effect_idempotent.
    + rewrite (perform_unallocated op this h Hd).
      by rewrite (perform_unallocated op this h Hd).
  - by rewrite !perform_frame.
Qed.

(* ===================================================================== *)
(** * Further properties of the query builder *)
(* ===================================================================== *)

Section QueryLaws.
Import JS QueryBuilder Spec Laws.
Local Open Scope list_scope.

(** A record matches when every condition holds of its field. *)
Lemma matches_iff (q : QueryBuilder) (item : gmap string value) :
  matches q item = true
  ↔ ∀ k c, conditions q !! k = Some c → matchCondition (get item k) c = true.
Proof.
  unfold matches. rewrite forallb_forall. split.
  - intros Hall k c Hk. apply (Hall (k, c)).
    by apply list_elem_of_In, elem_of_map_to_list.
  - intros Hall [k c] Hin. simpl. apply Hall.
    by apply elem_of_map_to_list, list_elem_of_In.
Qed.

Lemma applyQuery_prefix (q : QueryBuilder) (data : list (gmap string value)) :
  ∃ n, applyQuery q data = firstn n (applyQuery (withoutLimit q) data).
Proof.
  unfold applyQuery, withoutLimit. simpl.
  set (sorted := if (0 <? length (orderByConditions q))%nat then _ else _).
  destruct (limitValue q) as [n|].
  - destruct (0 <=? n)%Z.
    + by exists (Z.to_nat n).
    + exists (length sorted). by rewrite firstn_all.
  - exists (length sorted). by rewrite firstn_all.
Qed.

Lemma In_firstn {A} (n : nat) (l : list A) (x : A) :
  In x (firstn n l) → In x l.
Proof.
  revert l. induction n as [|n IH]; intros [|y l]; simpl; try tauto.
  intros [?|?]; auto.
Qed.

Lemma applyQuery_withoutLimit_In (q : QueryBuilder)
    (data : list (gmap string value)) (r : gmap string value) :
  In r (applyQuery (withoutLimit q) data) ↔ In r data ∧ matches q r = true.
Proof.
  rewrite <- (filter_In (matches q)).
  split; apply Permutation_in;
    [symmetry|]; apply applyQuery_withoutLimit_perm.
Qed.

Lemma applyQuery_unordered (q : QueryBuilder)
    (data : list (gmap string value)) :
  orderByConditions q = [] →
  applyQuery (withoutLimit q) data = List.filter (matches q) data.
Proof. intros Hobs. unfold applyQuery, withoutLimit. simpl. by rewrite Hobs. Qed.

End QueryLaws.

(** X3.  Conditions are combined with AND, and [where] accumulates: a
    record matches exactly when each field condition in force holds of it,
    where the condition in force for a field is the one of the latest
    [where] call that names the field.  In particular two [where] calls on
    different fields match the records that match both. *)
Theorem where_accumulates_conjunctively
    (q : QueryBuilder.QueryBuilder) (c1 c2 : gmap string JS.value)
    (item : gmap string JS.value) :
  (QueryBuilder.matches q item = true
   ↔ ∀ k c, QueryBuilder.conditions q !! k = Some c →
            QueryBuilder.matchCondition (JS.get item k) c = true)
  ∧ (∀ k, QueryBuilder.conditions
            (QueryBuilder.where_ c2 (QueryBuilder.where_ c1 q)) !! k
          = match c2 !! k with
            | Some c => Some c
            | None => match c1 !! k with
                      | Some c => Some c
                      | None => QueryBuilder.conditions q !! k
                      end
            end)
  ∧ (c1 ##ₘ c2 →
     QueryBuilder.matches
       (QueryBuilder.where_ c2 (QueryBuilder.where_ c1 QueryBuilder.new)) item
     = QueryBuilder.matches (QueryBuilder.where_ c1 QueryBuilder.new) item
       && QueryBuilder.matches (QueryBuilder.where_ c2 QueryBuilder.new) item).
Proof.
  split; [apply matches_iff|]. split.
  - intros k. simpl. rewrite !lookup_union.
    destruct (c2 !! k), (c1 !! k), (QueryBuilder.conditions q !! k);
      reflexivity.
  - intros Hdisj. apply eq_true_iff_eq.
    rewrite andb_true_iff, !matches_iff. simpl.
    rewrite !(right_id_L ∅ (∪)). split.
    + intros Hall. split; intros k c Hk; apply Hall.
      * rewrite lookup_union_r; [exact Hk|].
        destruct (c2 !! k) eqn:Hc2; [|reflexivity].
        by destruct (map_disjoint_spec c1 c2) as [H _];
          destruct (H Hdisj k _ _ Hk Hc2).
      * by apply lookup_union_Some_l.
    + intros [H1 H2] k c Hk. apply lookup_union_Some_raw in Hk as [Hk|[_ Hk]].
      * by apply H2.
      * by apply H1.
Qed.

Lemma where_accumulates_conjunctively_witness :
  let item : gmap string JS.value :=
    {[ "completed" := JS.VBool true; "title" := JS.VStr "a" ]} in
  QueryBuilder.matches
    (QueryBuilder.where_ {[ "title" := JS.VStr "a" ]}
       (QueryBuilder.where_ {[ "completed" := JS.VBool true ]} QueryBuilder.new))
    item
  = QueryBuilder.matches
      (QueryBuilder.where_ {[ "completed" := JS.VBool true ]} QueryBuilder.new)
      item
    && QueryBuilder.matches
         (QueryBuilder.where_ {[ "title" := JS.VStr "a" ]} QueryBuilder.new)
         item.
Proof.
  intros item.
  apply (proj2 (proj2 (where_accumulates_conjunctively QueryBuilder.new
           {[ "completed" := JS.VBool true ]} {[ "title" := JS.VStr "a" ]}
           item))).
  apply map_disjoint_singleton_l_2. by apply lookup_singleton_ne.
Defined.

(** X4.  A chain of [where], [limit] and [orderBy] calls on a select
    builds the query made of the conditions laid over one another, the last
    limit and the ordering keys in the order they were given: how calls of
    different kinds are interleaved makes no difference. *)
Theorem select_chain_normal_form
    (steps : list IDB.selectStep) (q : QueryBuilder.QueryBuilder) :
  foldl IDB.applyStep q steps
  = QueryBuilder.mkQuery
      (Laws.chainConditions steps (QueryBuilder.conditions q))
      (Laws.chainLimit steps (QueryBuilder.limitValue q))
      (QueryBuilder.orderByConditions q ++ Laws.chainOrder steps)%list.
Proof.
  revert q. induction steps as [|s steps IH]; intros q.
  - simpl. rewrite app_nil_r. by destruct q.
  - simpl. rewrite IH. destruct s; simpl; try reflexivity.
    by rewrite <- app_assoc.
Qed.

(** X5.  [applyQuery] returns only records of the data it was given, and
    only records that match; without a capping limit it returns every
    record that matches; and without ordering keys it returns the matching
    records in the order of the data, the first ones when capped. *)
Theorem applyQuery_returns_matching_records
    (q : QueryBuilder.QueryBuilder) (data : list (gmap string JS.value)) :
  (∀ r, In r (QueryBuilder.applyQuery q data) →
        In r data ∧ QueryBuilder.matches q r = true)
  ∧ (length (QueryBuilder.applyQuery q data) ≤ length data)%nat
  ∧ (∀ r, In r data → QueryBuilder.matches q r = true →
          match QueryBuilder.limitValue q with
          | Some n => n < 0
          | None => True
          end →
          In r (QueryBuilder.applyQuery q data))
  ∧ (QueryBuilder.orderByConditions q = [] →
     ∃ n, QueryBuilder.applyQuery q data
          = firstn n (List.filter (QueryBuilder.matches q) data)).
Proof.
  destruct (applyQuery_prefix q data) as [n Hn].
  split; [|split; [|split]].
  - intros r Hr. rewrite Hn in Hr. apply In_firstn in Hr.
    by apply applyQuery_withoutLimit_In.
  - rewrite Hn, length_firstn.
    rewrite <- (Permutation_length (applyQuery_withoutLimit_perm q data)).
    pose proof (filter_length_le (QueryBuilder.matches q) data). lia.
  - intros r Hin Hm Hlim.
    assert (Hsame : QueryBuilder.applyQuery q data
                    = QueryBuilder.applyQuery (Spec.withoutLimit q) data).
    { unfold QueryBuilder.applyQuery, Spec.withoutLimit. simpl.
      destruct (QueryBuilder.limitValue q) as [m|]; [|reflexivity].
      destruct (Z.leb_spec 0 m); [lia|reflexivity]. }
    rewrite Hsame. by apply applyQuery_withoutLimit_In.
  - intros Hobs. exists n. by rewrite Hn, applyQuery_unordered.
Qed.

Lemma applyQuery_returns_matching_records_witness :
  let data : list (gmap string JS.value) :=
    [{[ "id" := JS.VNum 1 ]}; {[ "id" := JS.VNum 2 ]}] in
  In {[ "id" := JS.VNum 2 ]}
    (QueryBuilder.applyQuery
       (QueryBuilder.limit (-3)
          (QueryBuilder.where_ {[ "id" := JS.VNum 2 ]} QueryBuilder.new))
       data).
Proof.
  intros data.
  apply (proj1 (proj2 (proj2 (applyQuery_returns_matching_records
           (QueryBuilder.limit (-3)
              (QueryBuilder.where_ {[ "id" := JS.VNum 2 ]} QueryBuilder.new))
           data)))).
  - right. left. reflexivity.
  - vm_compute. reflexivity.
  - simpl. lia.
Defined.

Section OrderLaws.
Import JS QueryBuilder Spec Laws.
Local Open Scope list_scope.

Lemma Sorted_restrict {A} (R R' : A → A → Prop) (P : A → Prop) (l : list A) :
  (∀ x y, P x → P y → R x y → R' x y) →
  Forall P l → Sorted R l → Sorted R' l.
Proof.
  intros Himp HP Hs. induction Hs as [|x l Hs IH Hhd]; [constructor|].
  apply Forall_cons in HP as [Hx HP]. constructor; [by apply IH|].
  destruct Hhd as [|y l Hxy]; constructor.
  apply Forall_cons in HP as [Hy _]. by apply Himp.
Qed.

Lemma Sorted_map {A B} (f : A → B) (R : B → B → Prop) (l : list A) :
  Sorted (fun x y => R (f x) (f y)) l → Sorted R (List.map f l).
Proof.
  induction 1 as [|x l Hs IH Hhd]; simpl; constructor; [exact IH|].
  destruct Hhd; simpl; by constructor.
Qed.

Lemma isLessThan_numbers (f : string) (x y : gmap string value) :
  is_Some (fieldNumber f x) → is_Some (fieldNumber f y) →
  isLessThan (get x f) (get y f) = Some (numberOf f x <? numberOf f y)%Z.
Proof.
  unfold numberOf, fieldNumber. intros [a Ha] [b Hb].
  destruct (get x f); try discriminate; destruct (get y f); try discriminate;
    by injection Ha as <-; injection Hb as <-.
Qed.

Lemma fieldNumber_not_null (f : string) (x : gmap string value) :
  is_Some (fieldNumber f x) → isNull (get x f) = false.
Proof. unfold fieldNumber. intros [a Ha]. by destruct (get x f). Qed.

(** The callback under one key, on fields that hold numbers. *)
Lemma compareField_numbers (f : string) (d : direction)
    (x y : gmap string value) :
  is_Some (fieldNumber f x) → is_Some (fieldNumber f y) →
  compareField (mkOrderBy f d) x y
  = match d with
    | asc => match (numberOf f x ?= numberOf f y)%Z with
             | Lt => -1 | Eq => 0 | Gt => 1 end
    | desc => match (numberOf f x ?= numberOf f y)%Z with
              | Lt => 1 | Eq => 0 | Gt => -1 end
    end.
Proof.
  intros Hx Hy. unfold compareField, lt, gt. simpl.
  rewrite (fieldNumber_not_null f x Hx), (fieldNumber_not_null f y Hy).
  rewrite (isLessThan_numbers f x y Hx Hy), (isLessThan_numbers f y x Hy Hx).
  simpl.
  destruct (Z.compare_spec (numberOf f x) (numberOf f y)) as [Heq|Hlt|Hgt].
  - rewrite Heq, Z.ltb_irrefl. by destruct d.
  - rewrite (proj2 (Z.ltb_lt _ _) Hlt). by destruct d.
  - rewrite (proj2 (Z.ltb_ge _ _)) by lia.
    rewrite (proj2 (Z.ltb_lt _ _) Hgt). by destruct d.
Qed.

Lemma applyQuery_Forall (P : gmap string value → Prop) (q : QueryBuilder)
    (data : list (gmap string value)) :
  Forall P data → Forall P (applyQuery q data).
Proof.
  intros HP. apply Forall_forall. intros r Hr.
  apply list_elem_of_In in Hr.
  destruct (applyQuery_prefix q data) as [n Hn]. rewrite Hn in Hr.
  apply In_firstn, applyQuery_withoutLimit_In in Hr as [Hr _].
  rewrite Forall_forall in HP. by apply HP, list_elem_of_In.
Qed.

Lemma sortInsert_in_place {A} (compare : A → A → Z) (x : A) (l : list A) :
  Forall (fun y => compare x y <= 0) l → sortInsert compare x l = x :: l.
Proof.
  destruct 1 as [|y l Hy _]; simpl; [reflexivity|].
  destruct (Z.ltb_spec 0 (compare x y)); [lia|reflexivity].
Qed.

Lemma arraySort_all_equal {A} (compare : A → A → Z) (l : list A) :
  Forall (fun x => Forall (fun y => compare x y <= 0) l) l →
  arraySort compare l = l.
Proof.
  induction l as [|x l IH]; intros Hall; simpl; [reflexivity|].
  apply Forall_cons in Hall as [Hx Hall].
  apply Forall_cons in Hx as [_ Hx].
  rewrite IH.
  - by apply sortInsert_in_place.
  - eapply Forall_impl; [exact Hall|]. intros y Hy.
    by apply Forall_cons in Hy as [_ Hy].
Qed.

Lemma compareField_undefined (o : OrderByCondition) (x y : gmap string value) :
  get x (field o) = VUndefined → get y (field o) = VUndefined →
  compareField o x y = 0.
Proof.
  intros Hx Hy. unfold compareField. rewrite Hx, Hy.
  by destruct (dir o).
Qed.

End OrderLaws.

(** X6.  When the first ordering key names a field that holds a number
    (numbers are integers here, so never NaN) or a Date in every record,
    the query returns the records with that field non-decreasing under
    ["asc"] and non-increasing under ["desc"]. *)
Theorem orderBy_sorts_numbers_and_dates
    (q : QueryBuilder.QueryBuilder) (data : list (gmap string JS.value))
    (f : string) (d : QueryBuilder.direction)
    (rest : list QueryBuilder.OrderByCondition) :
  QueryBuilder.orderByConditions q = QueryBuilder.mkOrderBy f d :: rest →
  Forall (fun r => is_Some (Laws.fieldNumber f r)) data →
  StronglySorted
    (match d with
     | QueryBuilder.asc => Z.le
     | QueryBuilder.desc => Z.ge
     end)
    (List.map (Laws.numberOf f) (QueryBuilder.applyQuery q data)).
Proof.
  intros Hobs Hnum.
  apply Sorted_StronglySorted.
  { destruct d; intros a b c; lia. }
  apply Sorted_map.
  apply (Sorted_restrict
           (Spec.inOrder (QueryBuilder.compareRecords
                            (QueryBuilder.orderByConditions q)))
           _ (fun r => is_Some (Laws.fieldNumber f r))).
  - intros x y Hx Hy. rewrite Hobs. unfold Spec.inOrder. simpl.
    rewrite (compareField_numbers f d x y Hx Hy).
    destruct (Z.compare_spec (Laws.numberOf f x) (Laws.numberOf f y));
      destruct d; simpl; lia.
  - by apply applyQuery_Forall.
  - apply applyQuery_sorted.
Qed.

Lemma orderBy_sorts_numbers_and_dates_witness :
  let data : list (gmap string JS.value) :=
    [{[ "createdAt" := JS.VDate 0 10 ]}; {[ "createdAt" := JS.VDate 1 30 ]};
     {[ "createdAt" := JS.VDate 2 20 ]}] in
  StronglySorted Z.ge
    (List.map (Laws.numberOf "createdAt")
       (QueryBuilder.applyQuery
          (QueryBuilder.orderBy "createdAt" (Some QueryBuilder.desc)
             QueryBuilder.new) data)).
Proof.
  intros data.
  apply (orderBy_sorts_numbers_and_dates
           (QueryBuilder.orderBy "createdAt" (Some QueryBuilder.desc)
              QueryBuilder.new) data "createdAt" QueryBuilder.desc []).
  - reflexivity.
  - repeat constructor; vm_compute; eauto.
Defined.

(** X7.  Ordering by fields that no record of the data has changes
    nothing: every two records compare equal and the sort is stable, so the
    query gives what it gives without its ordering keys, the matching
    records in the order of the data. *)
Theorem orderBy_missing_field_keeps_order
    (q : QueryBuilder.QueryBuilder) (data : list (gmap string JS.value)) :
  Forall (fun o => Forall (fun r => JS.get r (QueryBuilder.field o)
                                    = JS.VUndefined) data)
    (QueryBuilder.orderByConditions q) →
  QueryBuilder.applyQuery q data
  = QueryBuilder.applyQuery (Laws.withoutOrder q) data.
Proof.
  intros Hmissing.
  unfold QueryBuilder.applyQuery, Laws.withoutOrder. simpl.
  change (List.filter (λ item, QueryBuilder.matches
            {| QueryBuilder.conditions := QueryBuilder.conditions q;
               QueryBuilder.limitValue := QueryBuilder.limitValue q;
               QueryBuilder.orderByConditions := [] |} item) data)
    with (List.filter (λ item, QueryBuilder.matches q item) data).
  destruct (0 <? length (QueryBuilder.orderByConditions q))%nat;
    [|reflexivity].
  rewrite arraySort_all_equal; [reflexivity|].
  apply Forall_forall. intros x Hx. apply Forall_forall. intros y.
  intros Hy.
  apply list_elem_of_In, filter_In in Hx as [Hx _].
  apply list_elem_of_In, filter_In in Hy as [Hy _].
  rewrite compareRecords_all_equal; [lia|].
  eapply Forall_impl; [exact Hmissing|]. intros o Ho. simpl in Ho.
  rewrite Forall_forall in Ho.
  apply compareField_undefined; by apply Ho, list_elem_of_In.
Qed.

Lemma orderBy_missing_field_keeps_order_witness :
  let data : list (gmap string JS.value) :=
    [{[ "id" := JS.VNum 2 ]}; {[ "id" := JS.VNum 1 ]}] in
  QueryBuilder.applyQuery
    (QueryBuilder.orderBy "rank" None QueryBuilder.new) data
  = QueryBuilder.applyQuery
      (Laws.withoutOrder (QueryBuilder.orderBy "rank" None QueryBuilder.new))
      data.
Proof.
  intros data.
  apply (orderBy_missing_field_keeps_order
           (QueryBuilder.orderBy "rank" None QueryBuilder.new) data).
  repeat constructor.
Defined.

Section ConditionLaws.
Import JS QueryBuilder Spec Laws.
Local Open Scope list_scope.

Lemma matchCondition_bare (itemValue v : value) :
  (∀ r fields, v ≠ VObj r fields) →
  matchCondition itemValue v = strictEquals itemValue v.
Proof.
  intros Hbare. unfold matchCondition.
  destruct v; try reflexivity. by destruct (Hbare ref fields).
Qed.

Lemma matchCondition_singleton (itemValue : value) (ref : nat)
    (k : operatorKey) (operand : value) :
  matchCondition itemValue (condition ref k operand)
  = applies k itemValue operand && verdict k itemValue operand.
Proof.
  unfold condition. by rewrite matchCondition_operators, decided_singleton.
Qed.

Lemma prefix_toLowerCase (a b : string) :
  String.prefix a b = true →
  String.prefix (toLowerCase a) (toLowerCase b) = true.
Proof.
  revert b. induction a as [|c a IH]; intros b; simpl.
  - by destruct b.
  - destruct b as [|c' b]; simpl; [discriminate|].
    destruct (ascii_dec c c') as [->|Hne]; [|discriminate].
    intros Hp. destruct (ascii_dec (lowerAscii c') (lowerAscii c'));
      [by apply IH|done].
Qed.

Lemma stringIncludes_toLowerCase (s sub : string) :
  stringIncludes s sub = true →
  stringIncludes (toLowerCase s) (toLowerCase sub) = true.
Proof.
  induction s as [|c s IH]; simpl.
  - rewrite !orb_false_r. apply (prefix_toLowerCase sub EmptyString).
  - intros H. apply orb_true_iff in H as [Hp|Hrest]; apply orb_true_iff.
    + left. apply (prefix_toLowerCase sub (String c s) Hp).
    + right. by apply IH.
Qed.

Lemma stringIncludes_empty (s : string) : stringIncludes s EmptyString = true.
Proof. by destruct s. Qed.

End ConditionLaws.

(** X8.  A bare value that is not a plain object is compared with [===],
    and means the same as [{ equals: value }]; [{ notEquals: value }] is
    its negation, and [{ inArray: [] }] matches nothing.  A bare plain
    object is not compared at all: it is read as an operator object, so
    the empty object as a condition excludes every record. *)
Theorem equality_conditions_agree
    (itemValue v : JS.value) (ref ref' : nat) :
  (∀ r fields, v ≠ JS.VObj r fields) →
  QueryBuilder.matchCondition itemValue v = JS.strictEquals itemValue v
  ∧ QueryBuilder.matchCondition itemValue (Spec.condition ref Spec.equals v)
    = QueryBuilder.matchCondition itemValue v
  ∧ QueryBuilder.matchCondition itemValue (Spec.condition ref Spec.notEquals v)
    = negb (QueryBuilder.matchCondition itemValue v)
  ∧ QueryBuilder.matchCondition itemValue
      (Spec.condition ref Spec.inArray (JS.VArr ref' []))
    = false
  ∧ QueryBuilder.matchCondition itemValue (JS.VObj ref ∅) = false.
Proof.
  intros Hbare. rewrite !matchCondition_singleton.
  rewrite (matchCondition_bare itemValue v Hbare). simpl.
  repeat split.
Qed.

Lemma equality_conditions_agree_witness :
  QueryBuilder.matchCondition (JS.VNum 1) (Spec.condition 0 Spec.equals (JS.VNum 1))
  = QueryBuilder.matchCondition (JS.VNum 1) (JS.VNum 1).
Proof.
  apply (proj1 (proj2 (equality_conditions_agree (JS.VNum 1) (JS.VNum 1) 0 0
           ltac:(discriminate)))).
Defined.

(** X9.  [{ isBetween: [min, max] }] matches exactly the records that
    match both [{ greaterThanOrEqual: min }] and [{ lessThanOrEqual: max }]:
    the bounds are inclusive. *)
Theorem isBetween_is_both_bounds
    (itemValue min max : JS.value) (ref ref' : nat) :
  QueryBuilder.matchCondition itemValue
    (Spec.condition ref Spec.isBetween (JS.VArr ref' [min; max]))
  = QueryBuilder.matchCondition itemValue
      (Spec.condition ref Spec.greaterThanOrEqual min)
    && QueryBuilder.matchCondition itemValue
         (Spec.condition ref Spec.lessThanOrEqual max).
Proof.
  rewrite !matchCondition_singleton. simpl.
  destruct (JS.isNull itemValue), (JS.isNull min), (JS.isNull max),
    (JS.ge itemValue min), (JS.le itemValue max); reflexivity.
Qed.

(** X10.  [contains] and [looseContains] match string fields only, and
    with string operands only; on those (strings of ASCII characters,
    lowered letter by letter), whatever [contains] matches [looseContains]
    matches too, and the empty operand matches every string. *)
Theorem contains_matches_strings_only
    (itemValue operand : JS.value) (ref : nat) :
  (QueryBuilder.matchCondition itemValue
     (Spec.condition ref Spec.contains operand) = true →
   (∃ s sub, itemValue = JS.VStr s ∧ operand = JS.VStr sub
             ∧ JS.stringIncludes s sub = true)
   ∧ QueryBuilder.matchCondition itemValue
       (Spec.condition ref Spec.looseContains operand) = true)
  ∧ (QueryBuilder.matchCondition itemValue
       (Spec.condition ref Spec.looseContains operand) = true →
     ∃ s sub, itemValue = JS.VStr s ∧ operand = JS.VStr sub)
  ∧ (∀ s, QueryBuilder.matchCondition (JS.VStr s)
            (Spec.condition ref Spec.contains (JS.VStr EmptyString)) = true).
Proof.
  rewrite !matchCondition_singleton. split; [|split].
  - destruct itemValue, operand; simpl; try discriminate.
    intros Hin. split; [eauto|]. by apply stringIncludes_toLowerCase.
  - destruct itemValue, operand; simpl; try discriminate. eauto.
  - intros s. rewrite matchCondition_singleton. simpl.
    apply stringIncludes_empty.
Qed.

Lemma contains_matches_strings_only_witness :
  QueryBuilder.matchCondition (JS.VStr "Buy Milk")
    (Spec.condition 0 Spec.looseContains (JS.VStr "Milk")) = true.
Proof.
  apply (proj1 (contains_matches_strings_only (JS.VStr "Buy Milk")
                  (JS.VStr "Milk") 0)).
  vm_compute. reflexivity.
Defined.

(** X11.  Under an ordering key the sort tells null from missing: a record
    that lacks the field compares equal to every record whose value for
    the field is not null (so the two keep their order), and is placed
    like a non-null value against a null one. *)
Theorem missing_field_compares_as_non_null
    (f : string) (a b : gmap string JS.value) :
  JS.get a f = JS.VUndefined →
  (JS.isNull (JS.get b f) = false →
   QueryBuilder.compareField (QueryBuilder.mkOrderBy f QueryBuilder.asc) a b = 0
   ∧ QueryBuilder.compareField (QueryBuilder.mkOrderBy f QueryBuilder.desc) a b = 0)
  ∧ (JS.isNull (JS.get b f) = true →
     QueryBuilder.compareField (QueryBuilder.mkOrderBy f QueryBuilder.asc) a b = 1
     ∧ QueryBuilder.compareField (QueryBuilder.mkOrderBy f QueryBuilder.desc) a b
       = -1).
Proof.
  intros Ha. unfold QueryBuilder.compareField. simpl. rewrite Ha.
  destruct (comparisons_undefined (JS.get b f)) as (_ & G & _ & L & _).
  rewrite G, L. split; intros ->; simpl; split; reflexivity.
Qed.

Lemma missing_field_compares_as_non_null_witness :
  QueryBuilder.compareField (QueryBuilder.mkOrderBy "rank" QueryBuilder.asc)
    {[ "id" := JS.VNum 1 ]} {[ "id" := JS.VNum 2; "rank" := JS.VNum 5 ]}
  = 0.
Proof.
  refine (proj1 (proj1 (missing_field_compares_as_non_null "rank"
                  {[ "id" := JS.VNum 1 ]}
                  {[ "id" := JS.VNum 2; "rank" := JS.VNum 5 ]} _) _)).
  - vm_compute. reflexivity.
  - vm_compute. reflexivity.
Defined.

Section ReadLaws.
Import JS Backend IDB Spec Laws.

Lemma setDb_same (this : IDB) (db : IDBDatabase) (s : string)
    (st : IDBObjectStore) :
  _db this = Some db → objectStores db !! s = Some st →
  setDb (putStore s st db) this = this.
Proof.
  intros Hdb Hst. destruct this as [d n v sd rp t c], db as [stores].
  simpl in *. subst d. unfold setDb, putStore. simpl.
  by rewrite insert_id.
Qed.

Lemma getAllRecords_selected (s : string) (this : IDB) :
  getAllRecords s this = (selected QueryBuilder.new s this, this).
Proof.
  unfold getAllRecords, transaction, selected.
  destruct (_db this) as [db|] eqn:Hdb; [|reflexivity].
  destruct (objectStores db !! s) as [st|] eqn:Hst; [|reflexivity].
  simpl. rewrite (setDb_same this db s st Hdb Hst).
  by rewrite applyQuery_new.
Qed.

End ReadLaws.

(** X12.  Reading never writes: [getAll()] and an awaited [select()]
    chain return the engine and its database as they were.  What they
    give is the query applied to the records of the store in key order
    (all of them for [getAll()]); on an engine that is not connected they
    reject with the not-open error, and on a store the database does not
    have with the backend's NotFoundError. *)
Theorem select_reads_without_writing
    (storeName : string) (q : QueryBuilder.QueryBuilder) (this : IDB.IDB) :
  IDB.selectThen storeName q this = (Laws.selected q storeName this, this)
  ∧ IDB.getAllRecords storeName this
    = (Laws.selected QueryBuilder.new storeName this, this)
  ∧ (∀ st, Laws.storeOf this storeName = Some st →
           Laws.selected q storeName this
           = JS.Fulfilled (QueryBuilder.applyQuery q (Backend.records st))
           ∧ Laws.selected QueryBuilder.new storeName this
             = JS.Fulfilled (Backend.records st))
  ∧ (IDB._db this = None →
     Laws.selected q storeName this = JS.Rejected JS.DatabaseNotOpen)
  ∧ (∀ db, IDB._db this = Some db →
           Backend.objectStores db !! storeName = None →
           Laws.selected q storeName this
           = JS.Rejected (JS.BackendError "NotFoundError")).
Proof.
  split; [|split; [apply getAllRecords_selected|split; [|split]]].
  - unfold IDB.selectThen. rewrite getAllRecords_selected.
    f_equal. unfold Laws.selected.
    destruct (IDB._db this) as [db|]; [|reflexivity].
    destruct (Backend.objectStores db !! storeName) as [st|]; [|reflexivity].
    simpl. by rewrite applyQuery_new.
  - intros st. unfold Laws.storeOf, Laws.selected.
    destruct (IDB._db this) as [db|]; [|discriminate]. simpl.
    intros ->. by rewrite applyQuery_new.
  - unfold Laws.selected. by intros ->.
  - unfold Laws.selected. by intros db -> ->.
Qed.

Lemma select_reads_without_writing_witness :
  Laws.selected (QueryBuilder.limit 1 QueryBuilder.new) "todos"
    (IDB.setDb
       (Backend.mkDatabase
          {[ "todos" := Backend.mkStore "id" true [] 3
                          [ {[ "id" := JS.VNum 1 ]}; {[ "id" := JS.VNum 2 ]} ] ]}
          [])
       (IDB.new "todo" 1))
  = JS.Fulfilled
      (QueryBuilder.applyQuery (QueryBuilder.limit 1 QueryBuilder.new)
         (Backend.records
            (Backend.mkStore "id" true [] 3
               [ {[ "id" := JS.VNum 1 ]}; {[ "id" := JS.VNum 2 ]} ]))).
Proof.
  refine (proj1 (proj1 (proj2 (proj2 (select_reads_without_writing "todos"
            (QueryBuilder.limit 1 QueryBuilder.new) _))) _ _)).
  vm_compute. reflexivity.
Defined.

Section DeleteLaws.
Import JS Backend IDB Spec Laws.

Lemma distinctKeys_apart (path : string) (rs : list (gmap string value))
    (a b : gmap string value) :
  distinctKeys path rs = true → In a rs → In b rs →
  sameKey (get a path) (get b path) = true → a = b.
Proof.
  induction rs as [|r rs IH]; simpl; [done|].
  intros Hd Ha Hb Hsame. apply andb_prop in Hd as [Hhead Htail].
  rewrite forallb_forall in Hhead.
  destruct Ha as [<-|Ha], Hb as [<-|Hb]; [reflexivity| | |by apply IH].
  - specialize (Hhead b Hb). apply andb_prop in Hhead as [H1 _].
    by rewrite Hsame in H1.
  - specialize (Hhead a Ha). apply andb_prop in Hhead as [_ H2].
    by rewrite Hsame in H2.
Qed.

Lemma filter_ext_In {A} (p q : A → bool) (l : list A) :
  (∀ x, In x l → p x = q x) → List.filter p l = List.filter q l.
Proof.
  induction l as [|x l IH]; intros Hext; simpl; [reflexivity|].
  rewrite (Hext x) by (by left). rewrite IH; [reflexivity|].
  intros y Hy. apply Hext. by right.
Qed.

(** With distinct keys, deleting the keys of the records a test picks
    leaves the records the test does not pick. *)
Lemma survivors_filter (path : string) (p : gmap string value → bool)
    (rs : list (gmap string value)) :
  distinctKeys path rs = true →
  survivors path (List.filter p rs) rs = List.filter (fun r => negb (p r)) rs.
Proof.
  intros Hd. unfold survivors. apply filter_ext_In. intros r Hr.
  destruct (p r) eqn:Hp; simpl.
  - apply not_true_is_false. intros Hall. rewrite forallb_forall in Hall.
    specialize (Hall r). rewrite sameKey_refl in Hall.
    discriminate Hall. apply filter_In. by split.
  - apply forallb_forall. intros m Hm. apply filter_In in Hm as [Hm Hpm].
    destruct (sameKey (get r path) (get m path)) eqn:Hsame; [|reflexivity].
    rewrite (distinctKeys_apart path rs r m Hd Hr Hm Hsame) in Hp. congruence.
Qed.

Lemma Forall_filter_In {A} (P : A → Prop) (p : A → bool) (l : list A) :
  Forall P l → Forall P (List.filter p l).
Proof.
  induction 1 as [|x l Hx _ IH]; simpl; [constructor|].
  destruct (p x); [by constructor|exact IH].
Qed.

Lemma deleteWhere_open (this : IDB) (s : string) (storeSchema : StoreSchema)
    (st : IDBObjectStore) (conds : gmap string value) :
  keeps this s st →
  getPrimaryKeyPath storeSchema = Some (keyPath st) →
  plainName (keyPath st) = true →
  Forall (fun r => validKey (get r (keyPath st)) = true) (records st) →
  distinctKeys (keyPath st) (records st) = true →
  ∃ this',
    deleteWhere s storeSchema conds createDeleteQuery this
    = (Fulfilled tt, this')
    ∧ keeps this' s
        (withRecords st (keyGenerator st)
           (List.filter
              (fun r => negb (QueryBuilder.matches
                                (QueryBuilder.where_ conds QueryBuilder.new) r))
              (records st))).
Proof.
  intros Hkeeps Hpk Hplain Hvalid Hd.
  unfold deleteWhere, executeDelete, createDeleteQuery.
  destruct (getAllRecords_open this s st (keeps_holds _ _ _ Hkeeps))
    as (this1 & Hall & _ & _ & Hkeeps1).
  specialize (Hkeeps1 Hkeeps).
  rewrite Hall, Hpk, applyQuery_where. simpl.
  assert (Hne : keyPath st ≠ EmptyString).
  { intros Heq. rewrite Heq in Hplain. discriminate Hplain. }
  destruct (String.eqb_spec (keyPath st) EmptyString) as [|_]; [done|].
  simpl.
  destruct (deleteEach_open _ this1 s st Hkeeps1 Hplain
              (Forall_filter_In _
                 (QueryBuilder.matches
                    (QueryBuilder.where_ conds QueryBuilder.new)) _ Hvalid))
    as (this2 & Heach & Hkeeps2).
  rewrite Heach, promiseAll_fulfilled. simpl.
  exists this2. split; [reflexivity|].
  by rewrite survivors_filter in Hkeeps2.
Qed.

End DeleteLaws.

(** X13.  [delete().where(conditions)] removes exactly the records that
    match: on an open engine whose transactions commit, for a store kept
    under the schema's key column, that column having a plain name (not
    empty, no period in it, so that the engine reads the key where the
    backend keeps it), whose records carry valid, pairwise distinct keys
    (as the backend keeps them: numbers, strings, Dates and arrays of
    these), the promise is fulfilled, the records
    that do not match are left as they were and in their order, and no
    record that matches is left. *)
Theorem delete_where_removes_exactly_the_matches
    (this : IDB.IDB) (storeName : string) (storeSchema : IDB.StoreSchema)
    (st : Backend.IDBObjectStore) (conds : gmap string JS.value) :
  Spec.keeps this storeName st →
  IDB.tables this !! storeName = Some storeSchema →
  IDB.getPrimaryKeyPath storeSchema = Some (Backend.keyPath st) →
  Spec.plainName (Backend.keyPath st) = true →
  Forall (fun r => Backend.validKey (Backend.keyOf st r) = true)
    (Backend.records st) →
  Laws.distinctKeys (Backend.keyPath st) (Backend.records st) = true →
  ∃ this' st',
    IDB.call storeName (IDB.Delete (Some conds)) this
    = (inr (JS.Fulfilled IDB.Void), this')
    ∧ Spec.keeps this' storeName st'
    ∧ Backend.records st'
      = List.filter
          (fun r => negb (QueryBuilder.matches
                            (QueryBuilder.where_ conds QueryBuilder.new) r))
          (Backend.records st)
    ∧ (∀ r, In r (Backend.records st') ↔
            In r (Backend.records st)
            ∧ QueryBuilder.matches
                (QueryBuilder.where_ conds QueryBuilder.new) r = false)
    ∧ Backend.keyPath st' = Backend.keyPath st
    ∧ Backend.indexes st' = Backend.indexes st
    ∧ Backend.keyGenerator st' = Backend.keyGenerator st.
Proof.
  intros Hkeeps Htable Hpk Hplain Hvalid Hd.
  assert (Hflat : Forall (fun r => Backend.validKey
                                     (JS.get r (Backend.keyPath st)) = true)
                    (Backend.records st)).
  { eapply Forall_impl; [exact Hvalid|]. intros r. unfold Backend.keyOf.
    by rewrite (evaluateKeyPath_plain _ r Hplain). }
  destruct (deleteWhere_open this storeName storeSchema st conds
              Hkeeps Hpk Hplain Hflat Hd) as (this' & Hrun & Hkeeps').
  unfold IDB.call. rewrite Htable, Hrun.
  eexists this', _. split; [reflexivity|]. split; [exact Hkeeps'|].
  simpl. split; [reflexivity|]. split; [|done].
  intros r. rewrite filter_In, negb_true_iff. reflexivity.
Qed.

Lemma delete_where_removes_exactly_the_matches_witness :
  let st :=
    Backend.mkStore "id" true [] 3
      [ {[ "id" := JS.VNum 1; "done" := JS.VBool true ]};
        {[ "id" := JS.VNum 2; "done" := JS.VBool false ]} ] in
  let columns : IDB.StoreSchema :=
    [("id", ColumnDefinitionBuilder.mkColumnDefinition
              ColumnDefinitionBuilder.NUMBER (Some true) (Some true) None None);
     ("done", ColumnDefinitionBuilder.mkColumnDefinition
                ColumnDefinitionBuilder.BOOLEAN None None None None)] in
  let this :=
    IDB.mkIDB (Some (Backend.mkDatabase {[ "todos" := st ]} [])) "todo" 1
      (Some [("todos", columns)]) (JS.Fulfilled tt) {[ "todos" := columns ]} [] in
  let conds : gmap string JS.value := {[ "done" := JS.VBool true ]} in
  ∃ this' st',
    IDB.call "todos" (IDB.Delete (Some conds)) this
    = (inr (JS.Fulfilled IDB.Void), this')
    ∧ Spec.keeps this' "todos" st'
    ∧ Backend.records st'
      = List.filter
          (fun r => negb (QueryBuilder.matches
                            (QueryBuilder.where_ conds QueryBuilder.new) r))
          (Backend.records st)
    ∧ (∀ r, In r (Backend.records st') ↔
            In r (Backend.records st)
            ∧ QueryBuilder.matches
                (QueryBuilder.where_ conds QueryBuilder.new) r = false)
    ∧ Backend.keyPath st' = Backend.keyPath st
    ∧ Backend.indexes st' = Backend.indexes st
    ∧ Backend.keyGenerator st' = Backend.keyGenerator st.
Proof.
  intros st columns this conds.
  apply (delete_where_removes_exactly_the_matches this "todos" columns st
           conds).
  - eexists. split; [reflexivity|]. split; reflexivity.
  - reflexivity.
  - reflexivity.
  - reflexivity.
  - repeat constructor.
  - vm_compute. reflexivity.
Defined.

Section Frame.
Import JS Backend IDB Spec Laws.

Lemma sameShape_refl (a : IDBObjectStore) : sameShape a a.
Proof. by repeat split. Qed.

Lemma sameShape_trans (a b c : IDBObjectStore) :
  sameShape a b → sameShape b c → sameShape a c.
Proof. unfold sameShape. intuition congruence. Qed.

Lemma touchesOnly_refl (s : string) (this : IDB) : touchesOnly s this this.
Proof.
  unfold touchesOnly. repeat split; try done.
  destruct (storeOf this s); [apply sameShape_refl|done].
Qed.

Lemma touchesOnly_trans (s : string) (a b c : IDB) :
  touchesOnly s a b → touchesOnly s b c → touchesOnly s a c.
Proof.
  unfold touchesOnly.
  intros (H1 & H2 & H3 & H4 & H5 & H6 & H7 & H8 & H9)
         (G1 & G2 & G3 & G4 & G5 & G6 & G7 & G8 & G9).
  repeat split; try congruence.
  - auto.
  - intros s' Hs'. rewrite G8, H8; done.
  - destruct (storeOf a s), (storeOf b s), (storeOf c s); try done.
    eapply sameShape_trans; eassumption.
Qed.

Lemma storeGetAll_keepsShape : keepsShape storeGetAll.
Proof. intros mode st result st' [= _ <-]. apply sameShape_refl. Qed.

Lemma storeDelete_keepsShape (key : value) : keepsShape (storeDelete key).
Proof.
  intros mode st result st'. unfold storeDelete.
  destruct mode; [discriminate|].
  destruct (negb (validKey key)); [discriminate|].
  intros [= _ <-]. by repeat split.
Qed.

Lemma storePut_keepsShape (record : gmap string value) :
  keepsShape (storePut record).
Proof.
  intros mode st result st'. unfold storePut.
  destruct mode; [discriminate|].
  destruct (keyed st record) as [| |key record' gen]; try discriminate.
  destruct (violatesUnique st key record'); [discriminate|].
  intros [= _ <-]. by repeat split.
Qed.

Lemma storeAdd_keepsShape (record : gmap string value) :
  keepsShape (storeAdd record).
Proof.
  intros mode st result st'. unfold storeAdd.
  destruct mode; [discriminate|].
  destruct (keyed st record) as [| |key record' gen]; try discriminate.
  destruct (_ || _); [discriminate|].
  intros [= _ <-]. by repeat split.
Qed.

Lemma transaction_frame {T} (s : string) (mode : IDBTransactionMode)
    (task : IDBTransactionMode → IDBObjectStore → issued T) (this : IDB) :
  keepsShape task → touchesOnly s this (transaction s mode task this).2.
Proof.
  intros Hshape. unfold transaction.
  destruct (_db this) as [db|] eqn:Hdb; [|apply touchesOnly_refl].
  destruct (objectStores db !! s) as [st|] eqn:Hst; [|apply touchesOnly_refl].
  destruct (task mode st) as [e|result st'|e] eqn:Htask;
    try apply touchesOnly_refl.
  assert (Hkept : ∀ later,
            touchesOnly s this
              (setDb (putStore s st' (withFates later db)) this)).
  { intros later. unfold touchesOnly, storeOf. simpl. rewrite Hdb. simpl.
    repeat split; try done.
    - intros s' Hs'. by rewrite lookup_insert_ne.
    - rewrite Hst, lookup_insert_eq. eapply Hshape, Htask. }
  assert (Hdropped : ∀ later,
            touchesOnly s this (setDb (withFates later db) this)).
  { intros later. unfold touchesOnly, storeOf. simpl. rewrite Hdb. simpl.
    repeat split; try done. rewrite Hst. apply sameShape_refl. }
  assert (Hsame : touchesOnly s this (setDb (putStore s st' db) this)).
  { unfold touchesOnly, storeOf. simpl. rewrite Hdb. simpl.
    repeat split; try done.
    - intros s' Hs'. by rewrite lookup_insert_ne.
    - rewrite Hst, lookup_insert_eq. eapply Hshape, Htask. }
  destruct mode; [exact Hsame|].
  destruct (fates db) as [|[|err] later]; simpl;
    [exact Hsame|apply Hkept|apply Hdropped].
Qed.

Lemma deleteEach_frame (s path : string) (rs : list (gmap string value))
    (this : IDB) :
  touchesOnly s this (deleteEach s path rs this).2.
Proof.
  revert this. induction rs as [|r rs IH]; intros this; simpl;
    [apply touchesOnly_refl|].
  destruct (isValidKey (get r path)).
  - pose proof (transaction_frame s readwrite (storeDelete (get r path)) this
                  (storeDelete_keepsShape _)) as Hone.
    destruct (transaction s readwrite _ this) as [p this1]. simpl in Hone.
    specialize (IH this1).
    destruct (deleteEach s path rs this1) as [ps this2]. simpl in *.
    eapply touchesOnly_trans; eassumption.
  - specialize (IH this).
    destruct (deleteEach s path rs this) as [ps this2]. exact IH.
Qed.

Lemma putEach_frame (s path : string) (dataToSet : gmap string value)
    (clock : nat → value) (rs : list (gmap string value)) :
  ∀ (i : nat) (this : IDB),
    touchesOnly s this (putEach s path dataToSet clock i rs this).2.
Proof.
  induction rs as [|r rs IH]; intros i this; simpl;
    [apply touchesOnly_refl|].
  pose proof (transaction_frame s readwrite
                (storePut (updatedRecord path dataToSet r (clock i))) this
                (storePut_keepsShape _)) as Hone.
  destruct (transaction s readwrite _ this) as [p this1]. simpl in Hone.
  specialize (IH (S i) this1).
  destruct (putEach s path dataToSet clock (S i) rs this1) as [ps this2].
  simpl in *. eapply touchesOnly_trans; eassumption.
Qed.

Lemma getAllRecords_frame (s : string) (this : IDB) :
  (getAllRecords s this).2 = this.
Proof. by rewrite getAllRecords_selected. Qed.

Lemma executeDelete_frame (s : string) (storeSchema : StoreSchema)
    (q : QueryBuilder.QueryBuilder) (this : IDB) :
  touchesOnly s this (executeDelete s storeSchema q this).2.
Proof.
  unfold executeDelete. rewrite getAllRecords_selected.
  destruct (selected QueryBuilder.new s this) as [|all|e];
    try apply touchesOnly_refl.
  destruct (negb _); [apply touchesOnly_refl|].
  pose proof (deleteEach_frame s
                (default EmptyString (getPrimaryKeyPath storeSchema))
                (QueryBuilder.applyQuery q all) this) as Hall.
  destruct (deleteEach _ _ _ this) as [ps this2]. exact Hall.
Qed.

Lemma updateWhere_frame (s : string) (storeSchema : StoreSchema)
    (dataToSet conds : gmap string value) (clock : nat → value) (this : IDB) :
  touchesOnly s this (updateWhere s storeSchema dataToSet conds clock this).2.
Proof.
  unfold updateWhere. rewrite getAllRecords_selected.
  destruct (selected QueryBuilder.new s this) as [|all|e];
    try apply touchesOnly_refl.
  destruct (negb _); [apply touchesOnly_refl|].
  pose proof (putEach_frame s
                (default EmptyString (getPrimaryKeyPath storeSchema))
                dataToSet clock
                (QueryBuilder.applyQuery
                   (QueryBuilder.where_ conds QueryBuilder.new) all)
                O this) as Hall.
  destruct (putEach _ _ _ _ _ _ this) as [ps this2]. exact Hall.
Qed.

End Frame.

(** X14.  A call through [tables] touches nothing but the contents of the
    store it names: [tables], the readiness promise, the schema and the
    console are as before, every other store of the database is as before,
    and the named store keeps its key path, its key generation and its
    indexes; an engine that is not connected stays so.  A call that throws
    (the store is not in [tables]) changes nothing at all. *)
Theorem call_touches_only_its_store
    (storeName : string) (c : IDB.crud) (this : IDB.IDB) :
  Laws.touchesOnly storeName this (IDB.call storeName c this).2
  ∧ (∀ e, (IDB.call storeName c this).1 = inl e →
          (IDB.call storeName c this).2 = this).
Proof.
  unfold IDB.call.
  destruct (IDB.tables this !! storeName) as [storeSchema|];
    [|split; [apply touchesOnly_refl|reflexivity]].
  destruct c as [args| |steps|dataToSet conds clock|[conds|]].
  - pose proof (transaction_frame storeName Backend.readwrite
                  (Backend.storeAdd args) this (storeAdd_keepsShape _)) as H.
    unfold IDB.insert.
    destruct (IDB.transaction _ _ _ this) as [p this']. by split.
  - rewrite getAllRecords_selected. split; [apply touchesOnly_refl|done].
  - unfold IDB.selectThen. rewrite getAllRecords_selected.
    split; [apply touchesOnly_refl|done].
  - pose proof (updateWhere_frame storeName storeSchema dataToSet conds clock
                  this) as H.
    destruct (IDB.updateWhere _ _ _ _ _ this) as [p this']. by split.
  - pose proof (executeDelete_frame storeName storeSchema
                  (QueryBuilder.where_ conds IDB.createDeleteQuery) this) as H.
    unfold IDB.deleteWhere.
    destruct (IDB.executeDelete _ _ _ this) as [p this']. by split.
  - pose proof (executeDelete_frame storeName storeSchema
                  IDB.createDeleteQuery this) as H.
    unfold IDB.deleteThen.
    destruct (IDB.executeDelete _ _ _ this) as [p this']. by split.
Qed.

Lemma call_touches_only_its_store_witness :
  (IDB.call "notes" IDB.GetAll Todo.ready).2 = Todo.ready.
Proof.
  refine (proj2 (call_touches_only_its_store "notes" IDB.GetAll Todo.ready)
            (JS.TypeErrorOfUndefined "getAll") _).
  vm_compute. reflexivity.
Defined.

Section KeyColumn.
Import JS ColumnDefinitionBuilder Backend IDB Spec Laws.
Local Open Scope list_scope.

Lemma getPrimaryKeyPath_none (columns : StoreSchema) :
  primaryKeyCount columns = O → getPrimaryKeyPath columns = None.
Proof.
  unfold primaryKeyCount, getPrimaryKeyPath.
  induction columns as [|[c d] columns IH]; simpl; [reflexivity|].
  unfold isPrimaryKeyColumn at 1. simpl.
  destruct (truthy (_isPrimaryKey d)); [discriminate|]. exact IH.
Qed.

Lemma selected_holds (this : IDB) (s : string) (st : IDBObjectStore)
    (q : QueryBuilder.QueryBuilder) :
  holds this s st →
  selected q s this = Fulfilled (QueryBuilder.applyQuery q (records st)).
Proof. intros (db & Hdb & Hst). unfold selected. by rewrite Hdb, Hst. Qed.

Lemma length_append (a b : string) :
  String.length (a ++ b) = (String.length a + String.length b)%nat.
Proof.
  induction a as [|c a IH]; [reflexivity|].
  change (S (String.length (a ++ b)) = S (String.length a + String.length b)).
  by rewrite IH.
Qed.

Lemma append_inj_l (a b suffix : string) :
  (a ++ suffix)%string = (b ++ suffix)%string → a = b.
Proof.
  revert b. induction a as [|c a IH]; intros [|c' b] H.
  - reflexivity.
  - apply (f_equal String.length) in H. rewrite !length_append in H.
    simpl in H. lia.
  - apply (f_equal String.length) in H. rewrite !length_append in H.
    simpl in H. lia.
  - change (String c (a ++ suffix) = String c' (b ++ suffix)) in H.
    injection H as -> H. f_equal. by apply IH.
Qed.

Lemma uniqueIndexName_inj (a b : string) :
  uniqueIndexName a = uniqueIndexName b → a = b.
Proof. apply append_inj_l. Qed.

Lemma containsIndex_app (name : string) (st : IDBObjectStore) (i : IDBIndex) :
  containsIndex name
    (mkStore (keyPath st) (autoIncrement st) (indexes st ++ [i])
       (keyGenerator st) (records st))
  = containsIndex name st || String.eqb (indexName i) name.
Proof.
  unfold containsIndex. simpl. rewrite existsb_app. simpl.
  by rewrite orb_false_r.
Qed.

(** With column names that differ and are valid key paths, every index
    asked for is created, and nothing is warned about or thrown. *)
Lemma createIndexes_fresh (s path : string) (columns : StoreSchema) :
  NoDup (List.map fst columns) →
  Forall (fun col => validKeyPath col.1 = true) columns →
  ∀ (st : IDBObjectStore) (w : list string),
    Forall (fun col => containsIndex (uniqueIndexName col.1) st = false)
      columns →
    createIndexes s path columns st w
    = (mkStore (keyPath st) (autoIncrement st)
         (indexes st ++ uniqueIndexes path columns)
         (keyGenerator st) (records st), w, None).
Proof.
  unfold uniqueIndexes.
  induction columns as [|[c d] columns IH]; intros Hnodup Hpaths st w Hfresh;
    simpl.
  - rewrite app_nil_r. by destruct st.
  - simpl in Hnodup. apply NoDup_cons in Hnodup as [Hc Hnodup].
    apply Forall_cons in Hfresh as [Hhead Hfresh]. simpl in Hhead.
    apply Forall_cons in Hpaths as [Hpath Hpaths]. simpl in Hpath.
    destruct (truthy (_isUnique d) && negb (c =? path)%string); simpl.
    + rewrite Hhead. unfold storeCreateIndex. rewrite Hhead, Hpath. simpl.
      rewrite IH; [|exact Hnodup|exact Hpaths|].
      * simpl. by rewrite <- app_assoc.
      * apply Forall_forall. intros col Hcol.
        rewrite containsIndex_app.
        rewrite Forall_forall in Hfresh. rewrite (Hfresh col Hcol). simpl.
        apply String.eqb_neq. intros Heq.
        apply uniqueIndexName_inj in Heq. apply Hc. rewrite Heq.
        apply list_elem_of_fmap. by exists col.
    + by apply IH.
Qed.

(** The scan over columns with one key column, well formed: no throw; the
    key column and its key generation come out. *)
Lemma scan_one_key (s : string) (columns : StoreSchema) :
  ∀ (p : option string) (a : bool),
    primaryKeyCount columns = 1%nat →
    truthyString p = false →
    Forall (fun col => wellFormed col.2) columns →
    scanPrimaryKey s columns p a
    = inr (getPrimaryKeyPath columns, a || generatesKeys columns).
Proof.
  unfold primaryKeyCount, getPrimaryKeyPath, generatesKeys.
  induction columns as [|[c d] columns IH]; intros p a Hcount Hp Hwf;
    simpl in *; [discriminate|].
  apply Forall_cons in Hwf as [Hd Hwf]. simpl in Hd.
  unfold isPrimaryKeyColumn in Hcount at 1. simpl in Hcount.
  destruct (truthy (_isPrimaryKey d)) eqn:Hkey; simpl in *.
  - rewrite Hp.
    assert (Hrest : primaryKeyCount columns = O)
      by (unfold primaryKeyCount; lia).
    assert (Hnone : existsb
              (fun col => truthy (_isPrimaryKey col.2)
                          && truthy (_isAutoIncrement col.2)) columns = false).
    { clear -Hrest. unfold primaryKeyCount in Hrest.
      induction columns as [|[c d] columns IH]; simpl in *; [reflexivity|].
      unfold isPrimaryKeyColumn in Hrest at 1. simpl in Hrest.
      destruct (truthy (_isPrimaryKey d)); [discriminate|]. by apply IH. }
    rewrite Hnone, orb_false_r.
    destruct (truthy (_isAutoIncrement d)) eqn:Hauto.
    + destruct (Hd Hauto) as [_ Htype].
      rewrite (bool_decide_eq_false_2 (_type d ≠ NUMBER)) by tauto.
      rewrite scan_without_key by exact Hrest. by rewrite orb_true_r.
    + rewrite scan_without_key by exact Hrest. by rewrite orb_false_r.
  - by apply IH.
Qed.

End KeyColumn.

(** X15.  An update or a delete on a store whose part of the schema has
    no key column, or has its first key column named by the empty string,
    is rejected with the PrimaryKeyNotFound error after the records have
    been read, and writes nothing: the engine is as before. *)
Theorem update_and_delete_need_a_key_column
    (this : IDB.IDB) (storeName : string) (storeSchema : IDB.StoreSchema)
    (st : Backend.IDBObjectStore) :
  Spec.holds this storeName st →
  IDB.tables this !! storeName = Some storeSchema →
  Spec.primaryKeyCount storeSchema = O
  ∨ IDB.getPrimaryKeyPath storeSchema = Some EmptyString →
  (∀ dataToSet conds clock,
     IDB.call storeName (IDB.Update dataToSet conds clock) this
     = (inr (JS.Rejected (JS.PrimaryKeyNotFound storeName "update")), this))
  ∧ (∀ conds,
       IDB.call storeName (IDB.Delete conds) this
       = (inr (JS.Rejected (JS.PrimaryKeyNotFound storeName "delete")), this)).
Proof.
  intros Hholds Htable Hkey.
  assert (Hfalsy : IDB.truthyString (IDB.getPrimaryKeyPath storeSchema)
                   = false).
  { destruct Hkey as [Hnone|Hempty].
    - by rewrite getPrimaryKeyPath_none.
    - by rewrite Hempty. }
  split.
  - intros dataToSet conds clock. unfold IDB.call, IDB.updateWhere.
    rewrite Htable, getAllRecords_selected.
    rewrite (selected_holds this storeName st _ Hholds), Hfalsy. reflexivity.
  - intros [conds|]; unfold IDB.call, IDB.deleteWhere, IDB.deleteThen,
      IDB.executeDelete;
      rewrite Htable, getAllRecords_selected,
        (selected_holds this storeName st _ Hholds), Hfalsy; reflexivity.
Qed.

Lemma update_and_delete_need_a_key_column_witness :
  let st := Backend.mkStore "id" true [] 2 [ {[ "id" := JS.VNum 1 ]} ] in
  let columns : IDB.StoreSchema :=
    [("title", ColumnDefinitionBuilder.mkColumnDefinition
                 ColumnDefinitionBuilder.STRING None None None None)] in
  let this :=
    IDB.mkIDB (Some (Backend.mkDatabase {[ "todos" := st ]} [])) "todo" 2
      (Some [("todos", columns)]) (JS.Fulfilled tt) {[ "todos" := columns ]} [] in
  IDB.call "todos" (IDB.Delete None) this
  = (inr (JS.Rejected (JS.PrimaryKeyNotFound "todos" "delete")), this).
Proof.
  intros st columns this.
  refine (proj2 (update_and_delete_need_a_key_column this "todos" columns st
                   _ _ _) None).
  - eexists. split; reflexivity.
  - reflexivity.
  - left. reflexivity.
Defined.

(** X16.  What [createObjectStore] creates.  For a store the database does
    not have yet, whose columns have names that differ, exactly one key
    column, named other than by the empty string, and definitions as the
    builders leave them: when the column names are valid key paths the
    call neither throws nor warns, and the database gains the store,
    empty: its key path is the key column (the one [getPrimaryKeyPath]
    finds, so that update and delete address the store by its own key), it
    generates keys exactly when the key column auto-increments, and it has
    one unique index [<column>_unique_idx] for each unique column other
    than the key column and no other index.  The other stores of the
    database are as before.  When the name of the key column is no valid
    key path the backend refuses the store: the call throws its
    SyntaxError and the database is as it was. *)
Theorem createObjectStore_creates_keyed_store
    (storeName primaryKeyPath : string) (columns : IDB.StoreSchema)
    (db : Backend.IDBDatabase) :
  Backend.containsStore storeName db = false →
  NoDup (List.map fst columns) →
  Spec.primaryKeyCount columns = 1%nat →
  IDB.getPrimaryKeyPath columns = Some primaryKeyPath →
  primaryKeyPath ≠ EmptyString →
  Forall (fun col => Laws.wellFormed col.2) columns →
  (Forall (fun col => Backend.validKeyPath col.1 = true) columns →
   IDB.createObjectStore storeName columns db
   = (Backend.putStore storeName
        (Laws.createdStore primaryKeyPath columns) db, [], None))
  ∧ (Backend.validKeyPath primaryKeyPath = false →
     IDB.createObjectStore storeName columns db
     = (db, [], Some (JS.BackendError "SyntaxError")))
  ∧ (∀ i, In i (Backend.indexes (Laws.createdStore primaryKeyPath columns))
          ↔ ∃ c d, In (c, d) columns
                   ∧ ColumnDefinitionBuilder.truthy
                       (ColumnDefinitionBuilder._isUnique d) = true
                   ∧ c ≠ primaryKeyPath
                   ∧ i = Backend.mkIndex (IDB.uniqueIndexName c) c true)
  ∧ (∀ s, s ≠ storeName →
          Backend.objectStores
            (Backend.putStore storeName
               (Laws.createdStore primaryKeyPath columns) db) !! s
          = Backend.objectStores db !! s).
Proof.
  intros Habsent Hnodup Hcount Hpk Hne Hwf.
  assert (Hname : (primaryKeyPath =? EmptyString)%string = false)
    by (by apply String.eqb_neq).
  split; [|split; [|split]].
  - intros Hpaths.
    assert (Hkey : Backend.validKeyPath primaryKeyPath = true).
    { unfold IDB.getPrimaryKeyPath in Hpk.
      destruct (List.find _ columns) as [[c d]|] eqn:Hfind; [|discriminate].
      injection Hpk as <-. apply find_some in Hfind as [Hin _].
      rewrite Forall_forall in Hpaths.
      apply (Hpaths (c, d)), list_elem_of_In, Hin. }
    unfold IDB.createObjectStore. rewrite Habsent.
    rewrite (scan_one_key storeName columns None false Hcount eq_refl Hwf).
    rewrite Hpk. simpl. rewrite Hname. simpl.
    unfold Backend.dbCreateObjectStore.
    rewrite Hkey, Habsent, Hname, andb_false_r. simpl.
    rewrite createIndexes_fresh; [|exact Hnodup|exact Hpaths|].
    + simpl. unfold Backend.putStore. simpl. f_equal. f_equal. f_equal.
      by rewrite insert_insert_eq.
    + apply Forall_forall. intros col _. reflexivity.
  - intros Hkey. unfold IDB.createObjectStore. rewrite Habsent.
    rewrite (scan_one_key storeName columns None false Hcount eq_refl Hwf).
    rewrite Hpk. simpl. rewrite Hname. simpl.
    unfold Backend.dbCreateObjectStore. by rewrite Hkey.
  - intros i. unfold Laws.createdStore, Laws.uniqueIndexes. simpl.
    rewrite in_map_iff. split.
    + intros ([c d] & <- & Hin). apply filter_In in Hin as [Hin Hu].
      simpl in *. apply andb_prop in Hu as [Hu Hk].
      exists c, d. repeat split; try done.
      apply negb_true_iff, String.eqb_neq in Hk. exact Hk.
    + intros (c & d & Hin & Hu & Hk & ->). exists (c, d).
      split; [reflexivity|]. apply filter_In. split; [exact Hin|]. simpl.
      rewrite Hu. simpl. by apply negb_true_iff, String.eqb_neq.
  - intros s Hs. simpl. by rewrite lookup_insert_ne.
Qed.

Lemma createObjectStore_creates_keyed_store_witness :
  let columns : IDB.StoreSchema :=
    [("id", ColumnDefinitionBuilder.mkColumnDefinition
              ColumnDefinitionBuilder.NUMBER (Some true) (Some true) None None);
     ("email", ColumnDefinitionBuilder.mkColumnDefinition
                 ColumnDefinitionBuilder.STRING None None None (Some true))] in
  IDB.createObjectStore "users" columns (Backend.mkDatabase ∅ [])
  = (Backend.putStore "users" (Laws.createdStore "id" columns)
       (Backend.mkDatabase ∅ []), [], None).
Proof.
  intros columns.
  refine (proj1 (createObjectStore_creates_keyed_store "users" "id" columns
                   (Backend.mkDatabase ∅ []) _ _ _ _ _ _) _).
  - reflexivity.
  - apply (bool_decide_unpack _). vm_compute. reflexivity.
  - reflexivity.
  - reflexivity.
  - discriminate.
  - repeat constructor; simpl; try discriminate; reflexivity.
  - repeat constructor.
Defined.

Section UpgradeLaws.
Import JS ColumnDefinitionBuilder Backend IDB Spec Laws.
Local Open Scope list_scope.

Lemma containsStore_true (s : string) (db : IDBDatabase) :
  containsStore s db = true ↔ is_Some (objectStores db !! s).
Proof. unfold containsStore. apply bool_decide_eq_true. Qed.

(** The database [db.createObjectStore] leaves is the one it was given
    with the new store. *)
Lemma dbCreateObjectStore_returns (s path : string) (a : bool)
    (db db' : IDBDatabase) (st : IDBObjectStore) :
  dbCreateObjectStore s path a db = inr (st, db') →
  db' = putStore s st db.
Proof.
  unfold dbCreateObjectStore.
  destruct (negb (validKeyPath path)); [discriminate|].
  destruct (containsStore s db); [discriminate|].
  destruct (a && (path =? EmptyString)%string); [discriminate|].
  by intros [= <- <-].
Qed.

(** [createObjectStore] leaves the stores the database has as they are. *)
Lemma createObjectStore_keeps (s' : string) (columns : StoreSchema)
    (db : IDBDatabase) (s : string) (st : IDBObjectStore) :
  objectStores db !! s = Some st →
  objectStores (createObjectStore s' columns db).1.1 !! s = Some st.
Proof.
  intros Hst. unfold createObjectStore.
  destruct (containsStore s' db) eqn:Hin; [exact Hst|].
  destruct (scanPrimaryKey s' columns None false) as [e|[p a]];
    [exact Hst|].
  destruct (negb (truthyString p)); [exact Hst|].
  destruct (dbCreateObjectStore s' (default EmptyString p) a db)
    as [e|[st0 db0]] eqn:Hmade; [exact Hst|].
  apply dbCreateObjectStore_returns in Hmade as ->.
  destruct (createIndexes s' (default EmptyString p) columns st0 [])
    as [[st' w] thrown]. simpl.
  assert (Hne : s' ≠ s).
  { intros ->. apply not_true_iff_false in Hin. apply Hin.
    apply containsStore_true. by rewrite Hst. }
  by rewrite !lookup_insert_ne.
Qed.

Lemma createObjectStores_keeps (schema : IDBSchema) (db : IDBDatabase)
    (s : string) (st : IDBObjectStore) :
  objectStores db !! s = Some st →
  objectStores (createObjectStores schema db).1.1 !! s = Some st.
Proof.
  revert db. induction schema as [|[s' columns] schema IH]; intros db Hst;
    simpl; [exact Hst|].
  pose proof (createObjectStore_keeps s' columns db s st Hst) as Hone.
  destruct (createObjectStore s' columns db) as [[db1 w1] [e|]]; simpl in *;
    [exact Hone|].
  specialize (IH db1 Hone).
  destruct (createObjectStores schema db1) as [[db2 w2] thrown]. exact IH.
Qed.







Lemma readyPromise_deliver (this : IDB) (n : notification) :
  settled (readyPromise this) = true →
  readyPromise (deliver this n) = readyPromise this.
Proof.
  intros Hsettled. destruct n as [db|db|err]; simpl.
  - unfold onupgradeneeded.
    destruct (createObjectStores _ db) as [[db' w] [e|]]; simpl;
      [|reflexivity].
    by destruct (readyPromise this).
  - unfold onsuccess, resolveReady. simpl. by destruct (readyPromise this).
  - unfold onerror, rejectReady. simpl. by destruct (readyPromise this).
Qed.

End UpgradeLaws.

(** X17.  Opening never drops or changes a store the database already
    has: whatever the schema and the versions, every store of the database
    on disk is there afterwards with its key path, its indexes and its
    records as they were; and the database on disk changes at all only
    when its version is behind the one asked for and the promise of [open]
    is fulfilled. *)
Theorem open_keeps_existing_stores
    (disk : IDB.Disk) (this : IDB.IDB) (storeName : string)
    (st : Backend.IDBObjectStore) :
  Backend.objectStores (IDB.diskDatabase disk) !! storeName = Some st →
  Backend.objectStores (IDB.diskDatabase (IDB.indexedDBOpen disk this).2)
    !! storeName = Some st
  ∧ ((IDB.indexedDBOpen disk this).2 = disk
     ∨ (IDB.diskVersion disk < IDB.version this
        ∧ IDB.diskVersion (IDB.indexedDBOpen disk this).2 = IDB.version this
        ∧ (IDB.readyPromise this = JS.Pending →
           IDB.readyPromise (IDB.indexedDBOpen disk this).1
           = JS.Fulfilled tt))).
Proof.
  intros Hst. unfold IDB.indexedDBOpen.
  destruct (negb (IDB.validVersion (IDB.version this))); [by auto|].
  destruct (IDB.version this <? IDB.diskVersion disk)%Z; [by auto|].
  destruct (Z.ltb_spec (IDB.diskVersion disk) (IDB.version this)) as [Hlt|_];
    [|by auto].
  pose proof (createObjectStores_keeps
                (default [] (IDB.schemaDefinition this))
                (IDB.diskDatabase disk) storeName st Hst) as Hkept.
  unfold IDB.onupgradeneeded.
  destruct (IDB.createObjectStores _ _) as [[db' w] [e|]]; simpl in *;
    [by auto|].
  split; [exact Hkept|]. right. split; [exact Hlt|]. split; [reflexivity|].
  intros Hpending. unfold IDB.onsuccess, IDB.resolveReady. simpl.
  by rewrite Hpending.
Qed.

Lemma open_keeps_existing_stores_witness :
  let st := Backend.mkStore "id" true [] 2 [ {[ "id" := JS.VNum 1 ]} ] in
  let disk := IDB.mkDisk 1 (Backend.mkDatabase {[ "todos" := st ]} []) in
  let this := IDB.open Todo.appSchema.2 Todo.appSchema.1 (IDB.new "todo" 2) in
  Backend.objectStores (IDB.diskDatabase (IDB.indexedDBOpen disk this).2)
    !! "todos" = Some st.
Proof.
  intros st disk this.
  refine (proj1 (open_keeps_existing_stores disk this "todos" st _)).
  reflexivity.
Defined.

(** X18.  The readiness promise settles once: after it has been fulfilled
    or rejected, no notification of the open request (upgrade, success or
    error, in whatever order and number) changes it. *)
Theorem readiness_settles_once
    (this : IDB.IDB) (notifications : list Laws.notification) :
  JS.settled (IDB.readyPromise this) = true →
  IDB.isReady (foldl Laws.deliver this notifications)
  = IDB.isReady this.
Proof.
  revert this. induction notifications as [|n ns IH]; intros this Hsettled;
    simpl; [reflexivity|].
  unfold IDB.isReady in *. rewrite IH.
  - by apply readyPromise_deliver.
  - by rewrite readyPromise_deliver.
Qed.

Lemma readiness_settles_once_witness :
  IDB.isReady
    (foldl Laws.deliver Todo.ready
       [Laws.Failure (JS.BackendError "AbortError");
        Laws.UpgradeNeeded (Backend.mkDatabase ∅ [])])
  = IDB.isReady Todo.ready.
Proof.
  apply (readiness_settles_once Todo.ready
           [Laws.Failure (JS.BackendError "AbortError");
            Laws.UpgradeNeeded (Backend.mkDatabase ∅ [])]).
  vm_compute. reflexivity.
Defined.



Section MissingStore.
Import JS ColumnDefinitionBuilder Backend IDB Spec Laws.
Local Open Scope list_scope.





(** A scan over well-formed columns throws for a second key column
    only. *)
Lemma scan_wellFormed (s : string) (columns : StoreSchema) :
  Forall (fun col => wellFormed col.2) columns →
  ∀ (p : option string) (a : bool) (e : error),
    scanPrimaryKey s columns p a = inl e → e = MultiplePrimaryKeys s.
Proof.
  induction 1 as [|[c d] columns Hd _ IH]; intros p a e; simpl;
    [discriminate|].
  simpl in Hd.
  destruct (truthy (_isPrimaryKey d)); [|apply IH].
  destruct (truthyString p); [by intros [= <-]|].
  destruct (truthy (_isAutoIncrement d)) eqn:Hauto; [|apply IH].
  destruct (Hd Hauto) as [_ Htype].
  rewrite (bool_decide_eq_false_2 (_type d ≠ NUMBER)) by tauto. apply IH.
Qed.

Lemma parseColumns_wellFormed (h : Heap)
    (columns : list (string * BaseColumnBuilder)) :
  heapWellFormed h →
  Forall (fun col => wellFormed col.2) (parseColumns h columns).
Proof.
  intros Hh. unfold parseColumns.
  induction columns as [|[c b] columns IH]; simpl; [constructor|].
  destruct (deref h (build b)) as [d|] eqn:Hd; simpl; [|exact IH].
  constructor; [|exact IH]. simpl. eapply Hh, Hd.
Qed.

End MissingStore.



(** X21.  For a schema parsed from builders (definitions as the builder
    operations leave them), the creation of a store throws for one of
    three reasons only.  Two are the library's own: no key column, or a
    second key column; the database is then as it was and nothing has
    been warned about.  The third is the backend's: it refuses a column
    name that is no valid key path with its SyntaxError, which happens
    only when the columns have such a name.  The test that an
    auto-increment key is a number never fails, the builders having
    refused the flag on any other column already. *)
Theorem parsed_schema_throws_for_key_count_or_key_path
    (h : ColumnDefinitionBuilder.Heap)
    (columns : list (string * ColumnDefinitionBuilder.BaseColumnBuilder))
    (storeName : string) (db db' : Backend.IDBDatabase)
    (warnings : list string) (e : JS.error) :
  Laws.heapWellFormed h →
  IDB.createObjectStore storeName (IDB.parseColumns h columns) db
  = (db', warnings, Some e) →
  ((e = JS.NoPrimaryKey storeName ∨ e = JS.MultiplePrimaryKeys storeName)
   ∧ db' = db ∧ warnings = [])
  ∨ (e = JS.BackendError "SyntaxError"
     ∧ ¬ Forall (fun col => Backend.validKeyPath col.1 = true)
           (IDB.parseColumns h columns)).
Proof.
  intros Hh Hrun.
  destruct (createObjectStore_cases storeName (IDB.parseColumns h columns) db)
    as (db1 & w1 & t1 & Hrun1 & _ & Hthrown & _).
  rewrite Hrun in Hrun1. injection Hrun1 as <- <- <-.
  destruct (Hthrown e eq_refl) as [[Hinv ->]|(Href & Hnot & _)].
  2:{ right. split; [|exact Hnot].
      destruct e; try discriminate.
      simpl in Href. by apply String.eqb_eq in Href as ->. }
  left. revert Hrun. unfold IDB.createObjectStore.
  destruct (Backend.containsStore storeName db); [discriminate|].
  destruct (IDB.scanPrimaryKey storeName (IDB.parseColumns h columns) None
              false) as [e'|[p a]] eqn:Hscan.
  - intros [= <- <-]. split; [right|done].
    eapply scan_wellFormed; [|exact Hscan].
    by apply parseColumns_wellFormed.
  - destruct (negb (IDB.truthyString p)).
    + intros [= <- <-]. split; [by left|done].
    + destruct (Backend.dbCreateObjectStore storeName (default EmptyString p)
                  a db) as [e0|[st0 db0]] eqn:Hmade.
      * intros [= _ <-]. exfalso. revert Hmade.
        unfold Backend.dbCreateObjectStore.
        repeat (match goal with
                | |- context [if ?b then _ else _] => destruct b
                end); intros [= <-]; discriminate.
      * destruct (IDB.createIndexes storeName (default EmptyString p)
                    (IDB.parseColumns h columns) st0 [])
          as [[st' w'] thrown] eqn:Hidx.
        intros [= _ _ ->]. exfalso.
        destruct (createIndexes_thrown _ _ _ _ _ _ _ _ Hidx) as [Href _].
        destruct e; discriminate.
Qed.

Lemma parsed_schema_throws_for_key_count_or_key_path_witness :
  ((JS.NoPrimaryKey "notes" = JS.NoPrimaryKey "notes"
    ∨ JS.NoPrimaryKey "notes" = JS.MultiplePrimaryKeys "notes")
   ∧ Backend.mkDatabase ∅ [] = Backend.mkDatabase ∅ [] ∧ @nil string = [])
  ∨ (JS.NoPrimaryKey "notes" = JS.BackendError "SyntaxError"
     ∧ ¬ Forall (fun col => Backend.validKeyPath col.1 = true)
           (IDB.parseColumns
              (Todo.chained ColumnDefinitionBuilder.STRING
                 [ColumnDefinitionBuilder.OpAutoIncrement]
                 ColumnDefinitionBuilder.emptyHeap).2
              [("title", (Todo.chained ColumnDefinitionBuilder.STRING
                 [ColumnDefinitionBuilder.OpAutoIncrement]
                 ColumnDefinitionBuilder.emptyHeap).1)])).
Proof.
  refine (parsed_schema_throws_for_key_count_or_key_path
            (Todo.chained ColumnDefinitionBuilder.STRING
               [ColumnDefinitionBuilder.OpAutoIncrement]
               ColumnDefinitionBuilder.emptyHeap).2
            [("title", (Todo.chained ColumnDefinitionBuilder.STRING
               [ColumnDefinitionBuilder.OpAutoIncrement]
               ColumnDefinitionBuilder.emptyHeap).1)]
            "notes" (Backend.mkDatabase ∅ []) (Backend.mkDatabase ∅ []) []
            (JS.NoPrimaryKey "notes") _ _).
  - apply chained_wellFormed, emptyHeap_wellFormed.
  - vm_compute. reflexivity.
Defined.

Section InsertLaws.
Import JS ColumnDefinitionBuilder Backend IDB Spec Laws.
Local Open Scope list_scope.

Lemma compareKeys_antisym (a : value) :
  ∀ b, compareKeys a b = CompOpp (compareKeys b a).
Proof.
  induction a as [| |x|x|x|r x|r elems IH|r fields] using value_array_ind;
    intros [| |y|y|y|r' y|r' ys|r' fields']; try reflexivity.
  - apply Z.compare_antisym.
  - apply String.compare_antisym.
  - apply Z.compare_antisym.
  - simpl. revert ys. induction IH as [|e elems He _ IHelems]; intros [|y ys];
      try reflexivity.
    rewrite (He y). destruct (compareKeys y e); simpl; try reflexivity.
    apply IHelems.
Qed.

Lemma sameKey_sym (a b : value) : sameKey a b = sameKey b a.
Proof.
  unfold sameKey. rewrite (compareKeys_antisym a b).
  by destruct (compareKeys b a).
Qed.

Lemma place_In (path : string) (key : value) (record : gmap string value)
    (rs : list (gmap string value)) :
  In record (place path key record rs)
  ∧ ∀ r, In r rs → sameKey (evaluateKeyPath path r) key = false →
         In r (place path key record rs).
Proof.
  induction rs as [|r0 rs [IH1 IH2]]; simpl.
  - split; [by left|]. by intros r [].
  - destruct (compareKeys key (evaluateKeyPath path r0)) eqn:Hcmp; simpl.
    + split; [by left|]. intros r [<-|Hr] Hsame; [|by right].
      rewrite sameKey_sym in Hsame. unfold sameKey in Hsame.
      by rewrite Hcmp in Hsame.
    + split; [by left|]. intros r Hr _. by right.
    + split; [by right|]. intros r [<-|Hr] Hsame; [by left|].
      right. by apply IH2.
Qed.

Lemma place_from (path : string) (key : value) (record : gmap string value)
    (rs : list (gmap string value)) (r1 : gmap string value) :
  In r1 (place path key record rs) → r1 = record ∨ In r1 rs.
Proof.
  induction rs as [|r0 rs IH]; simpl.
  - intros [<-|[]]. by left.
  - destruct (compareKeys key (evaluateKeyPath path r0)); simpl.
    + intros [<-|Hr1]; auto.
    + intros [<-|[<-|Hr1]]; auto.
    + intros [<-|Hr1]; auto. destruct (IH Hr1); auto.
Qed.

Lemma existsb_false_In {A} (p : A → bool) (l : list A) (x : A) :
  existsb p l = false → In x l → p x = false.
Proof.
  intros Hnone Hx. apply not_true_is_false. intros Hp.
  assert (existsb p l = true) by (apply existsb_exists; eauto). congruence.
Qed.

(** A key path has a first identifier. *)
Lemma segments_cons (path : string) : ∃ id ids, segments path = id :: ids.
Proof.
  destruct path as [|c rest]; simpl; [by eexists _, _|].
  destruct (Ascii.eqb c "."); [by eexists _, _|].
  destruct (segments rest); by eexists _, _.
Qed.

(** The key that was put into a record is the one its key path gives. *)
Lemma evaluatePath_injectKey (key : value) (ids : list string) :
  ids ≠ [] →
  ∀ (ref : nat) (fields : gmap string value),
    canInject ids fields = true →
    evaluatePath ids (VObj ref (injectKey ids key fields)) = key.
Proof.
  induction ids as [|id [|id' rest] IH]; intros Hne ref fields Hcan;
    [done| |].
  - simpl. unfold get. by rewrite lookup_insert_eq.
  - assert (Hrest : id' :: rest ≠ []) by done. specialize (IH Hrest).
    revert Hcan. cbn [canInject injectKey evaluatePath].
    destruct (fields !! id) as [[| | | | | | |r inner]|] eqn:Hid;
      try discriminate.
    + intros Hcan. unfold get at 1. rewrite lookup_insert_eq.
      exact (IH r inner Hcan).
    + intros _. unfold get at 1. rewrite lookup_insert_eq.
      apply (IH O ∅). by destruct rest.
Qed.

Lemma keyOf_injectKey (st : IDBObjectStore) (key : value)
    (record : gmap string value) :
  keyOf st record = VUndefined →
  canInject (segments (keyPath st)) record = true →
  keyOf st (injectKey (segments (keyPath st)) key record) = key.
Proof.
  unfold keyOf, evaluateKeyPath.
  destruct (keyPath st =? EmptyString)%string; [discriminate|].
  intros _ Hcan. apply evaluatePath_injectKey; [|exact Hcan].
  destruct (segments_cons (keyPath st)) as (id & ids & ->). done.
Qed.

(** For a key path that is a plain name the key is set as a property of
    the record. *)
Lemma injectKey_plain (path : string) (key : value)
    (record : gmap string value) :
  plainName path = true →
  injectKey (segments path) key record = <[path := key]> record.
Proof.
  unfold plainName. intros Hplain. apply andb_prop in Hplain as [_ Hno].
  apply negb_true_iff in Hno. by rewrite (segments_plain path Hno).
Qed.

(** What a successful [add] has done. *)
Lemma storeAdd_succeeds (args : gmap string value) (st st' : IDBObjectStore)
    (k : value) :
  storeAdd args readwrite st = Succeeds k st' →
  ∃ r, In r (records st')
       ∧ keyOf st r = k
       ∧ (r = args ∨ (keyOf st args = VUndefined
                      ∧ autoIncrement st = true
                      ∧ k = VNum (keyGenerator st)
                      ∧ r = injectKey (segments (keyPath st)) k args))
       ∧ (∀ r0, In r0 (records st) →
                In r0 (records st') ∧ sameKey (keyOf st r0) k = false)
       ∧ (∀ r1, In r1 (records st') → r1 = r ∨ In r1 (records st)).
Proof.
  unfold storeAdd, keyed.
  destruct (isUndefined (keyOf st args)) eqn:Hundef.
  - destruct (autoIncrement st && canInject (segments (keyPath st)) args)
      eqn:Hgen; [|discriminate].
    destruct (maxGeneratedKey <? keyGenerator st)%Z; [discriminate|].
    destruct (existsb _ (records st) || _) eqn:Hexists; [discriminate|].
    intros [= <- <-]. apply orb_false_elim in Hexists as [Hfresh _].
    apply andb_prop in Hgen as [Hauto Hcan].
    assert (Hkey : keyOf st args = VUndefined)
      by (by destruct (keyOf st args)).
    exists (injectKey (segments (keyPath st)) (VNum (keyGenerator st)) args).
    destruct (place_In (keyPath st) (VNum (keyGenerator st))
                (injectKey (segments (keyPath st)) (VNum (keyGenerator st))
                   args) (records st)) as [Hin Hold].
    split; [exact Hin|]. split; [|split; [|split]].
    + by apply keyOf_injectKey.
    + right. by repeat split.
    + intros r0 Hr0.
      pose proof (existsb_false_In _ _ r0 Hfresh Hr0) as Hne. simpl in Hne.
      split; [by apply Hold|exact Hne].
    + simpl. intros r1. apply place_from.
  - destruct (validKey (keyOf st args)) eqn:Hvalid; [|discriminate].
    destruct (existsb _ (records st) || _) eqn:Hexists; [discriminate|].
    intros [= <- <-]. apply orb_false_elim in Hexists as [Hfresh _].
    exists args.
    destruct (place_In (keyPath st) (keyOf st args) args (records st))
      as [Hin Hold].
    split; [exact Hin|]. split; [reflexivity|]. split; [by left|]. split.
    + intros r0 Hr0.
      pose proof (existsb_false_In _ _ r0 Hfresh Hr0) as Hne. simpl in Hne.
      split; [by apply Hold|exact Hne].
    + simpl. intros r1. apply place_from.
Qed.

End InsertLaws.

(** X22.  [insert] adds and never overwrites.  On an open engine whose
    transactions commit: when the promise of an insert is fulfilled with a
    key, the store has a record under that key (the value its key path
    gives on the record), which is the record given or, for a store that
    generates keys and a record without one, the record with the generated
    key put at the key path; every record the store had is still there,
    none of them under that key; and nothing else was added.  Whether or
    not the transactions commit, an insert of a record whose key is the
    key of a record of the store is rejected with the backend's
    ConstraintError and leaves the engine as it was.  When the backend
    aborts the transaction after the request has succeeded, the promise
    has been fulfilled with the key all the same, and nothing is stored.
    For a key path that is a plain name (no period in it), the key of a
    record is its property of that name, and a generated key is set as
    that property. *)
Theorem insert_adds_and_never_overwrites
    (this : IDB.IDB) (storeName : string) (storeSchema : IDB.StoreSchema)
    (st : Backend.IDBObjectStore) (args : gmap string JS.value) :
  Spec.holds this storeName st →
  IDB.tables this !! storeName = Some storeSchema →
  (Spec.keeps this storeName st →
   ∀ k this',
     IDB.call storeName (IDB.Insert args) this
     = (inr (JS.Fulfilled (IDB.Key k)), this') →
     ∃ st' r,
       Spec.keeps this' storeName st'
       ∧ In r (Backend.records st')
       ∧ Backend.keyOf st r = k
       ∧ (r = args
          ∨ r = Backend.injectKey (Backend.segments (Backend.keyPath st)) k
                  args)
       ∧ (∀ r0, In r0 (Backend.records st) →
                In r0 (Backend.records st')
                ∧ Backend.sameKey (Backend.keyOf st r0) k = false)
       ∧ (∀ r1, In r1 (Backend.records st') →
                r1 = r ∨ In r1 (Backend.records st)))
  ∧ (∀ r0,
       In r0 (Backend.records st) →
       Backend.validKey (Backend.keyOf st args) = true →
       Backend.sameKey (Backend.keyOf st r0) (Backend.keyOf st args) = true →
       IDB.call storeName (IDB.Insert args) this
       = (inr (JS.Rejected (JS.BackendError "ConstraintError")), this))
  ∧ (∀ db err later k st',
       IDB._db this = Some db →
       Backend.fates db = Backend.Abort err :: later →
       Backend.storeAdd args Backend.readwrite st = Backend.Succeeds k st' →
       IDB.call storeName (IDB.Insert args) this
       = (inr (JS.Fulfilled (IDB.Key k)),
          IDB.setDb (Backend.withFates later db) this))
  ∧ (Spec.plainName (Backend.keyPath st) = true →
     ∀ r k,
       Backend.keyOf st r = JS.get r (Backend.keyPath st)
       ∧ Backend.injectKey (Backend.segments (Backend.keyPath st)) k r
         = <[Backend.keyPath st := k]> r).
Proof.
  intros Hholds Htable. split; [|split; [|split]].
  - intros Hkeeps k this'. unfold IDB.call, IDB.insert. rewrite Htable.
    destruct (Backend.storeAdd args Backend.readwrite st)
      as [e|key st'|e] eqn:Hadd.
    + destruct Hholds as (db & Hdb & Hst). unfold IDB.transaction.
      rewrite Hdb, Hst, Hadd. discriminate.
    + destruct (transaction_commits this storeName st st' _ key Hkeeps Hadd)
        as (this1 & -> & Hkeeps1).
      intros [= <- <-].
      destruct (storeAdd_succeeds args st st' key Hadd)
        as (r & Hin & Hkey & Hshape & Hold & Hnew).
      exists st', r. split; [exact Hkeeps1|].
      split; [exact Hin|]. split; [exact Hkey|].
      split; [|split; [exact Hold|exact Hnew]].
      destruct Hshape as [?|(_ & _ & _ & ?)]; auto.
    + destruct Hholds as (db & Hdb & Hst). unfold IDB.transaction.
      rewrite Hdb, Hst, Hadd. discriminate.
  - destruct Hholds as (db & Hdb & Hst).
    intros r0 Hr0 Hvalid Hsame.
    unfold IDB.call, IDB.insert, IDB.transaction.
    rewrite Htable, Hdb, Hst.
    unfold Backend.storeAdd, Backend.keyed. rewrite Hvalid.
    assert (Hdef : JS.isUndefined (Backend.keyOf st args) = false)
      by (destruct (Backend.keyOf st args); simpl in *; congruence).
    rewrite Hdef. 
    assert (Hexists :
      existsb (fun r => Backend.sameKey (Backend.keyOf st r)
                          (Backend.keyOf st args))
        (Backend.records st) = true)
      by (apply existsb_exists; eauto).
    rewrite Hexists. reflexivity.
  - destruct Hholds as (db & Hdb & Hst).
    intros db' err later k st' Hdb' Hfates Hadd.
    rewrite Hdb in Hdb'. injection Hdb' as <-.
    unfold IDB.call, IDB.insert, IDB.transaction.
    rewrite Htable, Hdb, Hst, Hadd, Hfates. reflexivity.
  - intros Hplain r k. split.
    + unfold Backend.keyOf. by apply evaluateKeyPath_plain.
    + by apply injectKey_plain.
Qed.

Lemma insert_adds_and_never_overwrites_witness :
  let st := Backend.mkStore "id" true [] 2 [ {[ "id" := JS.VNum 1 ]} ] in
  let columns : IDB.StoreSchema :=
    [("id", ColumnDefinitionBuilder.mkColumnDefinition
              ColumnDefinitionBuilder.NUMBER (Some true) (Some true) None None)] in
  let this :=
    IDB.mkIDB (Some (Backend.mkDatabase {[ "todos" := st ]} [])) "todo" 1
      (Some [("todos", columns)]) (JS.Fulfilled tt) {[ "todos" := columns ]} [] in
  IDB.call "todos" (IDB.Insert {[ "id" := JS.VNum 1 ]}) this
  = (inr (JS.Rejected (JS.BackendError "ConstraintError")), this).
Proof.
  intros st columns this.
  refine (proj1 (proj2 (insert_adds_and_never_overwrites this "todos" columns
                   st {[ "id" := JS.VNum 1 ]} _ _)) {[ "id" := JS.VNum 1 ]}
            _ _ _).
  - eexists. split; reflexivity.
  - reflexivity.
  - left. reflexivity.
  - reflexivity.
  - reflexivity.
Defined.

Section NoOp.
Import JS ColumnDefinitionBuilder Backend IDB Spec Laws.
Local Open Scope list_scope.

Lemma deleteEach_skips (s path : string) (rs : list (gmap string value))
    (this : IDB) :
  Forall (fun r => isValidKey (get r path) = false) rs →
  deleteEach s path rs this = (List.map (fun _ => Fulfilled tt) rs, this).
Proof.
  induction 1 as [|r rs Hr _ IH]; simpl; [reflexivity|].
  by rewrite Hr, IH.
Qed.

Lemma Forall_filter_implies {A} (p q : A → bool) (l : list A) :
  Forall (fun x => p x = true → q x = false) l →
  Forall (fun x => q x = false) (List.filter p l).
Proof.
  induction 1 as [|x l Hx _ IH]; simpl; [constructor|].
  destruct (p x) eqn:Hp; [constructor; auto|exact IH].
Qed.

End NoOp.

(** X23.  A delete whose matching records carry no valid key at the
    schema's key column (in particular a delete that matches no record),
    and an update that matches no record, write nothing: the promise is
    fulfilled and the engine is as it was. *)
Theorem nothing_to_write_changes_nothing
    (this : IDB.IDB) (storeName primaryKeyPath : string)
    (storeSchema : IDB.StoreSchema) (st : Backend.IDBObjectStore)
    (conds : gmap string JS.value) :
  Spec.holds this storeName st →
  IDB.tables this !! storeName = Some storeSchema →
  IDB.getPrimaryKeyPath storeSchema = Some primaryKeyPath →
  primaryKeyPath ≠ EmptyString →
  (Forall (fun r =>
             QueryBuilder.matches (QueryBuilder.where_ conds QueryBuilder.new) r
             = true →
             IDB.isValidKey (JS.get r primaryKeyPath) = false)
     (Backend.records st) →
   IDB.call storeName (IDB.Delete (Some conds)) this
   = (inr (JS.Fulfilled IDB.Void), this))
  ∧ (Forall (fun r =>
               QueryBuilder.matches
                 (QueryBuilder.where_ conds QueryBuilder.new) r = false)
       (Backend.records st) →
     ∀ dataToSet clock,
       IDB.call storeName (IDB.Update dataToSet conds clock) this
       = (inr (JS.Fulfilled IDB.Void), this)).
Proof.
  intros Hholds Htable Hpk Hne.
  assert (Htruthy : IDB.truthyString (Some primaryKeyPath) = true).
  { simpl. by destruct (String.eqb_spec primaryKeyPath EmptyString). }
  split.
  - intros Hskip. unfold IDB.call, IDB.deleteWhere, IDB.executeDelete,
      IDB.createDeleteQuery.
    rewrite Htable, getAllRecords_selected,
      (selected_holds this storeName st _ Hholds), Hpk, Htruthy.
    rewrite applyQuery_new, applyQuery_where. cbn [negb from_option id].
    rewrite deleteEach_skips by (by apply Forall_filter_implies).
    by rewrite promiseAll_fulfilled.
  - intros Hnone dataToSet clock. unfold IDB.call, IDB.updateWhere.
    rewrite Htable, getAllRecords_selected,
      (selected_holds this storeName st _ Hholds), Hpk, Htruthy.
    rewrite applyQuery_new, applyQuery_where, filter_none by exact Hnone.
    reflexivity.
Qed.

Lemma nothing_to_write_changes_nothing_witness :
  let st := Backend.mkStore "id" true [] 2 [ {[ "id" := JS.VNum 1 ]} ] in
  let columns : IDB.StoreSchema :=
    [("id", ColumnDefinitionBuilder.mkColumnDefinition
              ColumnDefinitionBuilder.NUMBER (Some true) (Some true) None None)] in
  let this :=
    IDB.mkIDB (Some (Backend.mkDatabase {[ "todos" := st ]} [])) "todo" 1
      (Some [("todos", columns)]) (JS.Fulfilled tt) {[ "todos" := columns ]} [] in
  IDB.call "todos" (IDB.Delete (Some {[ "id" := JS.VNum 5 ]})) this
  = (inr (JS.Fulfilled IDB.Void), this).
Proof.
  intros st columns this.
  refine (proj1 (nothing_to_write_changes_nothing this "todos" "id" columns st
                   {[ "id" := JS.VNum 5 ]} _ _ _ _) _).
  - eexists. split; reflexivity.
  - reflexivity.
  - reflexivity.
  - discriminate.
  - repeat constructor. vm_compute. discriminate.
Defined.
